(** * Dependency analyzer: a shallow embedding of [analyze_dependencies.py]

    The development follows the script top-down: path handling and the
    import resolver, the lexical import extractor for Python files, the
    graph builder, and the three analyses (cycles, coupling, layers);
    then the text report and the diagram, and the patterns of the
    extractor for JavaScript and TypeScript files.

    Conventions.
    - A Python [str] is a [string]; text is taken to be ASCII, and its order
      is the byte-wise lexicographic one ([String.le]).
    - A [dict] is an association list in insertion order with unique keys
      (iteration order matters to the cycle detector and to the coupling
      report); a [set] is a [gset]; a [defaultdict(int)] is a [gmap] read
      with default [0].
    - Code that can raise returns a [result].
    - The cycle search is given in two forms: with the nested calls it
      needs, and under the recursion limit of the interpreter (the
      definitions named [..._within]). *)

From Stdlib Require Import Ascii.
From stdpp Require Import base list strings gmap sorting pretty.

#[local] Set Warnings "-clear-no-such-hyp".

(** ** Outcomes *)

Inductive exn := ValueError | KeyError.

(** [OutOfFuel]: the recursion budget of [dfs] below is used up.
    [find_circular_dependencies] gives [dfs] a budget that no graph
    uses up; under a budget that stands for the recursion limit of the
    interpreter ([dfs_within]) this outcome is the [RecursionError]. *)
Inductive result (A : Type) :=
  | Ok (a : A)
  | Raise (e : exn)
  | OutOfFuel.
Arguments Ok {A} a.
Arguments Raise {A} e.
Arguments OutOfFuel {A}.

Global Instance result_bind : MBind result := λ A B k r,
  match r with
  | Ok a => k a
  | Raise e => Raise e
  | OutOfFuel => OutOfFuel
  end.

(** [for x in xs: st = body st x], stopping at the first exception. *)
Fixpoint for_each {A S} (body : S → A → result S) (xs : list A) (st : S)
    : result S :=
  match xs with
  | [] => Ok st
  | x :: xs' => st' ← body st x; for_each body xs' st'
  end.

(** ** Strings *)

Module Str.

Definition startswith (p s : string) : bool := String.prefix p s.

(** [s[n:]] *)
Fixpoint drop (n : nat) (s : string) : string :=
  match n, s with
  | 0, _ => s
  | S _, EmptyString => EmptyString
  | S n', String _ s' => drop n' s'
  end.

(** [s.split(sep)] for a one-character separator *)
Fixpoint split (sep : ascii) (s : string) : list string :=
  match s with
  | EmptyString => [EmptyString]
  | String c s' =>
      if decide (c = sep) then EmptyString :: split sep s'
      else match split sep s' with
           | h :: t => String c h :: t
           | [] => [String c EmptyString]
           end
  end.

(** [sep.join(parts)] *)
Definition join (sep : string) (parts : list string) : string :=
  String.concat sep parts.

(** [s.replace(a, b)] for single characters *)
Fixpoint replace (a b : ascii) (s : string) : string :=
  match s with
  | EmptyString => EmptyString
  | String c s' => String (if decide (c = a) then b else c) (replace a b s')
  end.

(** [s.rstrip('/')] *)
Fixpoint rstrip_slash (s : string) : string :=
  match s with
  | EmptyString => EmptyString
  | String c s' =>
      match rstrip_slash s' with
      | EmptyString => if decide (c = "/"%char) then EmptyString
                       else String c EmptyString
      | r => String c r
      end
  end.

(** [s[:s.rfind('/') + 1]] *)
Fixpoint upto_last_slash (s : string) : string :=
  match s with
  | EmptyString => EmptyString
  | String c s' =>
      match upto_last_slash s' with
      | EmptyString => if decide (c = "/"%char) then String c EmptyString
                       else EmptyString
      | h => String c h
      end
  end.

(** [needle in s] *)
Fixpoint contains (needle s : string) : bool :=
  String.prefix needle s ||
  match s with
  | EmptyString => false
  | String _ s' => contains needle s'
  end.

(** [s.rfind(c)] *)
Fixpoint rfind (c : ascii) (s : string) : option nat :=
  match s with
  | EmptyString => None
  | String x s' =>
      match rfind c s' with
      | Some i => Some (S i)
      | None => if decide (x = c) then Some 0 else None
      end
  end.

(** [s.endswith(suffix)] *)
Definition endswith (suffix s : string) : bool :=
  bool_decide (String.length suffix ≤ String.length s)
  && bool_decide (drop (String.length s - String.length suffix) s = suffix).

Definition lower_char (c : ascii) : ascii :=
  let n := nat_of_ascii c in
  if (65 <=? n) && (n <=? 90) then ascii_of_nat (n + 32) else c.

(** [s.lower()] on ASCII text *)
Fixpoint lower (s : string) : string :=
  match s with
  | EmptyString => EmptyString
  | String c s' => String (lower_char c) (lower s')
  end.

Fixpoint endswith_slash (s : string) : bool :=
  match s with
  | EmptyString => false
  | String c EmptyString => bool_decide (c = "/"%char)
  | String _ s' => endswith_slash s'
  end.

End Str.

(** ** [os.path] on POSIX *)

Module Path.

(** [os.path.join(a, b)] *)
Definition join (a b : string) : string :=
  if Str.startswith "/" b then b
  else if bool_decide (a = "") || Str.endswith_slash a then a +:+ b
  else a +:+ "/" +:+ b.

(** [os.path.dirname(p)] *)
Definition dirname (p : string) : string :=
  let head := Str.upto_last_slash p in
  match Str.rstrip_slash head with
  | EmptyString => head          (* empty, or slashes only *)
  | stripped => stripped
  end.

Definition isabs (p : string) : bool := Str.startswith "/" p.

Definition normpath_step (initial_slashes : nat) (new_comps : list string)
    (comp : string) : list string :=
  if bool_decide (comp = "" ∨ comp = ".") then new_comps
  else if bool_decide (comp ≠ "..")
          || (bool_decide (initial_slashes = 0)
              && bool_decide (new_comps = []))
          || bool_decide (last new_comps = Some "..")
  then new_comps ++ [comp]
  else removelast new_comps.

(** [os.path.normpath(path)] *)
Definition normpath (path : string) : string :=
  if bool_decide (path = "") then "."
  else
    let initial_slashes :=
      if Str.startswith "/" path then
        if Str.startswith "//" path && negb (Str.startswith "///" path)
        then 2 else 1
      else 0 in
    let comps := foldl (normpath_step initial_slashes) []
                       (Str.split "/" path) in
    let body := Str.join "/" comps in
    let path' := Str.join "" (replicate initial_slashes "/") +:+ body in
    if bool_decide (path' = "") then "." else path'.

(** [os.path.abspath(path)], with the working directory [cwd] *)
Definition abspath (cwd path : string) : string :=
  normpath (if isabs path then path else join cwd path).

Fixpoint commonprefix (l1 l2 : list string) : list string :=
  match l1, l2 with
  | x :: l1', y :: l2' =>
      if decide (x = y) then x :: commonprefix l1' l2' else []
  | _, _ => []
  end.

(** [os.path.relpath(path, start)] *)
Definition relpath (cwd path start : string) : result string :=
  if bool_decide (path = "") then Raise ValueError
  else
    let start_list :=
      filter (λ x, x ≠ "") (Str.split "/" (abspath cwd start)) in
    let path_list :=
      filter (λ x, x ≠ "") (Str.split "/" (abspath cwd path)) in
    let i := length (commonprefix start_list path_list) in
    let rel_list := replicate (length start_list - i) ".." ++
                    drop i path_list in
    match rel_list with
    | [] => Ok "."
    | _ => Ok (Str.join "/" rel_list)
    end.

End Path.

(** The file system as the analyzer sees it: a working directory, the two
    predicates [os.path.exists] and [os.path.isfile] (which, from Python
    3.8 on, return [False] instead of raising), and the text of each file
    ([None] when opening or reading it raises). *)
Record OS := {
  cwd : string;
  path_exists : string → bool;
  isfile : string → bool;
  read_text : string → option string;
}.

(** ** The import resolver *)

Definition normalize_path (os : OS) (path base_dir : string) : result string :=
  match Path.relpath (cwd os) path base_dir with
  | Raise ValueError => Ok path
  | r => r
  end.

Definition probe_extensions : list string :=
  [""; ".ts"; ".tsx"; ".js"; ".jsx"; ".py"; "/index.ts"; "/index.js"].

(** The loop over the candidate extensions at the end of [resolve_import]. *)
Fixpoint probe (os : OS) (resolved base_dir : string) (exts : list string)
    : result (option string) :=
  match exts with
  | [] => Ok None
  | ext :: exts' =>
      let full_path := resolved +:+ ext in
      if isfile os full_path then
        r ← normalize_path os full_path base_dir; Ok (Some r)
      else probe os resolved base_dir exts'
  end.

Definition up_count (parts : list string) : nat :=
  length (filter (λ p, p = "..") parts).

Definition remaining (parts : list string) : string :=
  Str.join "/" (filter (λ p, p ≠ "..") parts).

(** The path that [resolve_import] probes; [None] is the early
    [return None] for an external package. *)
Definition resolved_candidate (os : OS) (import_path current_file base_dir : string)
    : option string :=
  if Str.startswith "." import_path then
    let current_dir := Path.dirname current_file in
    if Str.startswith "./" import_path then
      Some (Path.join current_dir (Str.drop 2 import_path))
    else if Str.startswith "../" import_path then
      let parts := Str.split "/" import_path in
      let target_dir := Nat.iter (up_count parts) Path.dirname current_dir in
      Some (Path.join target_dir (remaining parts))
    else
      Some (Path.join current_dir (Str.drop 1 import_path))
  else if Str.startswith "@/" import_path || Str.startswith "~/" import_path then
    Some (Path.join base_dir (Str.drop 2 import_path))
  else if negb (Str.startswith "/" import_path) then
    let potential_local := Path.join base_dir import_path in
    if path_exists os potential_local
       || path_exists os (potential_local +:+ ".ts")
    then Some potential_local
    else None
  else Some import_path.

Definition resolve_import (os : OS) (import_path current_file base_dir : string)
    : result (option string) :=
  match resolved_candidate os import_path current_file base_dir with
  | Some resolved => probe os resolved base_dir probe_extensions
  | None => Ok None
  end.

(** ** The lexical import extractor (Python files)

    [re.finditer] is modelled for the two patterns the extractor uses.
    Both are concatenations of a literal and of greedy character-class
    runs whose classes are disjoint from what follows them, so at a given
    start position the greedy match is the only one and no backtracking
    is modelled.  [\s] is the ASCII part of Python's class (it contains
    the separators 28-31), [\w] is [[A-Za-z0-9_]]. *)

Module Re.

Definition newline : ascii := "010"%char.

Definition is_space (c : ascii) : bool :=
  let n := nat_of_ascii c in
  (9 <=? n) && (n <=? 13) || (28 <=? n) && (n <=? 32).

Definition is_word (c : ascii) : bool :=
  let n := nat_of_ascii c in
  (48 <=? n) && (n <=? 57) || (65 <=? n) && (n <=? 90)
  || (97 <=? n) && (n <=? 122) || (n =? 95).

(** the class [[\w.]] *)
Definition is_dotted (c : ascii) : bool :=
  is_word c || bool_decide (c = "."%char).

(** A greedy run [c+] or [c*]: the longest prefix in the class, and the
    rest. *)
Fixpoint span (cls : ascii → bool) (s : string) : string * string :=
  match s with
  | EmptyString => (EmptyString, EmptyString)
  | String c s' =>
      if cls c then let '(run, rest) := span cls s' in (String c run, rest)
      else (EmptyString, s)
  end.

Definition nonempty (s : string) : bool :=
  match s with EmptyString => false | _ => true end.

(** [from\s+([\w.]+)\s+import] at the start of [s]: group 1 and the
    length of the match. *)
Definition match_from (bol : bool) (s : string) : option (string * nat) :=
  if Str.startswith "from" s then
    let '(ws1, r1) := span is_space (Str.drop 4 s) in
    let '(g, r2) := span is_dotted r1 in
    let '(ws2, r3) := span is_space r2 in
    if nonempty ws1 && nonempty g && nonempty ws2
       && Str.startswith "import" r3
    then Some (g, 4 + String.length ws1 + String.length g
                  + String.length ws2 + 6)
    else None
  else None.

(** [^import\s+([\w.]+)] with [re.MULTILINE] at the start of [s];
    [bol] tells whether [s] begins a line. *)
Definition match_import (bol : bool) (s : string) : option (string * nat) :=
  if bol && Str.startswith "import" s then
    let '(ws, r1) := span is_space (Str.drop 6 s) in
    let '(g, _) := span is_dotted r1 in
    if nonempty ws && nonempty g
    then Some (g, 6 + String.length ws + String.length g)
    else None
  else None.

(** [re.finditer]: scan left to right, try the pattern at each position
    that no earlier match covers; yield the position and group 1.
    [skip] counts the characters of the current match still to pass. *)
Fixpoint finditer_from (m : bool → string → option (string * nat))
    (bol : bool) (pos skip : nat) (s : string) : list (nat * string) :=
  match s with
  | EmptyString => []
  | String c s' =>
      let bol' := bool_decide (c = newline) in
      match skip with
      | S k => finditer_from m bol' (S pos) k s'
      | 0 =>
          match m bol s with
          | Some (g, n) => (pos, g) :: finditer_from m bol' (S pos) (n - 1) s'
          | None => finditer_from m bol' (S pos) 0 s'
          end
      end
  end.

Definition finditer m (s : string) : list (nat * string) :=
  finditer_from m true 0 0 s.

End Re.

(** The body shared by the two loops of [extract_imports_python]. *)
Definition resolve_matches (os : OS) (filepath base_dir : string)
    (matches : list (nat * string)) (imports : list string)
    : result (list string) :=
  for_each (λ imports '(_, module_path),
      let file_path := Str.replace "." "/" module_path in
      resolved ← resolve_import os file_path filepath base_dir;
      match resolved with
      | Some r => Ok (if bool_decide (r = "") then imports else imports ++ [r])
      | None => Ok imports
      end)
    matches imports.

Definition extract_imports_python (os : OS) (content filepath base_dir : string)
    : result (list string) :=
  imports ← resolve_matches os filepath base_dir
              (Re.finditer Re.match_from content) [];
  resolve_matches os filepath base_dir
    (Re.finditer Re.match_import content) imports.

(** ** Dictionaries in insertion order *)

Module Dict.

Fixpoint get {V} (d : list (string * V)) (k : string) : option V :=
  match d with
  | [] => None
  | (k', v) :: d' => if decide (k' = k) then Some v else get d' k
  end.

(** [k in d] *)
Definition mem {V} (k : string) (d : list (string * V)) : bool :=
  bool_decide (k ∈ d.*1).

(** [d[k] = v]: an existing key keeps its place, a new one goes last. *)
Fixpoint set {V} (k : string) (v : V) (d : list (string * V))
    : list (string * V) :=
  match d with
  | [] => [(k, v)]
  | (k', v') :: d' =>
      if decide (k' = k) then (k, v) :: d' else (k', v') :: set k v d'
  end.

Definition keys {V} (d : list (string * V)) : list string := d.*1.
Definition values {V} (d : list (string * V)) : list V := d.*2.

End Dict.

(** ** Data model *)

Record ModuleInfo := {
  path : string;
  imports : list string;
  exports : list string;
  import_count : nat;
  imported_by_count : nat;
}.

Record CircularDependency := { cycle : list string }.

Definition HIGH_COUPLING_THRESHOLD : nat := 5.
Definition TOTAL_COUPLING_THRESHOLD : nat := 10.

Record CouplingIssue := {
  module : string;
  incoming : nat;
  outgoing : nat;
  total : nat;
}.

Global Instance nat_gt_dec (x y : nat) : Decision (x > y) := decide (y < x).

Definition is_hub (issue : CouplingIssue) : bool :=
  bool_decide (incoming issue > HIGH_COUPLING_THRESHOLD)
  && bool_decide (outgoing issue > HIGH_COUPLING_THRESHOLD).

Record DependencyReport := {
  modules : list (string * ModuleInfo);
  circular_dependencies : list CircularDependency;
  coupling_issues : list CouplingIssue;
  layer_violations : list (string * string * string);
}.

Global Instance CircularDependency_eq_dec : EqDecision CircularDependency.
Proof. solve_decision. Defined.
Global Instance CouplingIssue_eq_dec : EqDecision CouplingIssue.
Proof. solve_decision. Defined.

(** ** The cycle detector *)

Record DfsState := {
  cycles : list CircularDependency;
  visited : gset string;
  rec_stack : gset string;
}.

(** [path.index(node)] *)
Fixpoint index_of (node : string) (path : list string) : option nat :=
  match path with
  | [] => None
  | x :: path' =>
      if decide (x = node) then Some 0 else S <$> index_of node path'
  end.

(** The nested function [dfs]; [cycles], [visited] and [rec_stack] are the
    variables it shares with the enclosing call, [path] is copied on every
    call.  [fuel] bounds the recursion depth.  [dfs_all] gives it more
    than any graph needs, so that [find_circular_dependencies] is the
    function as long as the recursion limit of the interpreter is not
    reached; [find_circular_dependencies_within] is the function under
    that limit. *)
Fixpoint dfs (fuel : nat) (modules : list (string * ModuleInfo))
    (node : string) (path : list string) (st : DfsState) : result DfsState :=
  match fuel with
  | 0 => OutOfFuel
  | S fuel' =>
      if decide (node ∈ rec_stack st) then
        match index_of node path with
        | None => Raise ValueError
        | Some cycle_start =>
            Ok {| cycles := cycles st ++ [ {| cycle := drop cycle_start path |} ];
                  visited := visited st;
                  rec_stack := rec_stack st |}
        end
      else if decide (node ∈ visited st) then Ok st
      else
        let st1 := {| cycles := cycles st;
                      visited := {[ node ]} ∪ visited st;
                      rec_stack := {[ node ]} ∪ rec_stack st |} in
        let path1 := path ++ [node] in
        st2 ← match Dict.get modules node with
              | Some info =>
                  for_each (λ st imported,
                      if Dict.mem imported modules
                      then dfs fuel' modules imported path1 st
                      else Ok st)
                    (imports info) st1
              | None => Ok st1
              end;
        if decide (node ∈ rec_stack st2) then
          Ok {| cycles := cycles st2;
                visited := visited st2;
                rec_stack := rec_stack st2 ∖ {[ node ]} |}
        else Raise KeyError
  end.

(** [tuple(sorted(cycle.cycle))] *)
Definition normalized (c : CircularDependency) : list string :=
  merge_sort String.le (cycle c).

(** One turn of the deduplication loop. *)
Definition dedup_step (acc : list CircularDependency * gset (list string))
    (c : CircularDependency) : list CircularDependency * gset (list string) :=
  let '(unique_cycles, seen_cycles) := acc in
  if decide (normalized c ∈ seen_cycles) then acc
  else (unique_cycles ++ [c], {[ normalized c ]} ∪ seen_cycles).

Definition deduplicate (cs : list CircularDependency) : list CircularDependency :=
  (foldl dedup_step ([], ∅) cs).1.

Definition dfs_all (modules : list (string * ModuleInfo)) : result DfsState :=
  for_each (λ st module,
      if decide (module ∈ visited st) then Ok st
      else dfs (S (length modules)) modules module [] st)
    (Dict.keys modules)
    {| cycles := []; visited := ∅; rec_stack := ∅ |}.

Definition find_circular_dependencies (modules : list (string * ModuleInfo))
    : result (list CircularDependency) :=
  st ← dfs_all modules;
  Ok (deduplicate (cycles st)).

(** *** Under the recursion limit

    The interpreter allows a limited number of nested calls and raises
    [RecursionError] at the call that exceeds it; nothing catches the
    error, so the whole call fails with it.  [dfs_within builtin frames]
    is [dfs] with [frames] nested calls left.  A call of [dfs] takes one
    for as long as it runs, and so does the [__init__] of
    [CircularDependency(cycle=cycle)].  The call of a built-in
    ([path.index], the constructor itself, [visited.add]) takes
    [builtin] while it runs: 1 in CPython before version 3.12, 0 from
    3.12 on, where only the calls of Python functions count.
    [OutOfFuel] is the [RecursionError]. *)
Fixpoint dfs_within (builtin frames : nat)
    (modules : list (string * ModuleInfo))
    (node : string) (path : list string) (st : DfsState) : result DfsState :=
  match frames with
  | 0 => OutOfFuel
  | S frames' =>
      if decide (node ∈ rec_stack st) then
        if decide (frames' < builtin) then OutOfFuel
        else
          match index_of node path with
          | None => Raise ValueError
          | Some cycle_start =>
              if decide (frames' < builtin + 1) then OutOfFuel
              else
                Ok {| cycles := cycles st
                                ++ [ {| cycle := drop cycle_start path |} ];
                      visited := visited st;
                      rec_stack := rec_stack st |}
          end
      else if decide (node ∈ visited st) then Ok st
      else if decide (frames' < builtin) then OutOfFuel
      else
        let st1 := {| cycles := cycles st;
                      visited := {[ node ]} ∪ visited st;
                      rec_stack := {[ node ]} ∪ rec_stack st |} in
        let path1 := path ++ [node] in
        st2 ← match Dict.get modules node with
              | Some info =>
                  for_each (λ st imported,
                      if Dict.mem imported modules
                      then dfs_within builtin frames' modules imported path1 st
                      else Ok st)
                    (imports info) st1
              | None => Ok st1
              end;
        if decide (node ∈ rec_stack st2) then
          Ok {| cycles := cycles st2;
                visited := visited st2;
                rec_stack := rec_stack st2 ∖ {[ node ]} |}
        else Raise KeyError
  end.

(** [find_circular_dependencies] when its body has [frames] nested calls
    left. *)
Definition find_circular_dependencies_within (builtin frames : nat)
    (modules : list (string * ModuleInfo)) : result (list CircularDependency) :=
  st ← for_each (λ st module,
          if decide (module ∈ visited st) then Ok st
          else dfs_within builtin frames modules module [] st)
        (Dict.keys modules)
        {| cycles := []; visited := ∅; rec_stack := ∅ |};
  Ok (deduplicate (cycles st)).

(** ** The coupling analyzer *)

(** [imported_by[imp] += 1] on a [defaultdict(int)] *)
Definition incr (imp : string) (counts : gmap string nat) : gmap string nat :=
  <[ imp := S (default 0 (counts !! imp)) ]> counts.

Definition count_internal (modules : list (string * ModuleInfo))
    : gmap string nat :=
  foldl (λ imported_by info,
      foldl (λ imported_by imp,
          if Dict.mem imp modules then incr imp imported_by else imported_by)
        imported_by (imports info))
    ∅ (Dict.values modules).

(** [sorted(issues, key=lambda x: x.total, reverse=True)]: the sort is
    stable, also when reversed. *)
Fixpoint insert_desc (x : CouplingIssue) (l : list CouplingIssue)
    : list CouplingIssue :=
  match l with
  | [] => [x]
  | y :: l' =>
      if decide (total y ≤ total x) then x :: y :: l'
      else y :: insert_desc x l'
  end.

Definition sorted_by_total_desc (l : list CouplingIssue) : list CouplingIssue :=
  foldr insert_desc [] l.

Definition coupling_of (imported_by : gmap string nat)
    (entry : string * ModuleInfo) : list CouplingIssue :=
  let '(path, info) := entry in
  let outgoing := import_count info in
  let incoming := default 0 (imported_by !! path) in
  let total := incoming + outgoing in
  if bool_decide (total > TOTAL_COUPLING_THRESHOLD)
     || bool_decide (incoming > HIGH_COUPLING_THRESHOLD)
        && bool_decide (outgoing > HIGH_COUPLING_THRESHOLD)
  then [ {| module := path; incoming := incoming;
            outgoing := outgoing; total := total |} ]
  else [].

Definition analyze_coupling (modules : list (string * ModuleInfo))
    : list CouplingIssue :=
  let imported_by := count_internal modules in
  let issues := flat_map (coupling_of imported_by) modules in
  sorted_by_total_desc issues.

(** ** The layer violation detector *)

Definition layer_patterns : list (string * list string) :=
  [ ("presentation", ["/components/"; "/pages/"; "/views/"; "/ui/"]);
    ("application", ["/services/"; "/usecases/"; "/application/"]);
    ("domain", ["/domain/"; "/models/"; "/entities/"]);
    ("infrastructure",
       ["/infrastructure/"; "/repositories/"; "/adapters/"; "/db/"]) ].

(** [re.search(pattern, path)]: the patterns are literals. *)
Definition search (pattern path : string) : bool := Str.contains pattern path.

Fixpoint get_layer_from (table : list (string * list string)) (p : string)
    : option string :=
  match table with
  | [] => None
  | (layer, patterns) :: table' =>
      if existsb (λ pattern, search pattern p) patterns then Some layer
      else get_layer_from table' p
  end.

Definition get_layer (p : string) : option string :=
  get_layer_from layer_patterns p.

Definition allowed : list (string * list string) :=
  [ ("presentation", ["application"; "domain"]);
    ("application", ["domain"]);
    ("domain", []);
    ("infrastructure", ["domain"]) ].

(** [allowed.get(source_layer, [])] *)
Definition allowed_get (source_layer : string) : list string :=
  default [] (Dict.get allowed source_layer).

Definition arrow : string := " → ".

Definition violations_of (entry : string * ModuleInfo)
    : list (string * string * string) :=
  let '(p, info) := entry in
  match get_layer p with
  | None => []
  | Some source_layer =>
      flat_map (λ imported,
          match get_layer imported with
          | None => []
          | Some target_layer =>
              if bool_decide (target_layer ∉ allowed_get source_layer)
                 && bool_decide (target_layer ≠ source_layer)
              then [ (p, imported, source_layer +:+ arrow +:+ target_layer) ]
              else []
          end)
        (imports info)
  end.

Definition detect_layer_violations (modules : list (string * ModuleInfo))
    : list (string * string * string) :=
  flat_map violations_of modules.

(** ** The graph builder *)

(** [Path(filepath).suffix] *)
Definition suffix (filepath : string) : string :=
  let name := default "" (last (Str.split "/" filepath)) in
  match Str.rfind "." name with
  | Some i =>
      if bool_decide (0 < i) && bool_decide (i < String.length name - 1)
      then Str.drop i name else ""
  | None => ""
  end.

(** [list(set(imports))]: the elements without repetition, in an order the
    language leaves open; the order of [elements] stands for it. *)
Definition list_set (l : list string) : list string :=
  elements (list_to_set l : gset string).

Definition extensions : list string :=
  [".js"; ".ts"; ".jsx"; ".tsx"; ".py"; ".mjs"].

(** [imported_by_count[imp] += 1] for every import of every module *)
Definition count_imported_by (modules : list (string * ModuleInfo))
    : gmap string nat :=
  foldl (λ counts info, foldl (λ counts imp, incr imp counts)
                          counts (imports info))
    ∅ (Dict.values modules).

Definition with_imported_by (n : nat) (info : ModuleInfo) : ModuleInfo :=
  {| path := path info; imports := imports info; exports := exports info;
     import_count := import_count info; imported_by_count := n |}.

(** The second pass of [analyze_directory]. *)
Definition update_imported_by (modules : list (string * ModuleInfo))
    : list (string * ModuleInfo) :=
  let counts := count_imported_by modules in
  (λ '(p, info), (p, with_imported_by (default 0 (counts !! p)) info))
    <$> modules.

Section builder.

(** The two lexical scans that no property of the builder depends on
    are its parameters: group 1 of every match of the three
    JavaScript/TypeScript patterns, in the order the loops of
    [extract_imports_js_ts] yield them ([js_ts_matches] below), and the
    list of export names. *)
Variable js_ts_import_paths : string → list string.
Variable extract_exports : string → list string.

Definition extract_imports_js_ts (os : OS) (content filepath base_dir : string)
    : result (list string) :=
  for_each (λ imports import_path,
      resolved ← resolve_import os import_path filepath base_dir;
      match resolved with
      | Some r => Ok (if bool_decide (r = "") then imports else imports ++ [r])
      | None => Ok imports
      end)
    (js_ts_import_paths content) [].

Definition analyze_file (os : OS) (filepath base_dir : string)
    : result (option ModuleInfo) :=
  match read_text os filepath with
  | None => Ok None
  | Some content =>
      rel_path ← normalize_path os filepath base_dir;
      let ext := Str.lower (suffix filepath) in
      imports ←
        (if bool_decide (ext ∈ [".js"; ".ts"; ".jsx"; ".tsx"; ".mjs"])
         then extract_imports_js_ts os content filepath base_dir
         else if bool_decide (ext = ".py")
         then extract_imports_python os content filepath base_dir
         else Ok []);
      Ok (Some {| path := rel_path;
                  imports := list_set imports;
                  exports := extract_exports content;
                  import_count := length (list_set imports);
                  imported_by_count := 0 |})
  end.

Definition scan_file (os : OS) (base_dir root : string)
    (modules : list (string * ModuleInfo)) (filename : string)
    : result (list (string * ModuleInfo)) :=
  if existsb (λ ext, Str.endswith ext filename) extensions then
    info ← analyze_file os (Path.join root filename) base_dir;
    match info with
    | Some info => Ok (Dict.set (path info) info modules)
    | None => Ok modules
    end
  else Ok modules.

(** The first pass of [analyze_directory].  [walk] is what [os.walk]
    yields after the pruning of excluded directories: each directory
    with its file names. *)
Definition scan (os : OS) (base_dir : string)
    (walk : list (string * list string)) : result (list (string * ModuleInfo)) :=
  for_each (λ modules '(root, files),
      for_each (scan_file os base_dir root) files modules)
    walk [].

Definition build_modules (os : OS) (dirpath : string)
    (walk : list (string * list string)) : result (list (string * ModuleInfo)) :=
  scanned ← scan os (Path.abspath (cwd os) dirpath) walk;
  Ok (update_imported_by scanned).

Definition analyze_directory (os : OS) (dirpath : string)
    (walk : list (string * list string)) : result DependencyReport :=
  modules ← build_modules os dirpath walk;
  circular ← find_circular_dependencies modules;
  Ok {| modules := modules;
        circular_dependencies := circular;
        coupling_issues := analyze_coupling modules;
        layer_violations := detect_layer_violations modules |}.

End builder.

(** [analyze_directory] when the cycle search has [frames] nested calls
    left.  Given what [os.walk] yields, the other functions nest their
    calls to a depth that does not grow with the input; they are taken
    to have the calls they need. *)
Definition analyze_directory_within
    (js_ts_import_paths extract_exports : string → list string)
    (builtin frames : nat) (os : OS) (dirpath : string)
    (walk : list (string * list string)) : result DependencyReport :=
  modules ← build_modules js_ts_import_paths extract_exports os dirpath walk;
  circular ← find_circular_dependencies_within builtin frames modules;
  Ok {| modules := modules;
        circular_dependencies := circular;
        coupling_issues := analyze_coupling modules;
        layer_violations := detect_layer_violations modules |}.

(** ** The reports *)

(** [CircularDependency.description].  [None] stands for the [IndexError]
    that [self.cycle[0]] raises when the cycle is empty. *)
Definition description (c : CircularDependency) : option string :=
  first ← head (cycle c);
  Some (Str.join arrow (cycle c ++ [first])).

Definition MAX_MERMAID_NODES : Z := 30.
Definition TOP_MODULES_DISPLAY_LIMIT : nat := 10.
Definition MAX_COUPLING_DISPLAY : nat := 10.
Definition MAX_VIOLATIONS_DISPLAY : nat := 15.

(** [sorted(l, key=key, reverse=True)]: a stable sort, also when
    reversed. *)
Fixpoint insert_by_desc {A} (key : A → nat) (x : A) (l : list A) : list A :=
  match l with
  | [] => [x]
  | y :: l' =>
      if decide (key y ≤ key x) then x :: y :: l'
      else y :: insert_by_desc key x l'
  end.

Definition sorted_desc {A} (key : A → nat) (l : list A) : list A :=
  foldr (insert_by_desc key) [] l.

(** [l[:n]] for an [int] [n]: a negative [n] counts from the end. *)
Definition slice_to {A} (n : Z) (l : list A) : list A :=
  if decide (0 ≤ n)%Z then take (Z.to_nat n) l
  else take (length l - Z.to_nat (- n)) l.

(** [s * n] *)
Definition repeat_str (s : string) (n : nat) : string :=
  Str.join "" (replicate n s).

Definition line_break : string := String Re.newline "".

(** [f"{n:3d}"] *)
Definition pad3 (n : nat) : string :=
  repeat_str " " (3 - String.length (pretty n)) +:+ pretty n.

(** The loop over [enumerate(report.circular_dependencies, 1)]. *)
Fixpoint cycle_lines (i : nat) (cs : list CircularDependency)
    : option (list string) :=
  match cs with
  | [] => Some []
  | c :: cs' =>
      d ← description c;
      rest ← cycle_lines (S i) cs';
      Some ((pretty i +:+ ". " +:+ d) :: rest)
  end.

Definition coupling_lines (issue : CouplingIssue) : list string :=
  let hub_marker := if is_hub issue then " [HUB]" else "" in
  [ module issue +:+ hub_marker;
    "  Incoming: " +:+ pretty (incoming issue)
    +:+ " | Outgoing: " +:+ pretty (outgoing issue)
    +:+ " | Total: " +:+ pretty (total issue) ].

Definition violation_lines (v : string * string * string) : list string :=
  let '(source, target, violation_type) := v in
  [ violation_type; "  " +:+ source; "  → " +:+ target; "" ].

(** The modules of the last section of the text report. *)
Definition most_imported (ms : list (string * ModuleInfo)) : list ModuleInfo :=
  filter (λ info, imported_by_count info > 0)
    (take TOP_MODULES_DISPLAY_LIMIT
       (sorted_desc imported_by_count (Dict.values ms))).

Definition format_text_report (report : DependencyReport) : option string :=
  cycle_section ←
    (if bool_decide (circular_dependencies report = []) then Some []
     else
       numbered ← cycle_lines 1 (circular_dependencies report);
       Some (["🔄 CIRCULAR DEPENDENCIES"; repeat_str "-" 40] ++ numbered ++ [""]));
  let coupling_section :=
    if bool_decide (coupling_issues report = []) then []
    else ["🔗 HIGH COUPLING MODULES"; repeat_str "-" 40]
         ++ flat_map coupling_lines
              (take MAX_COUPLING_DISPLAY (coupling_issues report))
         ++ [""] in
  let violation_section :=
    if bool_decide (layer_violations report = []) then []
    else ["⚠️ LAYER VIOLATIONS"; repeat_str "-" 40]
         ++ flat_map violation_lines
              (take MAX_VIOLATIONS_DISPLAY (layer_violations report)) in
  let output :=
    [ repeat_str "=" 60; "DEPENDENCY ANALYSIS REPORT"; repeat_str "=" 60; "";
      "SUMMARY"; repeat_str "-" 40;
      "Modules analyzed: " +:+ pretty (length (modules report));
      "Circular dependencies: "
        +:+ pretty (length (circular_dependencies report));
      "High coupling modules: " +:+ pretty (length (coupling_issues report));
      "Layer violations: " +:+ pretty (length (layer_violations report));
      "" ]
    ++ cycle_section ++ coupling_section ++ violation_section
    ++ ["📊 MOST IMPORTED MODULES"; repeat_str "-" 40]
    ++ ((λ info, pad3 (imported_by_count info) +:+ " imports ← "
                 +:+ path info) <$> most_imported (modules report))
    ++ [""; repeat_str "=" 60] in
  Some (Str.join line_break output).

Definition safe_name (p : string) : string :=
  Str.replace "-" "_" (Str.replace "." "_" (Str.replace "/" "_" p)).

(** The modules that [generate_mermaid_graph] draws. *)
Definition most_connected (report : DependencyReport) (max_nodes : Z)
    : list ModuleInfo :=
  slice_to max_nodes
    (sorted_desc (λ x, import_count x + imported_by_count x)
       (Dict.values (modules report))).

(** The lines that follow the header: one per import of a drawn module
    that is the path of a drawn module. *)
Definition mermaid_edges (sorted_modules : list ModuleInfo) : list string :=
  let included : gset string := list_to_set (path <$> sorted_modules) in
  flat_map (λ info,
      flat_map (λ imp,
          if bool_decide (imp ∈ included)
          then ["    " +:+ safe_name (path info) +:+ " --> " +:+ safe_name imp]
          else [])
        (imports info))
    sorted_modules.

Definition generate_mermaid_graph (report : DependencyReport) (max_nodes : Z)
    : string :=
  Str.join line_break
    ("graph LR" :: mermaid_edges (most_connected report max_nodes)).

(** ** The lexical import extractor (JavaScript and TypeScript files)

    The three patterns of [extract_imports_js_ts] are sequences of
    literals and of quantified character classes, one of which is the
    group.  [match_items] matches such a sequence at the start of a text
    the way a backtracking matcher does: a greedy quantifier first tries
    to take one more character and gives it back when the rest fails, a
    lazy one first tries the rest.  [.] is any character but the line
    break; for [\s] see [Re.is_space]. *)

Inductive item :=
  | Lit (s : string)                                  (* the text [s] *)
  | One (cls : ascii → bool)                          (* [[cls]] *)
  | Many (cls : ascii → bool) (min : nat) (greedy : bool)
                                   (* [[cls]*], [[cls]+], [[cls]*?] *)
  | Capture (cls : ascii → bool).                     (* [([cls]+)] *)

(** A quantified class followed by the rest of the pattern, [k]. *)
Fixpoint many (cls : ascii → bool) (greedy : bool)
    (k : string → option (string * nat)) (min : nat) (s : string)
    : option (string * nat) :=
  let stop := match min with 0 => k s | S _ => None end in
  let more :=
    match s with
    | String c s' =>
        if cls c then '(g, n) ← many cls greedy k (pred min) s'; Some (g, S n)
        else None
    | EmptyString => None
    end in
  if greedy then match more with Some r => Some r | None => stop end
  else match stop with Some r => Some r | None => more end.

(** The group [([cls]+)] followed by [k]: what it takes is group 1. *)
Fixpoint capture (cls : ascii → bool) (k : string → option (string * nat))
    (min : nat) (s : string) : option (string * nat) :=
  let stop := match min with
              | 0 => '(_, n) ← k s; Some ("", n)
              | S _ => None
              end in
  let more :=
    match s with
    | String c s' =>
        if cls c
        then '(g, n) ← capture cls k (pred min) s'; Some (String c g, S n)
        else None
    | EmptyString => None
    end in
  match more with Some r => Some r | None => stop end.

(** Group 1 and the length of the match of [items] at the start of [s]. *)
Fixpoint match_items (items : list item) : string → option (string * nat) :=
  match items with
  | [] => λ _, Some ("", 0)
  | Lit l :: rest => λ s,
      if Str.startswith l s then
        '(g, n) ← match_items rest (Str.drop (String.length l) s);
        Some (g, String.length l + n)
      else None
  | One cls :: rest => λ s,
      match s with
      | String c s' =>
          if cls c then '(g, n) ← match_items rest s'; Some (g, S n)
          else None
      | EmptyString => None
      end
  | Many cls min greedy :: rest => many cls greedy (match_items rest) min
  | Capture cls :: rest => capture cls (match_items rest) 1
  end.

Definition any_but_newline (c : ascii) : bool :=
  negb (bool_decide (c = Re.newline)).

(** The class of the two quote characters, written [q] below: the
    apostrophe and the double quote (character 34). *)
Definition is_quote (c : ascii) : bool :=
  bool_decide (c = "'"%char) || bool_decide (c = "034"%char).

(** the class [[^q]] *)
Definition not_quote (c : ascii) : bool := negb (is_quote c).

(** [import\s+.*?\s+from\s+[q]([^q]+)[q]] *)
Definition import_from_pattern : list item :=
  [ Lit "import"; Many Re.is_space 1 true; Many any_but_newline 0 false;
    Many Re.is_space 1 true; Lit "from"; Many Re.is_space 1 true;
    One is_quote; Capture not_quote; One is_quote ].

(** [import\s*\([q]([^q]+)[q]\)] and [require\s*\([q]([^q]+)[q]\)] *)
Definition call_pattern (keyword : string) : list item :=
  [ Lit keyword; Many Re.is_space 0 true; Lit "("; One is_quote;
    Capture not_quote; One is_quote; Lit ")" ].

Definition js_ts_patterns : list (list item) :=
  [ import_from_pattern; call_pattern "import"; call_pattern "require" ].

(** Group 1 of every match, pattern by pattern: the raw paths in the
    order in which [extract_imports_js_ts] resolves them. *)
Definition js_ts_matches (content : string) : list string :=
  flat_map (λ pattern,
      (Re.finditer (λ _, match_items pattern) content).*2)
    js_ts_patterns.

(** * Vocabulary of the properties

    The predicates the statements below are written with, the devices
    of their proofs, and the concrete inputs of the examples. *)

(** ** The resolver *)

(** The entry that a path names, found the way a POSIX file system
    without symbolic links finds it: from the root, segment by segment,
    each segment looked up in a directory; [..] leads to the parent, [.]
    and an empty segment stay.  [current] holds the names from the root
    down; the root is a directory. *)
Definition is_dir (dirs : list string) (current : list string) : bool :=
  bool_decide (current = [])
  || bool_decide ("/" +:+ Str.join "/" current ∈ dirs).

Fixpoint walk_segments (dirs : list string) (current segments : list string)
    : option (list string) :=
  match segments with
  | [] => Some current
  | segment :: rest =>
      if is_dir dirs current then
        walk_segments dirs
          (if bool_decide (segment = "" ∨ segment = ".") then current
           else if bool_decide (segment = "..") then removelast current
           else current ++ [segment])
          rest
      else None
  end.

(** [None] when a segment is looked up in what is no directory; the
    empty path names nothing.  A relative path starts from [cwd]. *)
Definition entry_of (dirs : list string) (cwd p : string) : option string :=
  if bool_decide (p = "") then None
  else
    current ← walk_segments dirs []
                (Str.split "/" (if Path.isabs p then p else cwd +:+ "/" +:+ p));
    Some ("/" +:+ Str.join "/" current).

(** A concrete project tree for the examples: [files] with their text,
    [others] that exist but are not read, and directories. *)
Definition files_of (files : list (string * string)) (others dirs : list string)
    : OS :=
  {| cwd := "/work";
     path_exists := λ p,
       match entry_of dirs "/work" p with
       | Some entry =>
           bool_decide (entry ∈ "/" :: files.*1 ++ others ++ dirs)
       | None => false
       end;
     isfile := λ p,
       match entry_of dirs "/work" p with
       | Some entry => bool_decide (entry ∈ files.*1 ++ others)
       | None => false
       end;
     read_text := λ p, entry ← entry_of dirs "/work" p; Dict.get files entry |}.

Definition proj : OS :=
  files_of []
    ["/proj/a/b/c.ts"; "/proj/a/d.ts"; "/proj/a/b/e.tsx";
     "/proj/x/y/index.js"; "/proj/a/y.ts"]
    ["/proj"; "/proj/a"; "/proj/a/b"; "/proj/a/x"; "/proj/x"; "/proj/x/y"].


(** [k] leading [../] segments in front of [rest]. *)
Fixpoint dotdots (k : nat) (rest : string) : string :=
  match k with
  | 0 => rest
  | S k' => "../" +:+ dotdots k' rest
  end.

(** The scan of the working directory itself, [dirpath = "."]: files are
    named [./c.ts], their directory is [.], and its [dirname] is empty. *)
Definition flat_proj : OS :=
  files_of [] ["/work/c.ts"; "/work/d.ts"; "/d.ts"] ["/"; "/work"].

(** ** The Python extractor *)

Fixpoint all_of (cls : ascii → bool) (s : string) : bool :=
  match s with
  | EmptyString => true
  | String c s' => cls c && all_of cls s'
  end.

(** A non-empty run of characters of one class. *)
Definition run_of (cls : ascii → bool) (s : string) : Prop :=
  s ≠ "" ∧ all_of cls s = true.

(** [from <dotted.path> import] at the start of [s], with [g] the path *)
Definition from_shape (s g : string) : Prop :=
  ∃ ws1 ws2 tail,
    s = "from" +:+ ws1 +:+ g +:+ ws2 +:+ "import" +:+ tail ∧
    run_of Re.is_space ws1 ∧ run_of Re.is_dotted g ∧ run_of Re.is_space ws2.

(** [import <dotted.path>] at the start of [s], with [g] the path *)
Definition import_shape (s g : string) : Prop :=
  ∃ ws tail,
    s = "import" +:+ ws +:+ g +:+ tail ∧
    run_of Re.is_space ws ∧ run_of Re.is_dotted g.

(** Position [pos] of [content] begins a line. *)
Definition line_start (content : string) (pos : nat) : Prop :=
  match pos with
  | 0 => True
  | S k => String.get k content = Some Re.newline
  end.

Fixpoint drop_blanks (l : list ascii) : list ascii :=
  match l with
  | c :: l' =>
      if bool_decide (c = " "%char) || bool_decide (c = "009"%char)
      then drop_blanks l' else l
  | [] => []
  end.

(** Position [pos] begins a statement: only blanks separate it from the
    start of the text, from the previous line break or from a [;]. *)
Definition statement_start (content : string) (pos : nat) : bool :=
  match drop_blanks (reverse (take pos (String.list_ascii_of_string content))) with
  | [] => true
  | c :: _ => bool_decide (c = Re.newline) || bool_decide (c = ";"%char)
  end.

(** The extractor restricted to the occurrences at statement start. *)
Definition extract_at_statement_start (os : OS)
    (content filepath base_dir : string) : result (list string) :=
  let at_start := filter (λ m, statement_start content m.1 = true) in
  imports ← resolve_matches os filepath base_dir
              (at_start (Re.finditer Re.match_from content)) [];
  resolve_matches os filepath base_dir
    (at_start (Re.finditer Re.match_import content)) imports.

(** A project with a module [utils.ts], and a Python file that mentions
    an import in a comment. *)
Definition mixed_proj : OS :=
  files_of [] ["/proj/utils.ts"; "/proj/tool.py"] ["/proj"].

Definition commented_import : string := "x = 1  # from utils import helper".

(** Whether offset [k] of [s] begins a line, when [bol] tells it of
    offset [0]. *)
Definition bol_at (bol : bool) (s : string) (k : nat) : bool :=
  match k with
  | 0 => bol
  | S k' => bool_decide (String.get k' s = Some Re.newline)
  end.

Definition two_imports : string :=
  "from utils import helper" +:+ String Re.newline "import utils".

(** ** The layer violation detector *)

(** [pattern] occurs somewhere in [p]. *)
Definition occurs (pattern p : string) : Prop :=
  ∃ pre post, p = pre +:+ pattern +:+ post.

(** One of the patterns of a layer occurs in [p]. *)
Definition layer_matches (patterns : list string) (p : string) : Prop :=
  ∃ pattern, pattern ∈ patterns ∧ occurs pattern p.

(** The classification the layers' description gives: the patterns of the
    layers are tried layer by layer, and the first layer one of whose
    patterns occurs in the path wins. *)
Definition classified_in (table : list (string * list string))
    (p layer : string) : Prop :=
  ∃ before patterns after,
    table = before ++ (layer, patterns) :: after ∧
    layer_matches patterns p ∧
    ∀ entry, entry ∈ before → ¬ layer_matches entry.2 p.

Definition classified (p layer : string) : Prop :=
  classified_in layer_patterns p layer.

(** The allowed-dependency table: source layer, permitted target layer. *)
Definition permitted (source target : string) : Prop :=
  (source = "presentation" ∧ (target = "application" ∨ target = "domain")) ∨
  (source = "application" ∧ target = "domain") ∨
  (source = "infrastructure" ∧ target = "domain").

(** ** Counting importers *)

(** How many times [p] is listed among the imports of the modules. *)
Definition times_imported (p : string) (ms : list (string * ModuleInfo)) : nat :=
  sum_list_with (λ info, length (filter (λ imp, imp = p) (imports info)))
    (Dict.values ms).

(** The modules of the map whose imports contain [p]. *)
Definition importers (p : string) (ms : list (string * ModuleInfo))
    : list ModuleInfo :=
  filter (λ info, p ∈ imports info) (Dict.values ms).

(** ** The graph builder *)

(** What the first pass guarantees of every entry of the module map. *)
Definition scanned_entry (p : string) (info : ModuleInfo) : Prop :=
  path info = p ∧ NoDup (imports info) ∧
  import_count info = length (imports info).

Definition scanned (ms : list (string * ModuleInfo)) : Prop :=
  NoDup (Dict.keys ms) ∧ ∀ p info, (p, info) ∈ ms → scanned_entry p info.

(** What the builder guarantees of the finished module map. *)
Definition built (ms : list (string * ModuleInfo)) : Prop :=
  NoDup (Dict.keys ms) ∧
  ∀ p info, (p, info) ∈ ms →
    scanned_entry p info ∧
    imported_by_count info = times_imported p ms ∧
    imported_by_count info = length (importers p ms).

(** ** The coupling analyzer *)

(** The condition under which a module is reported. *)
Definition flagged (incoming outgoing : nat) : Prop :=
  incoming + outgoing > TOTAL_COUPLING_THRESHOLD ∨
  (incoming > HIGH_COUPLING_THRESHOLD ∧ outgoing > HIGH_COUPLING_THRESHOLD).

(** A module with eleven imports that no module imports: its total is 11,
    so it is an issue, and it is no hub. *)
Definition busy_module : list (string * ModuleInfo) :=
  [ ("app/main.py",
     {| path := "app/main.py";
        imports := ["a"; "b"; "c"; "d"; "e"; "f"; "g"; "h"; "i"; "j"; "k"];
        exports := []; import_count := 11; imported_by_count := 0 |}) ].

(** ** The order of the report *)

Definition total_ge (x y : CouplingIssue) : Prop := total y ≤ total x.

(** The order the claim describes: total descending, equal totals by
    ascending path. *)
Definition by_total_then_path (x y : CouplingIssue) : Prop :=
  total x > total y ∨ (total x = total y ∧ String.le (module x) (module y)).

Global Instance by_total_then_path_dec : RelDecision by_total_then_path.
Proof. intros x y. unfold by_total_then_path. apply _. Defined.

Definition eleven : list string :=
  ["a"; "b"; "c"; "d"; "e"; "f"; "g"; "h"; "i"; "j"; "k"].

Definition module_with (p : string) (imps : list string) : string * ModuleInfo :=
  (p, {| path := p; imports := imps; exports := [];
         import_count := length imps; imported_by_count := 0 |}).

(** Two maps with the same two modules, entered in either order. *)
Definition tie_ba : list (string * ModuleInfo) :=
  [module_with "src/b.py" eleven; module_with "src/a.py" eleven].
Definition tie_ab : list (string * ModuleInfo) :=
  [module_with "src/a.py" eleven; module_with "src/b.py" eleven].

(** ** The cycle detector *)

Definition internal_edge (ms : list (string * ModuleInfo)) (u v : string) : bool :=
  match Dict.get ms u with
  | Some info => bool_decide (v ∈ imports info) && Dict.mem v ms
  | None => false
  end.

(** [w] is a closed walk over internal edges: every node imports the
    next, the last one the first. *)
Definition closed_walk (ms : list (string * ModuleInfo)) (w : list string) : bool :=
  match w with
  | [] => false
  | first :: rest =>
      forallb (λ e, internal_edge ms e.1 e.2) (zip w (rest ++ [first]))
  end.

(** The keys of the module map, as a set. *)
Definition key_set (ms : list (string * ModuleInfo)) : gset string :=
  list_to_set (Dict.keys ms).

(** Consecutive nodes of [path] are joined by internal edges. *)
Definition chain (ms : list (string * ModuleInfo)) (path : list string) : Prop :=
  ∀ i u v, path !! i = Some u → path !! S i = Some v →
    internal_edge ms u v = true.

(** What holds of every cycle the search emits: no node twice, only
    modules of the map, and a closed walk over internal edges. *)
Definition emitted_ok (ms : list (string * ModuleInfo))
    (c : CircularDependency) : Prop :=
  NoDup (cycle c) ∧ Forall (λ m, m ∈ Dict.keys ms) (cycle c) ∧
  closed_walk ms (cycle c) = true.

(** The explored modules that import themselves have their cycle. *)
Definition self_done (ms : list (string * ModuleInfo)) (st : DfsState) : Prop :=
  ∀ m, m ∈ visited st → m ∉ rec_stack st → internal_edge ms m m = true →
    {| cycle := [m] |} ∈ cycles st.

(** The invariant of the search: [rec_stack] is the set of the nodes of
    [path], which is a chain of internal edges between modules of the
    map and holds no node twice. *)
Definition dfs_inv (ms : list (string * ModuleInfo)) (path : list string)
    (st : DfsState) : Prop :=
  rec_stack st = list_to_set path ∧ NoDup path ∧
  Forall (λ m, m ∈ Dict.keys ms) path ∧ chain ms path ∧
  Forall (emitted_ok ms) (cycles st) ∧ self_done ms st.

(** How the call [dfs(node, path)] leaves the shared state. *)
Definition dfs_post (ms : list (string * ModuleInfo)) (node : string)
    (path : list string) (st st' : DfsState) : Prop :=
  rec_stack st' = rec_stack st ∧ visited st ⊆ visited st' ∧
  Forall (emitted_ok ms) (cycles st') ∧ self_done ms st' ∧
  cycles st ⊆ cycles st' ∧
  (node ∈ rec_stack st ∨ node ∈ visited st') ∧
  (∀ i, node ∈ rec_stack st → index_of node path = Some i →
     {| cycle := drop i path |} ∈ cycles st').

(** ** Deduplication *)

(** Two cycles have the same set of member paths. *)
Definition same_members (c d : CircularDependency) : Prop :=
  list_to_set (cycle c) =@{gset string} list_to_set (cycle d).

(** The deduplication loop, by recursion on the cycles still to see. *)
Fixpoint dedup_from (seen : gset (list string)) (cs : list CircularDependency)
    : list CircularDependency :=
  match cs with
  | [] => []
  | c :: cs' =>
      if decide (normalized c ∈ seen) then dedup_from seen cs'
      else c :: dedup_from ({[ normalized c ]} ∪ seen) cs'
  end.

(** ** Imports that are not modules of the map *)

Definition keep_imports (K : list string) (info : ModuleInfo) : ModuleInfo :=
  {| path := path info;
     imports := filter (λ imp, imp ∈ K) (imports info);
     exports := exports info;
     import_count := import_count info;
     imported_by_count := imported_by_count info |}.

Definition restrict_imports (K : list string) (ms : list (string * ModuleInfo))
    : list (string * ModuleInfo) :=
  (λ '(p, info), (p, keep_imports K info)) <$> ms.

(** The map with every import that is not one of its keys removed. *)
Definition internal_only (ms : list (string * ModuleInfo))
    : list (string * ModuleInfo) :=
  restrict_imports (Dict.keys ms) ms.

(** A Python project whose entry point imports a script that has no
    extension, and so is no module of the map. *)
Definition scripts_proj : OS :=
  files_of
    [ ("/p/main.py", "import scripts.deploy" +:+ String Re.newline "") ]
    [ "/p/scripts/deploy" ] [ "/p"; "/p/scripts" ].

Definition scripts_walk : list (string * list string) :=
  [ ("/p", ["main.py"; "README.md"]); ("/p/scripts", ["deploy"]) ].

(** A Python project whose entry point imports eleven tools that have no
    extension: none of them is a module of the map, and the entry point
    is a coupling issue by its imports alone. *)
Definition tools_text : string :=
  Str.join line_break ((λ tool, "from tools." +:+ tool +:+ " import run") <$> eleven).

Definition tools_proj : OS :=
  files_of [ ("/p/main.py", tools_text) ]
    ((λ tool, "/p/tools/" +:+ tool) <$> eleven) [ "/p"; "/p/tools" ].

Definition tools_walk : list (string * list string) :=
  [ ("/p", ["main.py"]); ("/p/tools", eleven) ].

Definition tools_main : ModuleInfo :=
  {| path := "main.py";
     imports := list_set ((λ tool, "tools/" +:+ tool) <$> eleven);
     exports := []; import_count := 11; imported_by_count := 0 |}.

(** ** Cycles through a node explored earlier *)

(** Some reported cycle has the nodes of [w] as member set. *)
Definition reported_as_cycle (ms : list (string * ModuleInfo)) (w : list string)
    : bool :=
  match find_circular_dependencies ms with
  | Ok reported =>
      existsb (λ c, bool_decide
                      (list_to_set (cycle c) =@{gset string} list_to_set w))
        reported
  | _ => false
  end.

(** Three modules with the cycles [a → b → c → a] and [a → c → a]; the
    imports of [a] in either order. *)
Definition triangle : list (string * ModuleInfo) :=
  [ module_with "src/a.ts" ["src/b.ts"; "src/c.ts"];
    module_with "src/b.ts" ["src/c.ts"];
    module_with "src/c.ts" ["src/a.ts"] ].

Definition triangle' : list (string * ModuleInfo) :=
  [ module_with "src/a.ts" ["src/c.ts"; "src/b.ts"];
    module_with "src/b.ts" ["src/c.ts"];
    module_with "src/c.ts" ["src/a.ts"] ].

(** Three modules each of which imports the other two, with the imports
    and the modules in every order: 48 module maps of one graph. *)
Definition mutual_imports : list (list (string * ModuleInfo)) :=
  ia ← permutations ["src/b.ts"; "src/c.ts"];
  ib ← permutations ["src/a.ts"; "src/c.ts"];
  ic ← permutations ["src/a.ts"; "src/b.ts"];
  permutations [ module_with "src/a.ts" ia; module_with "src/b.ts" ib;
                 module_with "src/c.ts" ic ].

Definition two_cycles : list (list string) :=
  [ ["src/a.ts"; "src/b.ts"]; ["src/b.ts"; "src/c.ts"];
    ["src/a.ts"; "src/c.ts"] ].

(** ** Further properties: a graph without cycles *)

(** [order] lists the explored modules that are off the recursion stack,
    every one of them after all the modules it imports. *)
Definition topo_order (ms : list (string * ModuleInfo)) (st : DfsState)
    (order : list string) : Prop :=
  (∀ u, u ∈ order ↔ u ∈ visited st ∧ u ∉ rec_stack st) ∧
  ∀ i u v, order !! i = Some u → internal_edge ms u v = true →
    ∃ j, j < i ∧ order !! j = Some v.

(** As long as no cycle has been emitted, the explored modules can be
    put in such an order. *)
Definition topo (ms : list (string * ModuleInfo)) (st : DfsState) : Prop :=
  cycles st = [] → ∃ order, topo_order ms st order.

(** Every occurrence of [u] in [order] has an occurrence of [v] before it. *)
Definition before_in (order : list string) (v u : string) : Prop :=
  ∀ i, order !! i = Some u → ∃ j, j < i ∧ order !! j = Some v.

(** ** Further properties: paths and layers *)

(** How many times [c] occurs in [s]. *)
Fixpoint count_char (c : ascii) (s : string) : nat :=
  match s with
  | EmptyString => 0
  | String x s' => (if decide (x = c) then 1 else 0) + count_char c s'
  end.

(** A module that imports itself. *)
Definition self_importer : list (string * ModuleInfo) :=
  [ module_with "pkg/a.py" ["pkg/a.py"; "pkg/b.py"] ].

(** A domain module that imports a view. *)
Definition domain_imports_view : list (string * ModuleInfo) :=
  [ module_with "src/domain/user.ts" ["src/views/user.tsx"] ].

(** ** Further properties: the report *)

(** [p] names a file that the scan reads: a file of the walk whose name
    ends in one of the extensions, that can be opened, and whose path
    relative to [base_dir] is [p]. *)
Definition module_file (os : OS) (base_dir : string)
    (walk : list (string * list string)) (p : string) : Prop :=
  ∃ root files filename,
    (root, files) ∈ walk ∧ filename ∈ files ∧
    existsb (λ ext, Str.endswith ext filename) extensions = true ∧
    is_Some (read_text os (Path.join root filename)) ∧
    normalize_path os (Path.join root filename) base_dir = Ok p.

(** The imports of a module that are modules of the map. *)
Definition internal_imports (ms : list (string * ModuleInfo))
    (info : ModuleInfo) : list string :=
  filter (λ imp, imp ∈ Dict.keys ms) (imports info).

(** ** Further properties: the diagram *)

(** The characters that [safe_name] maps to [_]. *)
Definition is_separator (c : ascii) : bool :=
  bool_decide (c = "/"%char) || bool_decide (c = "."%char)
  || bool_decide (c = "-"%char) || bool_decide (c = "_"%char).

(** [p] and [q] differ at most where both hold a separator. *)
Fixpoint same_up_to_separators (p q : string) : Prop :=
  match p, q with
  | EmptyString, EmptyString => True
  | String a p', String b q' =>
      (a = b ∨ (is_separator a = true ∧ is_separator b = true))
      ∧ same_up_to_separators p' q'
  | _, _ => False
  end.

(** The key by which [generate_mermaid_graph] ranks the modules. *)
Definition connections (info : ModuleInfo) : nat :=
  import_count info + imported_by_count info.

Definition key_ge {A} (key : A → nat) (x y : A) : Prop := key y ≤ key x.

(** ** Further properties: relative paths *)

(** [p] is no absolute path. *)
Definition relative (p : string) : Prop := Str.startswith "/" p = false.

(** Whatever layer [p] has, it has by a directory below its first
    segment: the pattern that classifies it does not begin the path. *)
Definition classified_below_top (p : string) : Prop :=
  ∀ layer, get_layer p = Some layer →
    ∃ patterns pattern pre post,
      (layer, patterns) ∈ layer_patterns ∧ pattern ∈ patterns ∧
      p = pre +:+ pattern +:+ post ∧ pre ≠ "".

(** ** Further properties: the JavaScript and TypeScript extractor *)

(** What a text matched by a sequence of items looks like: [s] begins
    with one text for each item, in their order, and [g] is the text of
    the group. *)
Fixpoint denotes (items : list item) (s g : string) : Prop :=
  match items with
  | [] => g = ""
  | Lit l :: rest => ∃ t, s = l +:+ t ∧ denotes rest t g
  | One cls :: rest =>
      ∃ c t, s = String c t ∧ cls c = true ∧ denotes rest t g
  | Many cls min _ :: rest =>
      ∃ run t, s = run +:+ t ∧ all_of cls run = true ∧
               min ≤ String.length run ∧ denotes rest t g
  | Capture cls :: rest =>
      ∃ t g', s = g +:+ t ∧ run_of cls g ∧ denotes rest t g'
  end.

(** [import <clause> from <quoted path>] at the start of [s], with [g]
    the path: the clause [mid] holds no line break. *)
Definition import_from_shape (s g : string) : Prop :=
  ∃ ws1 mid ws2 ws3 q q' tail,
    s = "import" +:+ ws1 +:+ mid +:+ ws2 +:+ "from" +:+ ws3
        +:+ String q (g +:+ String q' tail) ∧
    run_of Re.is_space ws1 ∧ all_of any_but_newline mid = true ∧
    run_of Re.is_space ws2 ∧ run_of Re.is_space ws3 ∧
    is_quote q = true ∧ is_quote q' = true ∧ run_of not_quote g.

(** [keyword(<quoted path>)] at the start of [s], with [g] the path *)
Definition call_shape (keyword s g : string) : Prop :=
  ∃ ws q q' tail,
    s = keyword +:+ ws +:+ "(" +:+ String q (g +:+ String q' (")" +:+ tail)) ∧
    all_of Re.is_space ws = true ∧
    is_quote q = true ∧ is_quote q' = true ∧ run_of not_quote g.

(** A named import on one line, and the same import with its names on
    lines of their own. *)
Definition one_line_import : string := "import { a, b } from './e'".
Definition multi_line_import : string :=
  "import {" +:+ line_break +:+ "  a," +:+ line_break +:+ "  b"
  +:+ line_break +:+ "} from './e'".

(** The characters of a binding name: no white space and no line break. *)
Definition is_name_char (c : ascii) : bool :=
  negb (Re.is_space c) && any_but_newline c.

(** [s] is empty or begins with a character outside [cls]. *)
Definition stops (cls : ascii → bool) (s : string) : Prop :=
  match s with
  | EmptyString => True
  | String c _ => cls c = false
  end.

(** [import <name> from '<path>'] followed by [tail]. *)
Definition default_import (name path tail : string) : string :=
  "import " +:+ name +:+ " from '" +:+ path +:+ "'" +:+ tail.

(** ** Further properties: the recursion limit *)

(** An outcome that is the [RecursionError] or a result for which [P]
    holds. *)
Definition fails_or_returns {A} (r : result A) (P : A → Prop) : Prop :=
  r = OutOfFuel ∨ ∃ a, r = Ok a ∧ P a.

(** [n] modules of which each imports the next: [m0], [m1], ... *)
Definition chain_name (i : nat) : string := "m" +:+ pretty i.

Definition chain_of (n : nat) : list (string * ModuleInfo) :=
  (λ i, module_with (chain_name i) [chain_name (S i)]) <$> seq 0 n.

(** * Properties *)

(** ** The resolver *)

Lemma relpath_raises_only_ValueError cwd p start :
  (∃ r, Path.relpath cwd p start = Ok r) ∨
  Path.relpath cwd p start = Raise ValueError.
Proof.
  unfold Path.relpath. case_bool_decide; [by right|left].
  destruct (_ ++ _); eauto.
Qed.

Lemma normalize_path_returns os p base_dir :
  ∃ r, normalize_path os p base_dir = Ok r.
Proof.
  unfold normalize_path.
  destruct (relpath_raises_only_ValueError (cwd os) p base_dir) as [[r ->]| ->];
    eauto.
Qed.

Lemma probe_returns os resolved base_dir exts :
  ∃ r, probe os resolved base_dir exts = Ok r.
Proof.
  induction exts as [|ext exts IH]; simpl; [eauto|].
  destruct (isfile os _); [|done].
  destruct (normalize_path_returns os (resolved +:+ ext) base_dir) as [r ->].
  simpl. eauto.
Qed.

Lemma resolve_import_returns os import_path current_file base_dir :
  ∃ r, resolve_import os import_path current_file base_dir = Ok r.
Proof.
  unfold resolve_import.
  destruct (resolved_candidate _ _ _ _); [apply probe_returns|eauto].
Qed.



(** The examples of rules 1 and 2: from [a/b/c.ts], [../d] resolves to
    [a/d] and [./e] to [a/b/e], and [@/x/y] resolves to [x/y] under the
    root, each with the first suffix that names a file. *)
Lemma resolve_import_examples :
  resolve_import proj "../d" "/proj/a/b/c.ts" "/proj" = Ok (Some "a/d.ts") ∧
  resolve_import proj "./e" "/proj/a/b/c.ts" "/proj" = Ok (Some "a/b/e.tsx") ∧
  resolve_import proj "@/x/y" "/proj/a/b/c.ts" "/proj"
    = Ok (Some "x/y/index.js").
Proof. by vm_compute. Qed.

Lemma candidate_dot_slash os rest current_file base_dir :
  resolved_candidate os ("./" +:+ rest) current_file base_dir
  = Some (Path.join (Path.dirname current_file) rest).
Proof. by destruct rest. Qed.

Lemma candidate_root_alias os rest current_file base_dir :
  resolved_candidate os ("@/" +:+ rest) current_file base_dir
  = Some (Path.join base_dir rest).
Proof. by destruct rest. Qed.

Lemma split_dotdot s : Str.split "/" ("../" +:+ s) = ".." :: Str.split "/" s.
Proof.
  change ("../" +:+ s) with (String "." (String "." (String "/" s))).
  cbn [Str.split]. rewrite !decide_False by done. by rewrite decide_True.
Qed.

Lemma split_dotdots k rest :
  Str.split "/" (dotdots k rest) = replicate k ".." ++ Str.split "/" rest.
Proof.
  induction k as [|k IH]; [done|].
  cbn [dotdots]. by rewrite split_dotdot, IH.
Qed.

Lemma split_nonempty sep s : Str.split sep s ≠ [].
Proof.
  destruct s as [|c s]; simpl; [done|].
  case_decide; [done|]. by destruct (Str.split sep s).
Qed.

Lemma join_split s : Str.join "/" (Str.split "/" s) = s.
Proof.
  unfold Str.join. induction s as [|c s IH]; [done|]. cbn [Str.split].
  pose proof (split_nonempty "/" s) as Hne.
  destruct (Str.split "/" s) as [|h t] eqn:E; [done|].
  case_decide as Hc.
  - subst c. by rewrite <-IH.
  - rewrite <-IH. by destruct t.
Qed.

Lemma filter_dotdots_eq k (l : list string) :
  ".." ∉ l → filter (λ p, p = "..") (replicate k ".." ++ l) = replicate k "..".
Proof.
  intros Hl. induction k as [|k IH]; cbn [replicate app].
  - induction l as [|x l IHl]; [done|].
    apply not_elem_of_cons in Hl as [??].
    rewrite filter_cons_False by done. by apply IHl.
  - by rewrite filter_cons_True, IH.
Qed.

Lemma filter_dotdots_ne k (l : list string) :
  ".." ∉ l → filter (λ p, p ≠ "..") (replicate k ".." ++ l) = l.
Proof.
  intros Hl. induction k as [|k IH]; cbn [replicate app].
  - induction l as [|x l IHl]; [done|].
    apply not_elem_of_cons in Hl as [??].
    rewrite filter_cons_True by done. f_equal. by apply IHl.
  - rewrite filter_cons_False by (by intros ?). apply IH.
Qed.

(** Rule 1 where it is met: when the only [..] segments of the raw path
    are its leading ones, each moves one directory up from the directory
    of the importing file, and the remainder is joined to the result. *)
Lemma candidate_leading_dotdots os k rest current_file base_dir :
  ".." ∉ Str.split "/" rest →
  resolved_candidate os (dotdots (S k) rest) current_file base_dir
  = Some (Path.join (Nat.iter (S k) Path.dirname (Path.dirname current_file))
            rest).
Proof.
  intros Hrest. unfold resolved_candidate.
  change (Str.startswith "." (dotdots (S k) rest)) with true.
  change (Str.startswith "./" (dotdots (S k) rest)) with false.
  change (Str.startswith "../" (dotdots (S k) rest))
    with (Str.startswith "" (dotdots k rest)).
  replace (Str.startswith "" (dotdots k rest)) with true
    by (by destruct (dotdots k rest)).
  cbv iota. unfold up_count, remaining. rewrite split_dotdots.
  rewrite filter_dotdots_eq, filter_dotdots_ne by done.
  by rewrite length_replicate, join_split.
Qed.

(** C5. A raw path with a [..] segment after its leading one: the code
    counts both segments, climbs two directories from [/proj/a/b] and
    probes [/proj/x/y]; one step up followed by the remainder [x/../y]
    names [/proj/a/x/../y], that is the existing file [a/y.ts]. *)
Theorem resolve_import_interior_dotdot :
  resolved_candidate proj "../x/../y" "/proj/a/b/c.ts" "/proj"
    = Some "/proj/x/y" ∧
  resolve_import proj "../x/../y" "/proj/a/b/c.ts" "/proj"
    = Ok (Some "x/y/index.js") ∧
  Path.join (Path.dirname (Path.dirname "/proj/a/b/c.ts")) "x/../y"
    = "/proj/a/x/../y" ∧
  probe proj "/proj/a/x/../y" "/proj" probe_extensions = Ok (Some "a/y.ts").
Proof. by vm_compute. Qed.

(** The climb is lexical: from [./c.ts] the raw path [../d] is probed as
    [d], the sibling [/work/d.ts], and not as [/d.ts] one directory up. *)
Lemma resolve_import_above_dot :
  resolved_candidate flat_proj "../d" "./c.ts" "/work" = Some "d" ∧
  resolve_import flat_proj "../d" "./c.ts" "/work" = Ok (Some "d.ts") ∧
  Path.abspath "/work" (Path.join (Path.dirname "./c.ts") "../d") = "/d".
Proof. by vm_compute. Qed.

(** ** The Python extractor *)

(** C9, as stated, fails: the [from] pattern is not anchored, so an
    occurrence in the middle of a line yields an import. *)
Lemma from_shape_matched_inside_a_line :
  Re.finditer Re.match_from commented_import = [(9, "utils")] ∧
  statement_start commented_import 9 = false ∧
  extract_imports_python mixed_proj commented_import "/proj/tool.py" "/proj"
    = Ok ["utils.ts"] ∧
  extract_at_statement_start mixed_proj commented_import "/proj/tool.py" "/proj"
    = Ok [] ∧
  extract_imports_python mixed_proj commented_import "/proj/tool.py" "/proj"
    ≠ extract_at_statement_start mixed_proj commented_import
        "/proj/tool.py" "/proj".
Proof. by vm_compute. Qed.

Lemma startswith_inv p s :
  Str.startswith p s = true → s = p +:+ Str.drop (String.length p) s.
Proof.
  unfold Str.startswith. revert s.
  induction p as [|a p IH]; intros [|b s]; simpl; try done.
  destruct (ascii_dec a b) as [->|]; [|done].
  intros H. change (String b s = String b (p +:+ Str.drop (String.length p) s)).
  f_equal. by apply IH.
Qed.

Lemma span_inv cls s run rest :
  Re.span cls s = (run, rest) → s = run +:+ rest ∧ all_of cls run = true.
Proof.
  revert run rest. induction s as [|c s IH]; simpl; intros run rest.
  - by intros [= <- <-].
  - destruct (cls c) eqn:Hc; [|by intros [= <- <-]].
    destruct (Re.span cls s) as [run' rest']. intros [= <- <-].
    destruct (IH _ _ eq_refl) as [-> Hall]. simpl. by rewrite Hc.
Qed.

Lemma nonempty_inv s : Re.nonempty s = true → s ≠ "".
Proof. by destruct s. Qed.

Lemma match_from_inv bol s g n :
  Re.match_from bol s = Some (g, n) → from_shape s g.
Proof.
  unfold Re.match_from.
  destruct (Str.startswith "from" s) eqn:Hfrom; [|done].
  destruct (Re.span Re.is_space (Str.drop 4 s)) as [ws1 r1] eqn:H1.
  destruct (Re.span Re.is_dotted r1) as [g' r2] eqn:H2.
  destruct (Re.span Re.is_space r2) as [ws2 r3] eqn:H3.
  destruct (_ && _) eqn:Hcond; [|done]. intros [= <- _].
  rewrite !andb_true_iff in Hcond.
  destruct Hcond as [[[Hn1 Hng] Hn2] Himport].
  apply span_inv in H1 as [E1 A1], H2 as [E2 A2], H3 as [E3 A3].
  exists ws1, ws2, (Str.drop 6 r3). split; [|by repeat split; auto using nonempty_inv].
  pose proof (startswith_inv _ _ Hfrom) as E0.
  pose proof (startswith_inv _ _ Himport) as E4.
  change (String.length "from") with 4 in E0.
  change (String.length "import") with 6 in E4.
  rewrite E0, E1, E2, E3. by rewrite <-E4.
Qed.

Lemma match_import_inv bol s g n :
  Re.match_import bol s = Some (g, n) → bol = true ∧ import_shape s g.
Proof.
  unfold Re.match_import.
  destruct (bol && _) eqn:Hcond; [|done].
  apply andb_true_iff in Hcond as [-> Himport].
  destruct (Re.span Re.is_space (Str.drop 6 s)) as [ws r1] eqn:H1.
  destruct (Re.span Re.is_dotted r1) as [g' r2] eqn:H2.
  destruct (_ && _) eqn:Hne; [|done]. intros [= <- _].
  apply andb_true_iff in Hne as [Hn1 Hng].
  apply span_inv in H1 as [E1 A1], H2 as [E2 A2].
  split; [done|]. exists ws, r2. split; [|by repeat split; auto using nonempty_inv].
  pose proof (startswith_inv _ _ Himport) as E0.
  change (String.length "import") with 6 in E0.
  by rewrite E0, E1, E2.
Qed.

(** Every item [finditer] yields is a match of the pattern at its
    position. *)
Lemma finditer_from_elem m bol p0 skip s pos g :
  (pos, g) ∈ Re.finditer_from m bol p0 skip s →
  ∃ k n, pos = p0 + k ∧ m (bol_at bol s k) (Str.drop k s) = Some (g, n).
Proof.
  revert bol p0 skip.
  induction s as [|c s IH]; intros bol p0 skip; simpl; [by intros ?%elem_of_nil|].
  assert (∀ skip',
    (pos, g) ∈ Re.finditer_from m (bool_decide (c = Re.newline)) (S p0) skip' s →
    ∃ k n, pos = p0 + k ∧
      m (bol_at bol (String c s) k) (Str.drop k (String c s)) = Some (g, n))
    as Hrest.
  { intros skip' (k & n & -> & Hm)%IH. exists (S k), n. split; [lia|].
    simpl. destruct k as [|k]; simpl in *; [|done].
    destruct (bool_decide (c = Re.newline)) eqn:Hc.
    - apply bool_decide_eq_true in Hc as ->. by rewrite bool_decide_true.
    - apply bool_decide_eq_false in Hc. rewrite bool_decide_false; [done|].
      by intros [= ->]. }
  destruct skip as [|skip]; [|by apply Hrest].
  destruct (m bol (String c s)) as [[g' n]|] eqn:Hm; [|by apply Hrest].
  intros [[= -> ->]|Hin]%elem_of_cons; [|by eapply Hrest].
  exists 0, n. split; [lia|done].
Qed.

Lemma finditer_elem m content pos g :
  (pos, g) ∈ Re.finditer m content →
  ∃ n, m (bol_at true content pos) (Str.drop pos content) = Some (g, n).
Proof. intros (k & n & -> & Hm)%finditer_from_elem. eauto. Qed.

Lemma bol_at_line_start content pos :
  bol_at true content pos = true → line_start content pos.
Proof. destruct pos; simpl; [done|]. by intros ?%bool_decide_eq_true. Qed.

(** Every path the resolving loop adds comes from one of its matches. *)
Lemma resolve_matches_elem os filepath base_dir matches acc imports r :
  resolve_matches os filepath base_dir matches acc = Ok imports →
  r ∈ imports →
  r ∈ acc ∨
  ∃ pos g, (pos, g) ∈ matches ∧
    resolve_import os (Str.replace "." "/" g) filepath base_dir = Ok (Some r).
Proof.
  unfold resolve_matches. revert acc.
  induction matches as [|[pos g] matches IH]; intros acc; simpl.
  - intros [= ->]. auto.
  - destruct (resolve_import os _ filepath base_dir) as [[r'|]| |] eqn:Hres;
      simpl; try done.
    + intros Hloop Hr. destruct (IH _ Hloop Hr) as [Hacc|(pos' & g' & ? & ?)].
      * case_bool_decide; [by left|].
        apply elem_of_app in Hacc as [?|Hr'%list_elem_of_singleton]; [by left|].
        subst r'.
        right. exists pos, g. split; [left|done].
      * right. exists pos', g'. split; [by right|done].
    + intros Hloop Hr. destruct (IH _ Hloop Hr) as [?|(pos' & g' & ? & ?)];
        [by left|].
      right. exists pos', g'. split; [by right|done].
Qed.

(** C9, amended.  Every import the Python extractor yields is the
    resolution of an occurrence of [from <dotted.path> import], wherever
    it stands in the text, or of an occurrence of [import <dotted.path>]
    at the start of a line. *)
Theorem python_imports_come_from_matches
    os content filepath base_dir imports r :
  extract_imports_python os content filepath base_dir = Ok imports →
  r ∈ imports →
  ∃ pos g,
    resolve_import os (Str.replace "." "/" g) filepath base_dir = Ok (Some r) ∧
    ((from_shape (Str.drop pos content) g ∧
      (pos, g) ∈ Re.finditer Re.match_from content) ∨
     (import_shape (Str.drop pos content) g ∧ line_start content pos ∧
      (pos, g) ∈ Re.finditer Re.match_import content)).
Proof.
  unfold extract_imports_python.
  destruct (resolve_matches os filepath base_dir
              (Re.finditer Re.match_from content) []) as [imports1| |] eqn:H1;
    simpl; try done.
  intros H2 Hr.
  destruct (resolve_matches_elem _ _ _ _ _ _ _ H2 Hr) as [Hr1|(pos & g & Hin & Hres)].
  - destruct (resolve_matches_elem _ _ _ _ _ _ _ H1 Hr1)
      as [?%elem_of_nil|(pos & g & Hin & Hres)]; [done|].
    exists pos, g. split; [done|left]. split; [|done].
    apply finditer_elem in Hin as [n Hm]. by eapply match_from_inv.
  - exists pos, g. split; [done|right].
    destruct (finditer_elem _ _ _ _ Hin) as [n Hm].
    pose proof (match_import_inv _ _ _ _ Hm) as [Hbol Hshape].
    auto using bol_at_line_start.
Qed.

Lemma python_imports_come_from_matches_witness :
  ∃ pos g,
    resolve_import mixed_proj (Str.replace "." "/" g) "/proj/tool.py" "/proj"
      = Ok (Some "utils.ts") ∧
    ((from_shape (Str.drop pos two_imports) g ∧
      (pos, g) ∈ Re.finditer Re.match_from two_imports) ∨
     (import_shape (Str.drop pos two_imports) g ∧ line_start two_imports pos ∧
      (pos, g) ∈ Re.finditer Re.match_import two_imports)).
Proof.
  apply (python_imports_come_from_matches mixed_proj two_imports
           "/proj/tool.py" "/proj" ["utils.ts"; "utils.ts"]).
  - reflexivity.
  - left.
Defined.

(** ** The layer violation detector *)

Lemma elem_of_flat_map {A B} (f : A → list B) (l : list A) (y : B) :
  y ∈ flat_map f l ↔ ∃ x, x ∈ l ∧ y ∈ f x.
Proof.
  rewrite list_elem_of_In, in_flat_map.
  by setoid_rewrite list_elem_of_In.
Qed.

Lemma prefix_app pattern post : String.prefix pattern (pattern +:+ post) = true.
Proof.
  induction pattern as [|a pattern IH]; simpl; [by destruct post|].
  by destruct (ascii_dec a a).
Qed.

Lemma contains_unfold pattern p :
  Str.contains pattern p =
  Str.startswith pattern p ||
  match p with EmptyString => false | String _ p' => Str.contains pattern p' end.
Proof. by destruct p. Qed.

Lemma contains_occurs pattern p : Str.contains pattern p = true ↔ occurs pattern p.
Proof.
  split.
  - induction p as [|c p IH]; rewrite contains_unfold.
    + rewrite orb_false_r. intros H%startswith_inv.
      by exists "", (Str.drop (String.length pattern) "").
    + intros [H%startswith_inv|H]%orb_true_iff.
      * by exists "", (Str.drop (String.length pattern) (String c p)).
      * destruct (IH H) as (pre & post & ->). by exists (String c pre), post.
  - intros (pre & post & ->). induction pre as [|c pre IH].
    + change ("" +:+ pattern +:+ post) with (pattern +:+ post).
      rewrite contains_unfold. unfold Str.startswith. by rewrite prefix_app.
    + change (String c pre +:+ pattern +:+ post)
        with (String c (pre +:+ pattern +:+ post)).
      rewrite contains_unfold. cbv iota. rewrite IH. apply orb_true_r.
Qed.

Lemma existsb_layer_matches patterns p :
  existsb (λ pattern, search pattern p) patterns = true ↔ layer_matches patterns p.
Proof.
  rewrite existsb_exists. unfold layer_matches, search.
  setoid_rewrite contains_occurs. by setoid_rewrite list_elem_of_In.
Qed.

Lemma get_layer_from_classified table p layer :
  get_layer_from table p = Some layer ↔ classified_in table p layer.
Proof.
  induction table as [|[l pats] table IH]; simpl.
  - split; [done|]. intros (before & ? & ? & E & _). by destruct before.
  - destruct (existsb _ pats) eqn:Hex.
    + apply existsb_layer_matches in Hex. split.
      * intros [= ->]. exists [], pats, table. split_and!; [done..|].
        by intros ? ?%elem_of_nil.
      * intros ([|[l' pats'] before] & patterns & after & E & Hm & Hfirst);
          simpl in E.
        { by injection E as -> _ _. }
        injection E as -> -> _. destruct (Hfirst (l', pats')); [left|done].
    + assert (¬ layer_matches pats p) as Hno.
      { rewrite <-existsb_layer_matches. by rewrite Hex. }
      rewrite IH. split.
      * intros (before & patterns & after & -> & Hm & Hfirst).
        exists ((l, pats) :: before), patterns, after. split_and!; [done..|].
        intros entry [->|?]%elem_of_cons; [done|by apply Hfirst].
      * intros ([|[l' pats'] before] & patterns & after & E & Hm & Hfirst);
          simpl in E.
        { injection E as -> -> _. done. }
        injection E as _ _ ->.
        exists before, patterns, after. split_and!; [done..|].
        intros entry ?. apply Hfirst. by right.
Qed.

Lemma get_layer_classified p layer :
  get_layer p = Some layer ↔ classified p layer.
Proof. apply get_layer_from_classified. Qed.

Lemma allowed_get_permitted source target :
  target ∈ allowed_get source ↔ permitted source target.
Proof.
  unfold allowed_get, permitted, allowed, Dict.get.
  destruct (decide ("presentation" = source)) as [<-|?];
    [|destruct (decide ("application" = source)) as [<-|?];
      [|destruct (decide ("domain" = source)) as [<-|?];
        [|destruct (decide ("infrastructure" = source)) as [<-|?]]]];
    simpl; rewrite ?elem_of_cons, ?elem_of_nil; intuition congruence.
Qed.

Lemma violations_of_elem p info s t label :
  (s, t, label) ∈ violations_of (p, info) ↔
  (s = p ∧ t ∈ imports info ∧
   ∃ source_layer target_layer,
     get_layer p = Some source_layer ∧ get_layer t = Some target_layer ∧
     (target_layer ∉ allowed_get source_layer) ∧ target_layer ≠ source_layer ∧
     label = source_layer +:+ arrow +:+ target_layer).
Proof.
  unfold violations_of. destruct (get_layer p) as [ls|].
  - rewrite elem_of_flat_map. split.
    + intros (imported & Himp & Hin).
      destruct (get_layer imported) as [lt|] eqn:Hlt; [|by apply elem_of_nil in Hin].
      destruct (_ && _) eqn:Hc; [|by apply elem_of_nil in Hin].
      apply list_elem_of_singleton in Hin as [= -> -> ->].
      apply andb_true_iff in Hc as [?%bool_decide_eq_true ?%bool_decide_eq_true].
      split_and!; [done..|]. by exists ls, lt.
    + intros (-> & Himp & ls' & lt & [= <-] & Hlt & Hna & Hne & ->).
      exists t. split; [done|]. rewrite Hlt.
      rewrite !bool_decide_true by done. simpl. by left.
  - split; [by intros ?%elem_of_nil|]. by intros (_ & _ & ? & ? & ? & _).
Qed.

Lemma detect_layer_violations_elem
    (ms : list (string * ModuleInfo)) (source target label : string) :
  (source, target, label) ∈ detect_layer_violations ms ↔
  ∃ info source_layer target_layer,
    (source, info) ∈ ms ∧ target ∈ imports info ∧
    get_layer source = Some source_layer ∧
    get_layer target = Some target_layer ∧
    (target_layer ∉ allowed_get source_layer) ∧
    target_layer ≠ source_layer ∧
    label = source_layer +:+ arrow +:+ target_layer.
Proof.
  unfold detect_layer_violations. rewrite elem_of_flat_map. split.
  - intros ([p info] & Hin & Hv). apply violations_of_elem in Hv
      as (-> & Himp & ls & lt & Hls & Hlt & Hna & Hne & ->).
    by exists info, ls, lt.
  - intros (info & ls & lt & Hin & Himp & Hls & Hlt & Hna & Hne & ->).
    exists (source, info). split; [done|]. apply violations_of_elem.
    split_and!; [done..|]. by exists ls, lt.
Qed.

(** C4. The triple [(source, target, "<sourceLayer> → <targetLayer>")] is
    reported exactly for the edges of the module map whose two ends are
    classified, the first layer with a matching pattern winning, into
    layers such that the target layer differs from the source layer and
    is not permitted to it. *)
Theorem layer_violations_characterized
    (ms : list (string * ModuleInfo)) (source target label : string) :
  (source, target, label) ∈ detect_layer_violations ms ↔
  ∃ info source_layer target_layer,
    (source, info) ∈ ms ∧ target ∈ imports info ∧
    classified source source_layer ∧ classified target target_layer ∧
    target_layer ≠ source_layer ∧ ¬ permitted source_layer target_layer ∧
    label = source_layer +:+ " → " +:+ target_layer.
Proof.
  rewrite detect_layer_violations_elem. split.
  - intros (info & ls & lt & Hin & Himp & Hls & Hlt & Hna & Hne & ->).
    exists info, ls, lt.
    rewrite <-!get_layer_classified, <-allowed_get_permitted. done.
  - intros (info & ls & lt & Hin & Himp & Hls & Hlt & Hne & Hna & ->).
    exists info, ls, lt.
    rewrite <-get_layer_classified in Hls, Hlt.
    rewrite <-allowed_get_permitted in Hna. done.
Qed.

(** Same-layer edges and edges with an unclassified end are never
    reported. *)
Corollary layer_violations_classified_and_distinct ms source target label :
  (source, target, label) ∈ detect_layer_violations ms →
  is_Some (get_layer source) ∧ is_Some (get_layer target) ∧
  get_layer source ≠ get_layer target.
Proof.
  intros (info & ls & lt & _ & _ & Hls & Hlt & _ & Hne & _)
           %detect_layer_violations_elem.
  rewrite Hls, Hlt. split_and!; [by eexists..|]. by intros [= ->].
Qed.

(** ** Counting importers *)

Lemma incr_lookup imp counts p :
  default 0 (incr imp counts !! p)
  = default 0 (counts !! p) + (if decide (imp = p) then 1 else 0).
Proof.
  unfold incr. destruct (decide (imp = p)) as [->|].
  - rewrite lookup_insert_eq. simpl. lia.
  - rewrite lookup_insert_ne by done. lia.
Qed.

Lemma count_imports_lookup (keep : string → bool) imps counts p :
  default 0 (foldl (λ c imp, if keep imp then incr imp c else c) counts imps !! p)
  = default 0 (counts !! p)
    + (if keep p then length (filter (λ imp, imp = p) imps) else 0).
Proof.
  revert counts. induction imps as [|imp imps IH]; intros counts; simpl.
  - destruct (keep p); lia.
  - rewrite IH, filter_cons. destruct (decide (imp = p)) as [->|Hne].
    + destruct (keep p); [|lia]. rewrite incr_lookup, decide_True by done.
      simpl. lia.
    + destruct (keep imp); [|done]. rewrite incr_lookup, decide_False by done.
      lia.
Qed.

Lemma count_modules_lookup (keep : string → bool) infos counts p :
  default 0 (foldl (λ c info,
                foldl (λ c imp, if keep imp then incr imp c else c)
                  c (imports info)) counts infos !! p)
  = default 0 (counts !! p)
    + (if keep p
       then sum_list_with
              (λ info, length (filter (λ imp, imp = p) (imports info))) infos
       else 0).
Proof.
  revert counts. induction infos as [|info infos IH]; intros counts; simpl.
  - destruct (keep p); lia.
  - rewrite IH, count_imports_lookup. destruct (keep p); lia.
Qed.

Lemma count_imported_by_lookup ms p :
  default 0 (count_imported_by ms !! p) = times_imported p ms.
Proof.
  unfold count_imported_by, times_imported.
  by rewrite (count_modules_lookup (λ _, true)).
Qed.

Lemma count_internal_lookup ms p :
  p ∈ Dict.keys ms →
  default 0 (count_internal ms !! p) = times_imported p ms.
Proof.
  intros Hp. unfold count_internal, times_imported.
  rewrite (count_modules_lookup (λ imp, Dict.mem imp ms)).
  unfold Dict.mem. by rewrite bool_decide_true.
Qed.

Lemma count_NoDup (p : string) (imps : list string) :
  NoDup imps →
  length (filter (λ imp, imp = p) imps) = if decide (p ∈ imps) then 1 else 0.
Proof.
  induction 1 as [|imp imps Hnotin _ IH]; [done|].
  rewrite filter_cons. destruct (decide (imp = p)) as [->|Hne]; simpl.
  - rewrite decide_True by left. rewrite IH, decide_False; done.
  - rewrite IH. destruct (decide (p ∈ imps)).
    + rewrite decide_True; [done|by right].
    + rewrite decide_False; [done|]. by intros [->|?]%elem_of_cons.
Qed.

(** With imports free of repetitions, the count is the number of
    importers. *)
Lemma times_imported_importers p ms :
  (∀ info, info ∈ Dict.values ms → NoDup (imports info)) →
  times_imported p ms = length (importers p ms).
Proof.
  unfold times_imported, importers.
  induction (Dict.values ms) as [|info infos IH]; intros Hnd; [done|].
  simpl. rewrite filter_cons, count_NoDup by (apply Hnd; left).
  rewrite IH by (intros; apply Hnd; by right).
  by destruct (decide (p ∈ imports info)).
Qed.

(** ** The graph builder *)

(** A loop whose body always returns, and keeps [P], returns with [P]. *)
Lemma for_each_inv {A S} (P : S → Prop) (body : S → A → result S) xs st :
  P st →
  (∀ st x, x ∈ xs → P st → ∃ st', body st x = Ok st' ∧ P st') →
  ∃ st', for_each body xs st = Ok st' ∧ P st'.
Proof.
  revert st. induction xs as [|x xs IH]; intros st Hst Hbody; simpl; [eauto|].
  destruct (Hbody st x) as (st' & -> & Hst'); [left|done|]. simpl.
  apply IH; [done|]. intros ???. apply Hbody. by right.
Qed.

Lemma dict_set_elem {V} (k : string) (v : V) d p w :
  (p, w) ∈ Dict.set k v d → (p, w) = (k, v) ∨ (p, w) ∈ d.
Proof.
  induction d as [|[k' v'] d IH]; simpl.
  - rewrite list_elem_of_singleton. auto.
  - destruct (decide (k' = k)) as [->|]; rewrite !elem_of_cons; [tauto|].
    intros [?|[?|?]%IH]; tauto.
Qed.

Lemma dict_set_keys {V} (k : string) (v : V) d :
  Dict.keys (Dict.set k v d)
  = if decide (k ∈ Dict.keys d) then Dict.keys d else Dict.keys d ++ [k].
Proof.
  unfold Dict.keys. induction d as [|[k' v'] d IH]; csimpl; [done|].
  destruct (decide (k' = k)) as [->|Hne]; csimpl.
  - rewrite decide_True; [done|left].
  - rewrite IH. destruct (decide (k ∈ d.*1)).
    + rewrite decide_True; [done|by right].
    + rewrite decide_False; [done|]. by intros [->|?]%elem_of_cons.
Qed.

Lemma dict_set_NoDup {V} (k : string) (v : V) d :
  NoDup (Dict.keys d) → NoDup (Dict.keys (Dict.set k v d)).
Proof.
  intros Hnd. rewrite dict_set_keys. case_decide; [done|].
  apply NoDup_app. split_and!; [done| |apply NoDup_singleton].
  by intros x ? ->%list_elem_of_singleton.
Qed.

Lemma resolve_matches_returns os filepath base_dir matches acc :
  ∃ imports, resolve_matches os filepath base_dir matches acc = Ok imports.
Proof.
  unfold resolve_matches.
  destruct (for_each_inv (λ _, True)
    (λ imports '(_, module_path),
       resolved ← resolve_import os (Str.replace "." "/" module_path)
                    filepath base_dir;
       match resolved with
       | Some r => Ok (if bool_decide (r = "") then imports else imports ++ [r])
       | None => Ok imports
       end) matches acc) as (imports & -> & _); [done| |by eauto].
  intros st [pos g] _ _.
  destruct (resolve_import_returns os (Str.replace "." "/" g) filepath base_dir)
    as [[r|] ->]; simpl; eauto.
Qed.

Lemma extract_imports_python_returns os content filepath base_dir :
  ∃ imports, extract_imports_python os content filepath base_dir = Ok imports.
Proof.
  unfold extract_imports_python.
  destruct (resolve_matches_returns os filepath base_dir
              (Re.finditer Re.match_from content) []) as [imports ->].
  apply resolve_matches_returns.
Qed.

Section builder_facts.

Variable js_ts_import_paths : string → list string.
Variable extract_exports : string → list string.

Lemma extract_imports_js_ts_returns os content filepath base_dir :
  ∃ imports,
    extract_imports_js_ts js_ts_import_paths os content filepath base_dir
    = Ok imports.
Proof.
  unfold extract_imports_js_ts.
  destruct (for_each_inv (λ _, True)
    (λ imports import_path,
       resolved ← resolve_import os import_path filepath base_dir;
       match resolved with
       | Some r => Ok (if bool_decide (r = "") then imports else imports ++ [r])
       | None => Ok imports
       end) (js_ts_import_paths content) []) as (imports & -> & _);
    [done| |by eauto].
  intros st import_path _ _.
  destruct (resolve_import_returns os import_path filepath base_dir)
    as [[r|] ->]; simpl; eauto.
Qed.

Lemma analyze_file_returns os filepath base_dir :
  ∃ r, analyze_file js_ts_import_paths extract_exports os filepath base_dir
       = Ok r ∧
       ∀ info, r = Some info → scanned_entry (path info) info.
Proof.
  unfold analyze_file. destruct (read_text os filepath) as [content|].
  2:{ eexists. split; [done|]. by intros. }
  destruct (normalize_path_returns os filepath base_dir) as [rel_path ->].
  simpl.
  assert (∃ imports,
    (if bool_decide (Str.lower (suffix filepath)
                       ∈ [".js"; ".ts"; ".jsx"; ".tsx"; ".mjs"])
     then extract_imports_js_ts js_ts_import_paths os content filepath base_dir
     else if bool_decide (Str.lower (suffix filepath) = ".py")
     then extract_imports_python os content filepath base_dir
     else Ok []) = Ok imports) as [imports ->].
  { repeat case_bool_decide;
      eauto using extract_imports_js_ts_returns,
                  extract_imports_python_returns. }
  simpl. eexists. split; [done|]. intros info [= <-].
  split_and!; simpl; [done| |done]. unfold list_set. apply NoDup_elements.
Qed.

Lemma scan_file_inv os base_dir root ms filename :
  scanned ms →
  ∃ ms', scan_file js_ts_import_paths extract_exports os base_dir root
           ms filename = Ok ms' ∧ scanned ms'.
Proof.
  intros Hsc. unfold scan_file. destruct (existsb _ _); [|by eauto].
  destruct (analyze_file_returns os (Path.join root filename) base_dir)
    as ([info|] & -> & Hinfo); simpl; [|by eauto].
  destruct Hsc as [Hnd Hms].
  eexists. split; [done|]. split; [by apply dict_set_NoDup|].
  intros p info' [[= -> ->]|?]%dict_set_elem; [by apply Hinfo|by apply Hms].
Qed.

Lemma scan_inv os base_dir walk :
  ∃ ms, scan js_ts_import_paths extract_exports os base_dir walk = Ok ms ∧
        scanned ms.
Proof.
  unfold scan. apply for_each_inv.
  - split; [apply NoDup_nil_2|]. by intros ?? ?%elem_of_nil.
  - intros ms [root files] _ Hms.
    apply for_each_inv; [done|]. intros ms' filename _.
    apply scan_file_inv.
Qed.

End builder_facts.

Lemma update_imported_by_values ms :
  imports <$> Dict.values (update_imported_by ms) = imports <$> Dict.values ms.
Proof.
  unfold update_imported_by, Dict.values.
  generalize (count_imported_by ms). intros counts.
  induction ms as [|[p info] ms IH]; csimpl; [done|].
  by rewrite IH.
Qed.

Lemma update_imported_by_keys ms :
  Dict.keys (update_imported_by ms) = Dict.keys ms.
Proof.
  unfold update_imported_by, Dict.keys.
  generalize (count_imported_by ms). intros counts.
  induction ms as [|[p info] ms IH]; csimpl; [done|].
  by rewrite IH.
Qed.

Lemma times_imported_fmap p ms ms' :
  imports <$> Dict.values ms = imports <$> Dict.values ms' →
  times_imported p ms = times_imported p ms'.
Proof.
  unfold times_imported. generalize (Dict.values ms) (Dict.values ms').
  induction l as [|info l IH]; intros [|info' l']; simpl; try done.
  intros [= -> ?]. f_equal. by apply IH.
Qed.

Lemma importers_length_fmap p ms ms' :
  imports <$> Dict.values ms = imports <$> Dict.values ms' →
  length (importers p ms) = length (importers p ms').
Proof.
  unfold importers. generalize (Dict.values ms) (Dict.values ms').
  induction l as [|info l IH]; intros [|info' l']; simpl; try done.
  intros [= Himp ?]. rewrite !filter_cons, Himp.
  destruct (decide (p ∈ imports info')); simpl; auto.
Qed.

Lemma update_imported_by_elem ms p info' :
  (p, info') ∈ update_imported_by ms →
  ∃ info, (p, info) ∈ ms ∧
    info' = with_imported_by (times_imported p ms) info.
Proof.
  unfold update_imported_by.
  intros ([p0 info] & [= -> ->] & Hin)%list_elem_of_fmap.
  exists info. by rewrite count_imported_by_lookup.
Qed.

Lemma update_imported_by_built ms : scanned ms → built (update_imported_by ms).
Proof.
  intros [Hnd Hms]. split; [by rewrite update_imported_by_keys|].
  intros p info' (info & Hin & ->)%update_imported_by_elem.
  destruct (Hms p info Hin) as (Hp & Hnd' & Hc).
  split_and!; simpl; try done.
  - apply times_imported_fmap. by rewrite update_imported_by_values.
  - rewrite (importers_length_fmap p _ ms) by apply update_imported_by_values.
    apply times_imported_importers.
    intros info0 ([p0 i0] & -> & Hin0)%list_elem_of_fmap.
    by apply (Hms p0 i0).
Qed.

Lemma build_modules_built js_ts_import_paths extract_exports os dirpath walk :
  ∃ ms, build_modules js_ts_import_paths extract_exports os dirpath walk
        = Ok ms ∧ built ms.
Proof.
  unfold build_modules.
  destruct (scan_inv js_ts_import_paths extract_exports os
              (Path.abspath (cwd os) dirpath) walk) as (ms & -> & Hms).
  simpl. eauto using update_imported_by_built.
Qed.

(** C2. When the builder has finished, the [imported_by_count] of every
    module [M] of the map is the number of modules of the map, [M] itself
    included, whose deduplicated imports contain [M]'s path. *)
Theorem builder_imported_by_count
    js_ts_import_paths extract_exports os dirpath walk :
  ∃ ms,
    build_modules js_ts_import_paths extract_exports os dirpath walk = Ok ms ∧
    ∀ p M, (p, M) ∈ ms →
      path M = p ∧ NoDup (imports M) ∧
      imported_by_count M
      = length (filter (λ N, path M ∈ imports N) (Dict.values ms)).
Proof.
  destruct (build_modules_built js_ts_import_paths extract_exports
              os dirpath walk) as (ms & Hms & _ & Hall).
  exists ms. split; [done|]. intros p M HM.
  destruct (Hall p M HM) as ((Hp & Hnd & _) & _ & Hcount).
  by rewrite Hp.
Qed.

(** ** The coupling analyzer *)

Lemma insert_desc_Permutation x l : insert_desc x l ≡ₚ x :: l.
Proof.
  induction l as [|y l IH]; simpl; [done|].
  case_decide; [done|]. rewrite IH. apply Permutation_swap.
Qed.

Lemma sorted_by_total_desc_Permutation l : sorted_by_total_desc l ≡ₚ l.
Proof.
  induction l as [|x l IH]; simpl; [done|].
  by rewrite insert_desc_Permutation, IH.
Qed.

Lemma coupling_of_elem counts p info issue :
  issue ∈ coupling_of counts (p, info) ↔
  issue = {| module := p;
             incoming := default 0 (counts !! p);
             outgoing := import_count info;
             total := default 0 (counts !! p) + import_count info |} ∧
  flagged (default 0 (counts !! p)) (import_count info).
Proof.
  unfold coupling_of, flagged.
  destruct (_ || _) eqn:Hc.
  - rewrite list_elem_of_singleton.
    apply orb_true_iff in Hc as [?%bool_decide_eq_true|
      [?%bool_decide_eq_true ?%bool_decide_eq_true]%andb_true_iff]; tauto.
  - rewrite elem_of_nil.
    apply orb_false_iff in Hc as [?%bool_decide_eq_false Hc].
    apply andb_false_iff in Hc as [?%bool_decide_eq_false|?%bool_decide_eq_false];
      tauto.
Qed.

Lemma analyze_coupling_elem ms issue :
  issue ∈ analyze_coupling ms ↔
  ∃ info, (module issue, info) ∈ ms ∧
    incoming issue = times_imported (module issue) ms ∧
    outgoing issue = import_count info ∧
    total issue = incoming issue + outgoing issue ∧
    flagged (incoming issue) (outgoing issue).
Proof.
  unfold analyze_coupling.
  rewrite sorted_by_total_desc_Permutation, elem_of_flat_map. split.
  - intros ([p info] & Hin & [-> Hf]%coupling_of_elem). simpl.
    assert (p ∈ Dict.keys ms) as Hp.
    { apply list_elem_of_fmap. by exists (p, info). }
    rewrite count_internal_lookup in Hf |- * by done. eauto 10.
  - intros (info & Hin & Hi & Ho & Ht & Hf).
    assert (module issue ∈ Dict.keys ms) as Hp.
    { apply list_elem_of_fmap. by exists (module issue, info). }
    exists (module issue, info). split; [done|].
    apply coupling_of_elem. rewrite count_internal_lookup by done.
    rewrite <-Hi, <-Ho, <-Ht. by destruct issue.
Qed.

Lemma dict_entry_unique {V} (d : list (string * V)) k v1 v2 :
  NoDup (Dict.keys d) → (k, v1) ∈ d → (k, v2) ∈ d → v1 = v2.
Proof.
  unfold Dict.keys. induction d as [|[k' v'] d IH]; csimpl.
  - by intros _ ?%elem_of_nil.
  - intros [Hnotin Hnd]%NoDup_cons H1 H2.
    apply elem_of_cons in H1 as [H1|H1], H2 as [H2|H2].
    + congruence.
    + injection H1 as -> ->. destruct Hnotin.
      apply list_elem_of_fmap. by exists (k', v2).
    + injection H2 as -> ->. destruct Hnotin.
      apply list_elem_of_fmap. by exists (k', v1).
    + by apply IH.
Qed.

Lemma is_hub_spec issue :
  is_hub issue = true ↔
  incoming issue > HIGH_COUPLING_THRESHOLD ∧
  outgoing issue > HIGH_COUPLING_THRESHOLD.
Proof.
  unfold is_hub. by rewrite andb_true_iff, !bool_decide_eq_true.
Qed.

Lemma busy_module_issue :
  analyze_coupling busy_module
  = [ {| module := "app/main.py"; incoming := 0; outgoing := 11; total := 11 |} ]
  ∧ forallb (λ issue, negb (is_hub issue)) (analyze_coupling busy_module) = true.
Proof. by vm_compute. Qed.

(** C7. For every module of a built graph, with [incoming] its
    [imported_by_count], [outgoing] its [import_count] and [total] their
    sum: the module is reported, with these three numbers, iff
    [total > 10] or both [incoming > 5] and [outgoing > 5]; [is_hub] holds
    exactly in the second case, so that every hub is reported, while a
    reported module need not be a hub. *)
Theorem coupling_flagging js_ts_import_paths extract_exports os dirpath walk :
  ∃ ms,
    build_modules js_ts_import_paths extract_exports os dirpath walk = Ok ms ∧
    (∀ p info, (p, info) ∈ ms →
       let incoming := imported_by_count info in
       let outgoing := import_count info in
       let total := incoming + outgoing in
       ((∃ issue, issue ∈ analyze_coupling ms ∧ module issue = p) ↔
        (total > 10 ∨ (incoming > 5 ∧ outgoing > 5))) ∧
       (∀ issue, issue ∈ analyze_coupling ms → module issue = p →
          issue = {| module := p; incoming := incoming;
                     outgoing := outgoing; total := total |}) ∧
       (incoming > 5 ∧ outgoing > 5 →
        ∃ issue, issue ∈ analyze_coupling ms ∧ module issue = p ∧
                 is_hub issue = true)) ∧
    (∀ issue, is_hub issue = true ↔ (incoming issue > 5 ∧ outgoing issue > 5)) ∧
    (∃ ms' issue, issue ∈ analyze_coupling ms' ∧ is_hub issue = false).
Proof.
  destruct (build_modules_built js_ts_import_paths extract_exports
              os dirpath walk) as (ms & Hms & Hnd & Hall).
  exists ms. split; [done|]. split_and!.
  - intros p info Hin. destruct (Hall p info Hin) as (_ & Hcount & _).
    assert (∀ issue, issue ∈ analyze_coupling ms → module issue = p →
      issue = {| module := p; incoming := imported_by_count info;
                 outgoing := import_count info;
                 total := imported_by_count info + import_count info |} ∧
      flagged (imported_by_count info) (import_count info)) as Hissue.
    { intros issue (info' & Hin' & Hi & Ho & Ht & Hf)%analyze_coupling_elem Hp.
      rewrite Hp in *. rewrite (dict_entry_unique ms p info info') by done.
      rewrite (dict_entry_unique ms p info info') in Hcount by done.
      rewrite Hcount, <-Hi, <-Ho. split; [|done].
      destruct issue; simpl in *. by subst. }
    assert (flagged (imported_by_count info) (import_count info) →
      {| module := p; incoming := imported_by_count info;
         outgoing := import_count info;
         total := imported_by_count info + import_count info |}
      ∈ analyze_coupling ms) as Hflag.
    { intros Hf. apply analyze_coupling_elem. exists info. simpl.
      by rewrite <-Hcount. }
    simpl. split_and!.
    + split.
      * intros (issue & Hi & Hp). by destruct (Hissue issue Hi Hp).
      * intros Hf. eexists. split; [by apply Hflag|done].
    + intros issue Hi Hp. by destruct (Hissue issue Hi Hp).
    + intros Hhub. eexists. split; [apply Hflag; by right|].
      split; [done|]. by apply is_hub_spec.
  - apply is_hub_spec.
  - exists busy_module,
      {| module := "app/main.py"; incoming := 0; outgoing := 11; total := 11 |}.
    split; [|done]. destruct busy_module_issue as [-> _]. left.
Qed.

(** *** The order of the report *)

Lemma insert_desc_Sorted x l :
  Sorted total_ge l → Sorted total_ge (insert_desc x l).
Proof.
  induction 1 as [|y l Hl IH Hhd]; simpl; [by repeat constructor|].
  case_decide as Hle.
  - by repeat constructor.
  - constructor; [done|].
    destruct Hhd as [|z l Hyz]; simpl.
    + constructor. unfold total_ge. lia.
    + case_decide; constructor; unfold total_ge in *; lia.
Qed.

Lemma sorted_by_total_desc_Sorted l : Sorted total_ge (sorted_by_total_desc l).
Proof.
  induction l as [|x l IH]; simpl; [constructor|by apply insert_desc_Sorted].
Qed.

Global Instance total_ge_trans : Transitive total_ge.
Proof. unfold total_ge. intros x y z ??. lia. Qed.

(** The sort is stable: the issues of one total keep their order. *)
Lemma insert_desc_stable t x l :
  filter (λ i, total i = t) (insert_desc x l)
  = filter (λ i, total i = t) (x :: l).
Proof.
  induction l as [|y l IH]; simpl; [done|].
  case_decide as Hle; [done|].
  rewrite (filter_cons _ y), IH, !filter_cons.
  destruct (decide (total y = t)), (decide (total x = t)); try done. lia.
Qed.

Lemma sorted_by_total_desc_stable t l :
  filter (λ i, total i = t) (sorted_by_total_desc l)
  = filter (λ i, total i = t) l.
Proof.
  induction l as [|x l IH]; simpl; [done|].
  by rewrite insert_desc_stable, !filter_cons, IH.
Qed.

Lemma issues_in_map_order counts t ms :
  module <$> filter (λ i, total i = t) (flat_map (coupling_of counts) ms)
  `sublist_of` Dict.keys ms.
Proof.
  unfold Dict.keys. induction ms as [|[p info] ms IH]; csimpl; [done|].
  rewrite filter_app, fmap_app.
  assert (module <$> filter (λ i, total i = t) (coupling_of counts (p, info))
          `sublist_of` [p]) as Hp.
  { unfold coupling_of. destruct (_ || _); [|apply sublist_nil_l].
    rewrite filter_cons. case_decide; [done|apply sublist_nil_l]. }
  by apply (sublist_app _ [p] _ (ms.*1)).
Qed.

(** C8, as stated, fails: two issues of equal total come out in the order
    of the module map, whatever their paths. *)
Lemma coupling_ties_not_by_path :
  module <$> analyze_coupling tie_ba = ["src/b.py"; "src/a.py"] ∧
  module <$> analyze_coupling tie_ab = ["src/a.py"; "src/b.py"] ∧
  ¬ StronglySorted by_total_then_path (analyze_coupling tie_ba).
Proof.
  split_and!; [done..|].
  apply (bool_decide_eq_false_1 (StronglySorted by_total_then_path _)).
  by vm_compute.
Qed.

(** C8, amended.  The report is sorted by [total], descending, and the
    issues of equal total keep the order in which their modules stand in
    the module map. *)
Theorem coupling_report_order (ms : list (string * ModuleInfo)) :
  StronglySorted (λ x y, total x ≥ total y) (analyze_coupling ms) ∧
  ∀ t, module <$> filter (λ i, total i = t) (analyze_coupling ms)
       `sublist_of` Dict.keys ms.
Proof.
  unfold analyze_coupling. split.
  - apply (Sorted_StronglySorted total_ge), sorted_by_total_desc_Sorted.
  - intros t. rewrite sorted_by_total_desc_stable. apply issues_in_map_order.
Qed.

(** ** The cycle detector *)

(** A loop whose body always returns and keeps [P] returns with [P]; a
    property [Q] that the turn for [x0] establishes, and that the other
    turns keep, holds at the end when [x0] is met. *)
Lemma for_each_inv_at {A S} (P Q : S → Prop) (body : S → A → result S)
    xs st x0 :
  P st →
  (∀ st x, x ∈ xs → P st →
     ∃ st', body st x = Ok st' ∧ P st' ∧ (Q st ∨ x = x0 → Q st')) →
  ∃ st', for_each body xs st = Ok st' ∧ P st' ∧ (Q st ∨ x0 ∈ xs → Q st').
Proof.
  revert st. induction xs as [|x xs IH]; intros st Hst Hbody; simpl.
  - exists st. split_and!; [done..|]. by intros [?|?%elem_of_nil].
  - destruct (Hbody st x) as (st1 & -> & Hst1 & HQ1); [left|done|]. simpl.
    destruct (IH st1) as (st' & -> & Hst' & HQ'); [done| |].
    { intros ???. apply Hbody. by right. }
    exists st'. split_and!; [done..|].
    intros [HQ|[->|Hin]%elem_of_cons]; apply HQ'; auto.
Qed.

Section dfs_facts.

Variable ms : list (string * ModuleInfo).

Lemma index_of_elem node path :
  node ∈ path → ∃ i, index_of node path = Some i.
Proof.
  induction path as [|x path IH]; [by intros ?%elem_of_nil|]. simpl.
  destruct (decide (x = node)); [by eauto|].
  intros [->|Hin]%elem_of_cons; [done|].
  destruct (IH Hin) as [i ->]. by eauto.
Qed.

Lemma index_of_lookup node path i :
  index_of node path = Some i → path !! i = Some node.
Proof.
  revert i. induction path as [|x path IH]; intros i; simpl; [done|].
  destruct (decide (x = node)) as [->|]; [by intros [= <-]|].
  destruct (index_of node path) as [j|]; simpl; [|done].
  intros [= <-]. by apply IH.
Qed.

Lemma index_of_snoc node path :
  node ∉ path → index_of node (path ++ [node]) = Some (length path).
Proof.
  induction path as [|x path IH]; simpl.
  - intros _. by rewrite decide_True.
  - intros [??]%not_elem_of_cons. rewrite decide_False by done.
    by rewrite IH.
Qed.

Lemma internal_edge_spec u v :
  internal_edge ms u v = true ↔
  ∃ info, Dict.get ms u = Some info ∧ v ∈ imports info ∧ v ∈ Dict.keys ms.
Proof.
  unfold internal_edge, Dict.mem, Dict.keys.
  destruct (Dict.get ms u) as [info|].
  - rewrite andb_true_iff, !bool_decide_eq_true. split; [by eauto|].
    by intros (? & [= <-] & ? & ?).
  - split; [done|]. by intros (? & ? & _).
Qed.

Lemma chain_snoc path node :
  chain ms path →
  (∀ u, last path = Some u → internal_edge ms u node = true) →
  chain ms (path ++ [node]).
Proof.
  intros Hchain Hlast i u v Hu Hv.
  destruct (decide (S i < length path)) as [Hlt|Hge].
  - rewrite lookup_app_l in Hu, Hv by lia. by eapply Hchain.
  - assert (i < length path) as Hi.
    { apply lookup_lt_Some in Hv. rewrite length_app in Hv. simpl in Hv.
      lia. }
    assert (S i = length path) as HSi by lia.
    rewrite lookup_app_l in Hu by lia.
    rewrite lookup_app_r, HSi, Nat.sub_diag in Hv by lia.
    injection Hv as <-. apply Hlast.
    rewrite last_lookup. by replace (pred (length path)) with i by lia.
Qed.

Lemma chain_closed first rest target :
  chain ms (first :: rest) →
  (∀ u, last (first :: rest) = Some u → internal_edge ms u target = true) →
  forallb (λ e, internal_edge ms e.1 e.2)
    (zip (first :: rest) (rest ++ [target])) = true.
Proof.
  revert first. induction rest as [|y rest IH]; intros first Hchain Hlast.
  - simpl. rewrite andb_true_r. by apply Hlast.
  - cbn [zip zip_with app forallb fst snd]. apply andb_true_iff. split.
    + by apply (Hchain 0).
    + apply IH.
      * intros i u v Hu Hv. by apply (Hchain (S i)).
      * intros u Hu. apply Hlast. by rewrite last_cons, Hu.
Qed.

Lemma chain_drop path i : chain ms path → chain ms (drop i path).
Proof.
  intros Hchain j u v. rewrite !lookup_drop.
  replace (i + S j) with (S (i + j)) by lia. apply Hchain.
Qed.

Lemma drop_emitted_ok path node i :
  NoDup path → Forall (λ m, m ∈ Dict.keys ms) path → chain ms path →
  (∀ u, last path = Some u → internal_edge ms u node = true) →
  index_of node path = Some i →
  emitted_ok ms {| cycle := drop i path |}.
Proof.
  intros Hnd Hkeys Hchain Hlast Hi%index_of_lookup. split_and!; simpl.
  - eapply sublist_NoDup; [done|apply sublist_drop].
  - by apply Forall_drop.
  - assert (i < length path) as Hlt by by eapply lookup_lt_Some.
    pose proof (chain_drop path i Hchain) as Hchain'.
    assert (last (drop i path) = last path) as Hlast'.
    { rewrite !last_lookup, lookup_drop, length_drop. f_equal. lia. }
    rewrite (drop_S _ _ _ Hi) in *.
    apply chain_closed; [done|]. intros u Hu. apply Hlast. congruence.
Qed.

Lemma unvisited_shrinks (node : string) (V V' : gset string) :
  node ∈ Dict.keys ms → node ∉ V → {[ node ]} ∪ V ⊆ V' →
  size (key_set ms ∖ V') < size (key_set ms ∖ V).
Proof.
  intros Hkey Hnode Hsub. apply subset_size. split.
  - set_solver.
  - intros Hback. assert (node ∈ (key_set ms) ∖ V) as Hin.
    { apply elem_of_difference. split; [|done].
      by apply elem_of_list_to_set. }
    apply Hback in Hin. set_solver.
Qed.

Lemma dfs_spec fuel : ∀ node path st,
  node ∈ Dict.keys ms →
  size (key_set ms ∖ visited st) < fuel →
  dfs_inv ms path st →
  (∀ u, last path = Some u → internal_edge ms u node = true) →
  ∃ st', dfs fuel ms node path st = Ok st' ∧ dfs_post ms node path st st'.
Proof.
  induction fuel as [|fuel IH]; intros node path st Hkey Hfuel Hinv Hlast;
    [lia|].
  destruct Hinv as (Hrec & Hnd & Hkeys & Hchain & Hcyc & Hself). simpl.
  destruct (decide (node ∈ rec_stack st)) as [Hon|Hoff].
  { destruct (index_of_elem node path) as [i Hi].
    { rewrite Hrec in Hon. by apply elem_of_list_to_set in Hon. }
    rewrite Hi. eexists. split; [done|]. split_and!; simpl; [done..| | | |by left|].
    - apply Forall_app. split; [done|].
      apply Forall_singleton. by eapply drop_emitted_ok.
    - intros m ???. apply elem_of_app. left. by apply Hself.
    - intros c ?. apply elem_of_app. by left.
    - intros j _ Hj. rewrite Hi in Hj. injection Hj as <-.
      apply elem_of_app. right. left. }
  destruct (decide (node ∈ visited st)) as [Hseen|Hnew].
  { exists st. split; [done|]. split_and!; try done. by right. }
  set (st1 := {| cycles := cycles st;
                 visited := {[ node ]} ∪ visited st;
                 rec_stack := {[ node ]} ∪ rec_stack st |}).
  set (path1 := path ++ [node]).
  assert (node ∉ path) as Hfresh.
  { intros Hin. apply Hoff. rewrite Hrec. by apply elem_of_list_to_set. }
  (* the loop keeps [P], and the turn for [node] itself emits [[node]] *)
  set (P := λ sti : DfsState,
         rec_stack sti = rec_stack st1 ∧ visited st1 ⊆ visited sti ∧
         Forall (emitted_ok ms) (cycles sti) ∧ self_done ms sti ∧
         cycles st ⊆ cycles sti).
  set (Q := λ sti : DfsState, {| cycle := [node] |} ∈ cycles sti).
  assert (P st1) as HP1.
  { split_and!; simpl; [done..| |done].
    intros m Hm Hnot. apply Hself; set_solver. }
  assert (∃ st2,
    match Dict.get ms node with
    | Some info =>
        for_each (λ st imported,
            if Dict.mem imported ms
            then dfs fuel ms imported path1 st
            else Ok st)
          (imports info) st1
    | None => Ok st1
    end = Ok st2 ∧ P st2 ∧ (internal_edge ms node node = true → Q st2))
    as (st2 & -> & (Hrec2 & Hvis2 & Hcyc2 & Hself2 & Hmono2) & HQ2).
  { destruct (Dict.get ms node) as [info|] eqn:Hget.
    2:{ exists st1. split_and!; [done..|].
        intros (? & ? & _)%internal_edge_spec. congruence. }
    destruct (for_each_inv_at P Q
      (λ st imported,
         if Dict.mem imported ms then dfs fuel ms imported path1 st else Ok st)
      (imports info) st1 node HP1) as (st2 & -> & HP2 & HQ2).
    2:{ exists st2. split_and!; [done..|].
        intros (info' & Hget' & Hin & _)%internal_edge_spec.
        apply HQ2. right. congruence. }
    intros sti imported Himp (Hreci & Hvisi & Hcyci & Hselfi & Hmonoi).
    destruct (Dict.mem imported ms) eqn:Hmem.
    2:{ exists sti. split_and!; [done..|]. intros [?| ->]; [done|].
        apply bool_decide_eq_false in Hmem. by destruct Hmem. }
    apply bool_decide_eq_true in Hmem.
    destruct (IH imported path1 sti)
      as (st' & -> & Hr & Hv & Hc & Hs & Hm & _ & Hemit).
    - done.
    - pose proof (unvisited_shrinks node (visited st) (visited sti)
                    Hkey Hnew Hvisi). lia.
    - split_and!; [| | | |done..].
      + rewrite Hreci. unfold path1. rewrite list_to_set_snoc_L. simpl.
        rewrite Hrec. set_solver.
      + apply NoDup_app. split_and!; [done| |apply NoDup_singleton].
        by intros x ? ->%list_elem_of_singleton.
      + apply Forall_app. split; [done|by apply Forall_singleton].
      + by apply chain_snoc.
    - intros u Hu. unfold path1 in Hu. rewrite last_snoc in Hu.
      injection Hu as <-. apply internal_edge_spec. eauto.
    - exists st'. split; [done|]. split.
      { split_and!; [congruence|set_solver|done..|set_solver]. }
      intros [HQ| ->]; [by apply Hm|].
      specialize (Hemit (length path)).
      unfold path1 in Hemit. rewrite drop_app_length in Hemit.
      apply Hemit; [|by apply index_of_snoc].
      rewrite Hreci. simpl. set_solver. }
  simpl. rewrite decide_True by (rewrite Hrec2; simpl; set_solver).
  eexists. split; [done|]. split_and!; simpl.
  - rewrite Hrec2. simpl. set_solver.
  - set_solver.
  - done.
  - intros m Hm Hnot Hedge. destruct (decide (m = node)) as [->|Hne].
    + by apply HQ2.
    + apply Hself2; [done| |done]. set_solver.
  - done.
  - right. set_solver.
  - done.
Qed.

Lemma size_key_set : size (key_set ms) ≤ length ms.
Proof.
  unfold key_set, Dict.keys. rewrite <-(length_fmap fst ms).
  induction (ms.*1) as [|k ks IH].
  - by rewrite list_to_set_nil, size_empty.
  - rewrite list_to_set_cons, size_union_alt, size_singleton.
    pose proof (subseteq_size (list_to_set ks ∖ {[ k ]})
                  (list_to_set ks : gset string)) as Hle.
    specialize (Hle ltac:(set_solver)). simpl. lia.
Qed.

(** The search over all modules returns; every cycle it has emitted is a
    closed walk without repetition through modules of the map, and every
    module that imports itself has its one-node cycle emitted. *)
Lemma dfs_all_spec :
  ∃ st, dfs_all ms = Ok st ∧ Forall (emitted_ok ms) (cycles st) ∧
    ∀ m, internal_edge ms m m = true → {| cycle := [m] |} ∈ cycles st.
Proof.
  unfold dfs_all.
  assert (∀ m, ∃ st,
    for_each (λ st module,
        if decide (module ∈ visited st) then Ok st
        else dfs (S (length ms)) ms module [] st)
      (Dict.keys ms) {| cycles := []; visited := ∅; rec_stack := ∅ |} = Ok st ∧
    dfs_inv ms [] st ∧ (m ∈ Dict.keys ms → m ∈ visited st)) as Hloop.
  { intros m.
    destruct (for_each_inv_at (dfs_inv ms []) (λ st, m ∈ visited st)
      (λ st module,
         if decide (module ∈ visited st) then Ok st
         else dfs (S (length ms)) ms module [] st)
      (Dict.keys ms) {| cycles := []; visited := ∅; rec_stack := ∅ |} m)
      as (st & Hst & Hinv & Hm).
    - split_and!; simpl.
      + done.
      + constructor.
      + constructor.
      + by intros i u v ?.
      + constructor.
      + intros m0 Hm0. set_solver.
    - intros st module Hkey Hinv. case_decide as Hvis.
      { exists st. split_and!; [done..|]. by intros [?| ->]. }
      destruct (dfs_spec (S (length ms)) module [] st)
        as (st' & -> & Hr & Hv & Hc & Hs & _ & Hin & _); [done| |done|done|].
      + pose proof size_key_set.
        pose proof (subseteq_size (key_set ms ∖ visited st) (key_set ms)
                      ltac:(set_solver)). lia.
      + destruct Hinv as (Hrec & ? & ? & ? & _).
        exists st'. split; [done|]. split.
        { split_and!; [congruence|done..]. }
        intros [?| ->]; [set_solver|].
        destruct Hin as [Hin|?]; [|done]. rewrite Hrec in Hin. set_solver.
    - exists st. split_and!; [done..|]. intros ?. apply Hm. by right. }
  destruct (Hloop "") as (st & Hst & (Hrec & _ & _ & _ & Hcyc & Hself) & _).
  exists st. split_and!; [done..|].
  intros m Hedge. destruct (Hloop m) as (st' & Hst' & _ & Hm).
  rewrite Hst in Hst'. injection Hst' as <-.
  apply Hself; [|rewrite Hrec; set_solver|done].
  apply Hm. apply internal_edge_spec in Hedge as (? & _ & _ & ?). done.
Qed.

End dfs_facts.

(** *** Deduplication *)

Lemma foldl_dedup_step acc seen cs :
  (foldl dedup_step (acc, seen) cs).1 = acc ++ dedup_from seen cs.
Proof.
  revert acc seen. induction cs as [|c cs IH]; intros acc seen; simpl.
  - by rewrite app_nil_r.
  - case_decide; [apply IH|]. by rewrite IH, <-app_assoc.
Qed.

Lemma deduplicate_dedup_from cs : deduplicate cs = dedup_from ∅ cs.
Proof. unfold deduplicate. by rewrite foldl_dedup_step. Qed.

(** On lists without repetition, the sorted tuples agree exactly when the
    member sets do. *)
Lemma normalized_same_members c d :
  NoDup (cycle c) → NoDup (cycle d) →
  normalized c = normalized d ↔ same_members c d.
Proof.
  intros Hc Hd. unfold normalized, same_members. split.
  - intros Heq. apply set_eq. intros x. rewrite !elem_of_list_to_set.
    rewrite <-(merge_sort_Permutation String.le (cycle c)).
    rewrite <-(merge_sort_Permutation String.le (cycle d)).
    by rewrite Heq.
  - intros Heq. apply (Sorted_unique String.le).
    + apply (Sorted_merge_sort String.le).
    + apply (Sorted_merge_sort String.le).
    + rewrite !merge_sort_Permutation. apply NoDup_Permutation; [done..|].
      intros x. rewrite <-!(elem_of_list_to_set (C:=gset string)).
      by rewrite Heq.
Qed.

Lemma dedup_from_sublist seen cs : dedup_from seen cs `sublist_of` cs.
Proof.
  revert seen. induction cs as [|c cs IH]; intros seen; simpl; [done|].
  case_decide; [by apply sublist_cons|by apply sublist_skip].
Qed.

Lemma dedup_from_unseen seen cs c :
  c ∈ dedup_from seen cs → normalized c ∉ seen.
Proof.
  revert seen. induction cs as [|c' cs IH]; intros seen; simpl.
  - by intros ?%elem_of_nil.
  - case_decide; [by apply IH|].
    intros [->|Hin]%elem_of_cons; [done|].
    apply IH in Hin. set_solver.
Qed.

Lemma dedup_from_NoDup seen cs : NoDup (normalized <$> dedup_from seen cs).
Proof.
  revert seen. induction cs as [|c cs IH]; intros seen; simpl.
  - constructor.
  - case_decide; [apply IH|]. csimpl. apply NoDup_cons. split; [|apply IH].
    intros (c' & Heq & Hin%dedup_from_unseen)%list_elem_of_fmap. set_solver.
Qed.

(** A cycle whose tuple was not seen before it, neither initially nor
    among the earlier cycles, is kept. *)
Lemma dedup_from_first seen cs i c :
  cs !! i = Some c →
  normalized c ∉ seen →
  (∀ j d, j < i → cs !! j = Some d → normalized d ≠ normalized c) →
  c ∈ dedup_from seen cs.
Proof.
  revert seen i. induction cs as [|c' cs IH]; intros seen i; [done|].
  destruct i as [|i]; simpl.
  - intros [= ->] Hnew _. rewrite decide_False by done. left.
  - intros Hi Hnew Hfirst.
    assert (normalized c' ≠ normalized c) as Hne.
    { apply (Hfirst 0); [lia|done]. }
    assert (∀ j d, j < i → cs !! j = Some d → normalized d ≠ normalized c)
      as Hfirst'.
    { intros j d ??. apply (Hfirst (S j)); [lia|done]. }
    case_decide; [by eapply IH|].
    right. eapply IH; [done| |done]. set_solver.
Qed.

Lemma dedup_from_represented seen cs c :
  c ∈ cs → normalized c ∉ seen →
  ∃ d, d ∈ dedup_from seen cs ∧ normalized d = normalized c.
Proof.
  revert seen. induction cs as [|c' cs IH]; intros seen; simpl.
  - by intros ?%elem_of_nil.
  - intros Hin Hnew. case_decide as Hseen.
    + apply elem_of_cons in Hin as [->|Hin]; [done|by apply IH].
    + destruct (decide (normalized c = normalized c')) as [Heq|Hne].
      { exists c'. split; [left|done]. }
      apply elem_of_cons in Hin as [->|Hin]; [done|].
      destruct (IH ({[ normalized c' ]} ∪ seen) Hin) as (d & Hd & Hdc);
        [set_solver|].
      exists d. split; [by right|done].
Qed.

(** C3. The detector returns; of the cycles the search emitted it keeps a
    sub-list, in which no two cycles have the same set of member paths,
    and which holds every emitted cycle that no earlier emitted cycle
    equals in member set: the first-seen representative of each set. *)
Theorem cycles_deduplicated_by_member_set (ms : list (string * ModuleInfo)) :
  ∃ st reported,
    dfs_all ms = Ok st ∧
    find_circular_dependencies ms = Ok reported ∧
    reported `sublist_of` cycles st ∧
    (∀ i j c d, reported !! i = Some c → reported !! j = Some d →
       same_members c d → i = j) ∧
    (∀ i c, cycles st !! i = Some c →
       (∀ j d, j < i → cycles st !! j = Some d → ¬ same_members d c) →
       c ∈ reported) ∧
    (∀ c, c ∈ cycles st → ∃ d, d ∈ reported ∧ same_members d c).
Proof.
  destruct (dfs_all_spec ms) as (st & Hst & Hok & _).
  exists st, (deduplicate (cycles st)).
  unfold find_circular_dependencies. rewrite Hst. simpl.
  rewrite deduplicate_dedup_from.
  pose proof (dedup_from_sublist ∅ (cycles st)) as Hsub.
  assert (∀ c, c ∈ cycles st → NoDup (cycle c)) as Hnd.
  { intros c Hc. by destruct (proj1 (Forall_forall _ _) Hok c Hc). }
  assert (∀ c, c ∈ dedup_from ∅ (cycles st) → NoDup (cycle c)) as Hnd'.
  { intros c Hc. apply Hnd. by eapply sublist_subseteq. }
  assert (∀ i c, cycles st !! i = Some c →
    (∀ j d, j < i → cycles st !! j = Some d → ¬ same_members d c) →
    c ∈ dedup_from ∅ (cycles st)) as Hfirst.
  { intros i c Hi Hfirst. eapply dedup_from_first; [done|set_solver|].
    intros j d Hj Hd Heq. apply (Hfirst j d Hj Hd).
    apply normalized_same_members; [|by eauto using list_elem_of_lookup_2|done].
    apply Hnd. by eapply list_elem_of_lookup_2. }
  split_and!; [done..| |done|].
  - intros i j c d Hi Hj Hsame.
    eapply (NoDup_lookup _ i j (normalized c)); [apply dedup_from_NoDup|..].
    + by rewrite list_lookup_fmap, Hi.
    + rewrite list_lookup_fmap, Hj. simpl. f_equal. symmetry.
      apply normalized_same_members;
        by eauto using list_elem_of_lookup_2.
  - intros c Hc.
    destruct (dedup_from_represented ∅ (cycles st) c Hc) as (d & Hd & Hdc);
      [set_solver|].
    exists d. split; [done|]. apply normalized_same_members; auto.
Qed.

(** *** Imports that are not modules of the map *)

Lemma restrict_imports_keys K ms : Dict.keys (restrict_imports K ms) = Dict.keys ms.
Proof.
  unfold restrict_imports, Dict.keys.
  induction ms as [|[p info] ms IH]; csimpl; [done|]. by rewrite IH.
Qed.

Lemma restrict_imports_mem K ms x :
  Dict.mem x (restrict_imports K ms) = Dict.mem x ms.
Proof.
  pose proof (restrict_imports_keys K ms) as Hkeys.
  unfold Dict.mem, Dict.keys in *. by rewrite Hkeys.
Qed.

Lemma restrict_imports_get K ms node :
  Dict.get (restrict_imports K ms) node = keep_imports K <$> Dict.get ms node.
Proof.
  unfold restrict_imports.
  induction ms as [|[p info] ms IH]; csimpl; [done|]. by case_decide.
Qed.

Lemma for_each_ext {A S} (body body' : S → A → result S) xs st :
  (∀ st x, x ∈ xs → body st x = body' st x) →
  for_each body xs st = for_each body' xs st.
Proof.
  revert st. induction xs as [|x xs IH]; intros st Hext; simpl; [done|].
  rewrite Hext by left. destruct (body' st x); simpl; [|done..].
  apply IH. intros ???. apply Hext. by right.
Qed.

(** A loop that skips the elements outside [K] may as well not see them. *)
Lemma for_each_filter {S} (K : list string) (body : S → string → result S)
    xs st :
  for_each (λ st x, if bool_decide (x ∈ K) then body st x else Ok st)
    (filter (λ x, x ∈ K) xs) st
  = for_each (λ st x, if bool_decide (x ∈ K) then body st x else Ok st) xs st.
Proof.
  revert st. induction xs as [|x xs IH]; intros st; [done|].
  rewrite filter_cons. destruct (decide (x ∈ K)) as [Hx|Hx]; simpl.
  - destruct (if bool_decide (x ∈ K) then body st x else Ok st); simpl; auto.
  - by rewrite (bool_decide_false _ Hx).
Qed.

Lemma dfs_internal_only ms fuel : ∀ node path st,
  dfs fuel (internal_only ms) node path st = dfs fuel ms node path st.
Proof.
  induction fuel as [|fuel IH]; intros node path st; [done|]. simpl.
  destruct (decide (node ∈ rec_stack st)); [done|].
  destruct (decide (node ∈ visited st)); [done|].
  unfold internal_only at 1. rewrite restrict_imports_get.
  destruct (Dict.get ms node) as [info|]; [|done]. simpl.
  rewrite (for_each_ext _
    (λ st imported, if bool_decide (imported ∈ Dict.keys ms)
                    then dfs fuel ms imported (path ++ [node]) st else Ok st)).
  2:{ intros st' x _. rewrite IH.
      unfold internal_only. by rewrite restrict_imports_mem. }
  by rewrite (for_each_filter (Dict.keys ms)
    (λ st imported, dfs fuel ms imported (path ++ [node]) st)).
Qed.

Lemma find_circular_dependencies_internal_only ms :
  find_circular_dependencies (internal_only ms) = find_circular_dependencies ms.
Proof.
  unfold find_circular_dependencies, dfs_all.
  replace (Dict.keys (internal_only ms)) with (Dict.keys ms)
    by (symmetry; apply restrict_imports_keys).
  replace (length (internal_only ms)) with (length ms)
    by (unfold internal_only, restrict_imports; by rewrite length_fmap).
  f_equal. apply for_each_ext. intros st x _.
  case_decide; [done|apply dfs_internal_only].
Qed.

Lemma reported_cycles_in_map ms :
  ∃ reported, find_circular_dependencies ms = Ok reported ∧
    ∀ c m, c ∈ reported → m ∈ cycle c → m ∈ Dict.keys ms.
Proof.
  destruct (dfs_all_spec ms) as (st & Hst & Hok & _).
  exists (deduplicate (cycles st)). unfold find_circular_dependencies.
  rewrite Hst. split; [done|]. intros c m Hc Hm.
  rewrite deduplicate_dedup_from in Hc.
  apply (sublist_subseteq _ _ (dedup_from_sublist _ _)) in Hc.
  destruct (proj1 (Forall_forall _ _) Hok c Hc) as (_ & Hkeys & _).
  by apply (proj1 (Forall_forall _ _) Hkeys).
Qed.

Lemma scripts_proj_modules :
  build_modules (λ _, []) (λ _, []) scripts_proj "/p" scripts_walk
  = Ok [ ("main.py",
          {| path := "main.py"; imports := ["scripts/deploy"]; exports := [];
             import_count := 1; imported_by_count := 0 |}) ].
Proof. by vm_compute. Qed.

Lemma tools_proj_modules :
  build_modules (λ _, []) (λ _, []) tools_proj "/p" tools_walk
  = Ok [ ("main.py", tools_main) ].
Proof. by vm_compute. Qed.

(** C10. The imports of a module of a built graph may hold a resolved path
    that is no key of the module map; every import, key or not, counts in
    [import_count] and so in the [outgoing] of the coupling report; the
    cycle detector follows only the imports that are keys: it returns what
    it returns on the map without the other imports, and reports modules
    of the map only.  The count is seen in the report: a module whose
    counts meet the condition of the analyzer is reported with all its
    imports as [outgoing], and the entry point of [tools_proj], none of
    whose eleven imports is a key, is reported with [outgoing] 11. *)
Theorem imports_outside_the_module_map :
  (∃ ms p info imp,
     build_modules (λ _, []) (λ _, []) scripts_proj "/p" scripts_walk = Ok ms ∧
     (p, info) ∈ ms ∧ imp ∈ imports info ∧ (imp ∉ Dict.keys ms) ∧
     import_count info = 1) ∧
  (∀ js_ts_import_paths extract_exports os dirpath walk,
     ∃ ms,
       build_modules js_ts_import_paths extract_exports os dirpath walk
       = Ok ms ∧
       ∀ p info, (p, info) ∈ ms →
         import_count info = length (imports info) ∧
         (∀ issue, issue ∈ analyze_coupling ms → module issue = p →
            outgoing issue = length (imports info)) ∧
         (flagged (imported_by_count info) (length (imports info)) →
          ∃ issue, issue ∈ analyze_coupling ms ∧ module issue = p ∧
                   outgoing issue = length (imports info))) ∧
  (∀ ms,
     find_circular_dependencies ms = find_circular_dependencies (internal_only ms) ∧
     ∃ reported, find_circular_dependencies ms = Ok reported ∧
       ∀ c m, c ∈ reported → m ∈ cycle c → m ∈ Dict.keys ms) ∧
  (∃ ms info,
     build_modules (λ _, []) (λ _, []) tools_proj "/p" tools_walk = Ok ms ∧
     ms = [ ("main.py", info) ] ∧
     length (imports info) = 11 ∧
     Forall (λ imp, imp ∉ Dict.keys ms) (imports info) ∧
     analyze_coupling ms
     = [ {| module := "main.py"; incoming := 0; outgoing := 11;
            total := 11 |} ]).
Proof.
  split_and!.
  - eexists _, "main.py", _, "scripts/deploy".
    split; [apply scripts_proj_modules|]. split_and!; [left|left| |done].
    by intros [=]%list_elem_of_singleton.
  - intros js ex os dirpath walk.
    destruct (build_modules_built js ex os dirpath walk)
      as (ms & Hms & Hnd & Hall).
    exists ms. split; [done|]. intros p info Hin.
    destruct (Hall p info Hin) as ((_ & _ & Hcount) & Htimes & _).
    split; [done|]. split.
    + intros issue (info' & Hin' & _ & Ho & _)%analyze_coupling_elem Hp.
      rewrite Hp in Hin'.
      by rewrite Ho, <-(dict_entry_unique ms p info info').
    + intros Hflagged.
      exists {| module := p; incoming := times_imported p ms;
                outgoing := import_count info;
                total := times_imported p ms + import_count info |}.
      split; [|by split]. apply analyze_coupling_elem. exists info. simpl.
      split_and!; [done..|]. by rewrite <-Htimes, Hcount.
  - intros ms. split; [by rewrite find_circular_dependencies_internal_only|].
    apply reported_cycles_in_map.
  - exists [ ("main.py", tools_main) ], tools_main.
    split; [apply tools_proj_modules|]. split; [done|].
    split; [by vm_compute|]. split; [|by vm_compute].
    apply (bool_decide_unpack _). by vm_compute.
Qed.

(** *** Cycles through a node explored earlier *)

(** With the nested calls it needs, the detector returns, and it is
    sound: what it reports is a closed walk over internal edges that
    passes through no module twice. *)
Lemma reported_cycles_sound ms :
  ∃ reported, find_circular_dependencies ms = Ok reported ∧
    ∀ c, c ∈ reported → NoDup (cycle c) ∧ closed_walk ms (cycle c) = true.
Proof.
  destruct (dfs_all_spec ms) as (st & Hst & Hok & _).
  exists (deduplicate (cycles st)). unfold find_circular_dependencies.
  rewrite Hst. split; [done|]. intros c Hc.
  rewrite deduplicate_dedup_from in Hc.
  apply (sublist_subseteq _ _ (dedup_from_sublist _ _)) in Hc.
  by destruct (proj1 (Forall_forall _ _) Hok c Hc) as (? & _ & ?).
Qed.

(** With the nested calls it needs, the detector reports a module that
    imports itself as a cycle of length 1. *)
Lemma self_import_reported ms m :
  internal_edge ms m m = true →
  ∃ reported, find_circular_dependencies ms = Ok reported ∧
              {| cycle := [m] |} ∈ reported.
Proof.
  intros Hedge. destruct (dfs_all_spec ms) as (st & Hst & Hok & Hself).
  exists (deduplicate (cycles st)). unfold find_circular_dependencies.
  rewrite Hst. split; [done|]. rewrite deduplicate_dedup_from.
  destruct (dedup_from_represented ∅ (cycles st) {| cycle := [m] |})
    as ([w] & Hd & Hdc); [by apply Hself|set_solver|].
  unfold normalized in Hdc. simpl in Hdc.
  assert (w = [m]) as ->; [|done].
  apply Permutation_singleton_r.
  rewrite <-(merge_sort_Permutation String.le w), Hdc.
  apply merge_sort_Permutation.
Qed.

(** C1. Both cycles are closed walks over internal edges, yet one of them
    is reported and the other is not: when the search comes back to [a]
    and follows its second import, the target is already explored and is
    skipped.  Which cycle is lost depends on the order of [a]'s imports. *)
Theorem cycle_through_explored_node_missed :
  closed_walk triangle ["src/a.ts"; "src/b.ts"; "src/c.ts"] = true ∧
  closed_walk triangle ["src/a.ts"; "src/c.ts"] = true ∧
  find_circular_dependencies triangle
    = Ok [ {| cycle := ["src/a.ts"; "src/b.ts"; "src/c.ts"] |} ] ∧
  reported_as_cycle triangle ["src/a.ts"; "src/c.ts"] = false ∧
  closed_walk triangle' ["src/a.ts"; "src/b.ts"; "src/c.ts"] = true ∧
  find_circular_dependencies triangle'
    = Ok [ {| cycle := ["src/a.ts"; "src/c.ts"] |} ] ∧
  reported_as_cycle triangle' ["src/a.ts"; "src/b.ts"; "src/c.ts"] = false.
Proof. by vm_compute. Qed.

(** The loss does not hinge on the order of iteration: when each of three
    modules imports the other two, every order of the modules and of
    their imports leaves one of the three two-module cycles unreported. *)
Lemma mutual_imports_lose_a_cycle :
  length mutual_imports = 48 ∧
  forallb (λ ms,
      forallb (closed_walk ms) two_cycles
      && existsb (λ w, negb (reported_as_cycle ms w)) two_cycles)
    mutual_imports = true.
Proof. by vm_compute. Qed.
(** ** Further properties of the cycle detector *)

Section dfs_acyclic.

Variable ms : list (string * ModuleInfo).

Lemma cycles_nil_mono (st st' : DfsState) :
  cycles st ⊆ cycles st' → cycles st' = [] → cycles st = [].
Proof.
  intros Hsub Hnil. destruct (cycles st) as [|c cs]; [done|].
  assert (c ∈ cycles st') as Hc by (apply Hsub; left).
  rewrite Hnil in Hc. by apply elem_of_nil in Hc.
Qed.

(** The search keeps the explored modules in topological order until it
    emits a cycle, and a call that emits none leaves its node explored. *)
Lemma dfs_topo fuel : ∀ node path st,
  node ∈ Dict.keys ms →
  size (key_set ms ∖ visited st) < fuel →
  dfs_inv ms path st →
  (∀ u, last path = Some u → internal_edge ms u node = true) →
  topo ms st →
  ∃ st', dfs fuel ms node path st = Ok st' ∧ dfs_post ms node path st st' ∧
    topo ms st' ∧
    (cycles st' = [] → node ∈ visited st' ∧ node ∉ rec_stack st).
Proof.
  induction fuel as [|fuel IH]; intros node path st Hkey Hfuel Hinv Hlast Htopo;
    [lia|].
  destruct (dfs_spec ms (S fuel) node path st Hkey Hfuel Hinv Hlast)
    as (st' & Hdfs & Hpost).
  exists st'. split; [done|]. split; [done|].
  destruct Hinv as (Hrec & Hnd & Hkeys & Hchain & Hcyc & Hself).
  simpl in Hdfs.
  destruct (decide (node ∈ rec_stack st)) as [Hon|Hoff].
  { destruct (index_of node path); [|done]. injection Hdfs as <-.
    split; simpl; intros Hnil; by destruct (cycles st). }
  destruct (decide (node ∈ visited st)) as [Hseen|Hnew].
  { injection Hdfs as <-. done. }
  set (st1 := {| cycles := cycles st;
                 visited := {[ node ]} ∪ visited st;
                 rec_stack := {[ node ]} ∪ rec_stack st |}) in *.
  set (path1 := path ++ [node]) in *.
  assert (node ∉ path) as Hfresh.
  { intros Hin. apply Hoff. rewrite Hrec. by apply elem_of_list_to_set. }
  set (P := λ sti : DfsState,
         dfs_inv ms path1 sti ∧ visited st1 ⊆ visited sti ∧ topo ms sti).
  set (Q := λ (v : string) (sti : DfsState),
         cycles sti = [] → v ∈ visited sti ∧ v ∉ rec_stack st1).
  assert (P st1) as HP1.
  { split; [|split; [done|]].
    - split_and!; simpl.
      + unfold path1. rewrite list_to_set_snoc_L, Hrec. set_solver.
      + apply NoDup_app. split_and!; [done| |apply NoDup_singleton].
        by intros x ? ->%list_elem_of_singleton.
      + apply Forall_app. split; [done|by apply Forall_singleton].
      + by apply chain_snoc.
      + done.
      + intros m Hm Hnot. apply Hself; set_solver.
    - intros Hnil. destruct (Htopo Hnil) as (order & Hmem & Hedge).
      exists order. split; [|done]. intros u. rewrite Hmem. simpl. set_solver. }
  (* the loop: [st2] satisfies [P], and every module that [node] imports
     is explored and off the stack unless a cycle was emitted *)
  assert (∃ st2,
    match Dict.get ms node with
    | Some info =>
        for_each (λ st imported,
            if Dict.mem imported ms
            then dfs fuel ms imported path1 st
            else Ok st)
          (imports info) st1
    | None => Ok st1
    end = Ok st2 ∧ P st2 ∧
    ∀ v, internal_edge ms node v = true → Q v st2)
    as (st2 & Hloop & ((Hrec2 & _) & Hvis2 & Htopo2) & Hsucc).
  { destruct (Dict.get ms node) as [info|] eqn:Hget.
    2:{ exists st1. split_and!; [done..|].
        intros v (? & ? & _)%internal_edge_spec. congruence. }
    assert (∀ v sti imported, imported ∈ imports info → P sti →
      ∃ sti', (if Dict.mem imported ms
               then dfs fuel ms imported path1 sti else Ok sti) = Ok sti' ∧
              P sti' ∧ (Q v sti ∨ imported = v ∧ v ∈ Dict.keys ms → Q v sti'))
      as Hturn.
    { intros v sti imported Himp
        ((Hreci & Hndi & Hkeysi & Hchaini & Hcyci & Hselfi) & Hvisi & Htopoi).
      destruct (Dict.mem imported ms) eqn:Hmem.
      2:{ exists sti. split_and!; [done..|]. intros [?|[-> Hv]]; [done|].
          apply bool_decide_eq_false in Hmem. by destruct Hmem. }
      apply bool_decide_eq_true in Hmem.
      destruct (IH imported path1 sti)
        as (sti' & -> & (Hr & Hv & Hc & Hs & Hm & _ & _) & Ht & Hfin).
      - done.
      - pose proof (unvisited_shrinks ms node (visited st) (visited sti)
                      Hkey Hnew Hvisi). lia.
      - by split_and!.
      - intros u Hu. unfold path1 in Hu. rewrite last_snoc in Hu.
        injection Hu as <-. apply internal_edge_spec. eauto.
      - done.
      - exists sti'. split; [done|]. split.
        { split; [|split; [set_solver|done]].
          split_and!; [congruence|done..]. }
        intros HQ Hnil.
        pose proof (cycles_nil_mono _ _ Hm Hnil) as Hnili.
        destruct HQ as [HQ|[-> _]].
        + destruct (HQ Hnili). split; [set_solver|done].
        + destruct (Hfin Hnil) as [? Hoffi]. split; [done|].
          intros Hin. apply Hoffi. rewrite Hreci.
          destruct HP1 as ((<- & _) & _). exact Hin. }
    destruct (for_each_inv P
      (λ st imported,
         if Dict.mem imported ms then dfs fuel ms imported path1 st else Ok st)
      (imports info) st1 HP1) as (st2 & Hst2 & HP2).
    { intros sti imported Himp HPi.
      destruct (Hturn "" sti imported Himp HPi) as (sti' & ? & ? & _). eauto. }
    exists st2. split_and!; [done..|].
    intros v (info' & Hget' & Hin & Hvkey)%internal_edge_spec.
    assert (info' = info) as -> by congruence.
    destruct (for_each_inv_at P (λ sti, v ∈ Dict.keys ms → Q v sti)
      (λ st imported,
         if Dict.mem imported ms then dfs fuel ms imported path1 st else Ok st)
      (imports info) st1 v HP1) as (st2' & Hst2' & _ & HQ2).
    { intros sti imported Himp HPi.
      destruct (Hturn v sti imported Himp HPi) as (sti' & ? & ? & HQ).
      exists sti'. split_and!; [done..|]. intros [HQi| ->] Hvk; apply HQ; auto. }
    rewrite Hst2 in Hst2'. injection Hst2' as <-. apply HQ2; [by right|done]. }
  rewrite Hloop in Hdfs. simpl in Hdfs.
  rewrite decide_True in Hdfs by (rewrite Hrec2; unfold path1;
    rewrite list_to_set_snoc_L; set_solver).
  injection Hdfs as <-. simpl. split.
  - intros Hnil. destruct (Htopo2 Hnil) as (order & Hmem & Hedge).
    exists (order ++ [node]). split.
    + intros u. rewrite elem_of_app, list_elem_of_singleton, Hmem. simpl.
      rewrite Hrec2. unfold path1. rewrite list_to_set_snoc_L, <-Hrec.
      destruct (decide (u = node)) as [->|]; [|set_solver].
      split; [|by auto]. intros _. split; [|set_solver].
      apply Hvis2. simpl. set_solver.
    + intros i u v Hu Huv.
      destruct (decide (i < length order)) as [Hlt|Hge].
      * rewrite lookup_app_l in Hu by done.
        destruct (Hedge i u v Hu Huv) as (j & Hj & Hv).
        exists j. split; [done|]. by rewrite lookup_app_l by lia.
      * assert (i = length order) as ->.
        { apply lookup_lt_Some in Hu. rewrite length_app in Hu. simpl in Hu.
          lia. }
        rewrite lookup_app_r, Nat.sub_diag in Hu by lia.
        injection Hu as <-.
        destruct (Hsucc v Huv Hnil) as [Hvvis Hvoff].
        assert (v ∈ order) as [j Hj]%list_elem_of_lookup_1.
        { apply Hmem. split; [done|]. rewrite Hrec2.
          destruct HP1 as ((<- & _) & _). exact Hvoff. }
        exists j. split; [by eapply lookup_lt_Some|].
        by rewrite lookup_app_l by (by eapply lookup_lt_Some).
  - intros _. split; [|done]. apply Hvis2. simpl. set_solver.
Qed.

(** After the search over all modules, either a cycle was emitted or all
    the modules stand in topological order. *)
Lemma dfs_all_topo :
  ∃ st, dfs_all ms = Ok st ∧
    (cycles st = [] →
     ∃ order, (∀ u, u ∈ Dict.keys ms → u ∈ order) ∧
       ∀ u v, internal_edge ms u v = true → before_in order v u).
Proof.
  unfold dfs_all.
  set (P := λ st : DfsState, dfs_inv ms [] st ∧ topo ms st).
  assert (∀ m, ∃ st,
    for_each (λ st module,
        if decide (module ∈ visited st) then Ok st
        else dfs (S (length ms)) ms module [] st)
      (Dict.keys ms) {| cycles := []; visited := ∅; rec_stack := ∅ |} = Ok st ∧
    P st ∧ (m ∈ Dict.keys ms → m ∈ visited st)) as Hloop.
  { intros m.
    destruct (for_each_inv_at P (λ st, m ∈ visited st)
      (λ st module,
         if decide (module ∈ visited st) then Ok st
         else dfs (S (length ms)) ms module [] st)
      (Dict.keys ms) {| cycles := []; visited := ∅; rec_stack := ∅ |} m)
      as (st & Hst & HP & Hm).
    - split; [split_and!; simpl|].
      + done.
      + constructor.
      + constructor.
      + by intros i u v ?.
      + constructor.
      + intros m0 Hm0. set_solver.
      + intros _. exists []. split; [|by intros i u v ?].
        intros u. simpl. set_solver.
    - intros st module Hkey [Hinv Htopo]. case_decide as Hvis.
      { exists st. split_and!; [done..|]. by intros [?| ->]. }
      destruct (dfs_topo (S (length ms)) module [] st)
        as (st' & -> & (Hr & Hv & Hc & Hs & _ & Hin & _) & Ht & _);
        [done| |done|done|done|].
      + pose proof (size_key_set ms).
        pose proof (subseteq_size (key_set ms ∖ visited st) (key_set ms)
                      ltac:(set_solver)). lia.
      + destruct Hinv as (Hrec & ? & ? & ? & _).
        exists st'. split; [done|]. split.
        { split; [|done]. split_and!; [congruence|done..]. }
        intros [?| ->]; [set_solver|].
        destruct Hin as [Hin|?]; [|done]. rewrite Hrec in Hin. set_solver.
    - exists st. split_and!; [done..|]. intros ?. apply Hm. by right. }
  destruct (Hloop "") as (st & Hst & ((Hrec & _) & Htopo) & _).
  exists st. split; [done|]. intros Hnil.
  destruct (Htopo Hnil) as (order & Hmem & Hedge). exists order. split.
  - intros u Hu. apply Hmem. destruct (Hloop u) as (st' & Hst' & _ & Hvis).
    rewrite Hst in Hst'. injection Hst' as <-.
    split; [by apply Hvis|]. rewrite Hrec. set_solver.
  - intros u v Huv i Hi. by eapply Hedge.
Qed.

End dfs_acyclic.

Lemma before_in_trans order u v w :
  before_in order u v → before_in order v w → before_in order u w.
Proof.
  intros Huv Hvw i Hi. destruct (Hvw i Hi) as (j & Hj & Hv).
  destruct (Huv j Hv) as (k & Hk & Hu). exists k. split; [lia|done].
Qed.

Lemma before_in_irrefl order u : u ∈ order → ¬ before_in order u u.
Proof.
  intros [i Hi]%list_elem_of_lookup_1 Hbefore.
  induction (lt_wf i) as [i _ IHi].
  destruct (Hbefore i Hi) as (j & Hj & Hu). by apply (IHi j).
Qed.

(** A walk along internal edges leads to modules that stand earlier. *)
Lemma walk_before ms order rest first target :
  (∀ u v, internal_edge ms u v = true → before_in order v u) →
  forallb (λ e, internal_edge ms e.1 e.2)
    (zip (first :: rest) (rest ++ [target])) = true →
  before_in order target first.
Proof.
  intros Hedge. revert first.
  induction rest as [|y rest IH]; intros first; cbn [zip zip_with app forallb fst snd].
  - rewrite andb_true_r. apply Hedge.
  - intros [Hxy Hrest]%andb_true_iff.
    eapply before_in_trans; [by apply IH|by apply Hedge].
Qed.

Lemma dedup_from_nil cs : dedup_from ∅ cs = [] → cs = [].
Proof.
  destruct cs as [|c cs]; [done|]. simpl.
  by rewrite decide_False by set_solver.
Qed.

(** With the nested calls it needs, the detector reports no cycle
    exactly when the graph has none: it returns the empty list iff no
    list of modules is a closed walk over internal edges. *)
Theorem no_cycle_reported_iff_acyclic (ms : list (string * ModuleInfo)) :
  find_circular_dependencies ms = Ok [] ↔ ∀ w, closed_walk ms w = false.
Proof.
  unfold find_circular_dependencies. split.
  - destruct (dfs_all_topo ms) as (st & -> & Htopo). simpl.
    rewrite deduplicate_dedup_from. intros [= Hnil%dedup_from_nil] w.
    destruct (Htopo Hnil) as (order & Hkeys & Hedge).
    destruct (closed_walk ms w) eqn:Hw; [|done]. exfalso.
    destruct w as [|first rest]; [done|]. unfold closed_walk in Hw.
    apply (before_in_irrefl order first).
    + apply Hkeys. destruct rest as [|y rest]; simpl in Hw.
      * rewrite andb_true_r in Hw.
        apply internal_edge_spec in Hw as (? & _ & _ & ?). done.
      * apply andb_true_iff in Hw as [Hw _].
        apply internal_edge_spec in Hw as (info & Hget & _ & _).
        clear -Hget. unfold Dict.keys.
        induction ms as [|[k i] ms' IH]; simpl in *; [done|].
        case_decide; [subst; left|right; by apply IH].
    + by eapply walk_before.
  - intros Hacyclic.
    destruct (dfs_all_spec ms) as (st & -> & Hok & _). simpl.
    rewrite deduplicate_dedup_from. f_equal.
    destruct (dedup_from ∅ (cycles st)) as [|c cs] eqn:E; [done|].
    assert (c ∈ cycles st) as Hc.
    { apply (sublist_subseteq _ _ (dedup_from_sublist ∅ (cycles st))).
      rewrite E. left. }
    destruct (proj1 (Forall_forall _ _) Hok c Hc) as (_ & _ & Hwalk).
    by rewrite Hacyclic in Hwalk.
Qed.

(** ** Further properties of the resolver *)

Lemma probe_first_file os resolved base_dir exts r :
  probe os resolved base_dir exts = Ok (Some r) ↔
  ∃ before ext after,
    exts = before ++ ext :: after ∧
    Forall (λ e, isfile os (resolved +:+ e) = false) before ∧
    isfile os (resolved +:+ ext) = true ∧
    normalize_path os (resolved +:+ ext) base_dir = Ok r.
Proof.
  induction exts as [|e exts IH]; simpl.
  - split; [done|]. intros (before & ? & ? & ? & _). by destruct before.
  - destruct (isfile os (resolved +:+ e)) eqn:He.
    + destruct (normalize_path_returns os (resolved +:+ e) base_dir)
        as [r0 Hr0].
      rewrite Hr0. simpl. split.
      * intros [= <-]. exists [], e, exts. by split_and!.
      * intros ([|b before] & ext & after & Heq & Hbefore & Hext & Hnorm);
          simplify_eq/=; [congruence|].
        apply Forall_cons in Hbefore as [? _]. congruence.
    + rewrite IH. split.
      * intros (before & ext & after & -> & ? & ? & ?).
        exists (e :: before), ext, after. split_and!; [done| |done..].
        by constructor.
      * intros ([|b before] & ext & after & Heq & Hbefore & Hext & Hnorm);
          simplify_eq/=; [congruence|].
        apply Forall_cons in Hbefore as [_ ?]. eauto 10.
Qed.

Lemma probe_no_file os resolved base_dir exts :
  probe os resolved base_dir exts = Ok None ↔
  Forall (λ e, isfile os (resolved +:+ e) = false) exts.
Proof.
  induction exts as [|e exts IH]; simpl; [by split|].
  destruct (isfile os (resolved +:+ e)) eqn:He.
  - destruct (normalize_path_returns os (resolved +:+ e) base_dir) as [r0 ->].
    simpl. split; [done|]. intros [? _]%Forall_cons. congruence.
  - rewrite IH. split; [by constructor|by intros [_ ?]%Forall_cons].
Qed.

(** X4. The first candidate that names a file wins: [resolve_import]
    returns [r] iff some suffix of the list, tried in its order, is the
    first one that makes the probed path a file, and [r] is that file
    relative to the root; it returns [None] iff the raw path is taken for
    an external package or no suffix names a file. *)
Theorem resolve_import_first_candidate_wins os import_path current_file base_dir :
  (∀ r, resolve_import os import_path current_file base_dir = Ok (Some r) ↔
     ∃ resolved before ext after,
       resolved_candidate os import_path current_file base_dir = Some resolved ∧
       probe_extensions = before ++ ext :: after ∧
       Forall (λ e, isfile os (resolved +:+ e) = false) before ∧
       isfile os (resolved +:+ ext) = true ∧
       normalize_path os (resolved +:+ ext) base_dir = Ok r) ∧
  (resolve_import os import_path current_file base_dir = Ok None ↔
     resolved_candidate os import_path current_file base_dir = None ∨
     ∃ resolved,
       resolved_candidate os import_path current_file base_dir = Some resolved ∧
       Forall (λ e, isfile os (resolved +:+ e) = false) probe_extensions).
Proof.
  unfold resolve_import.
  destruct (resolved_candidate os import_path current_file base_dir)
    as [resolved|]; split.
  - intros r. rewrite probe_first_file. split.
    + intros (before & ext & after & ?). by exists resolved, before, ext, after.
    + intros (? & before & ext & after & [= <-] & ?). by exists before, ext, after.
  - rewrite probe_no_file. split; [by eauto|].
    by intros [|(? & [= <-] & ?)].
  - intros r. split; [done|]. by intros (? & ? & ? & ? & ? & _).
  - split; [by left|done].
Qed.

(** ** Further properties of the Python extractor *)

Lemma replace_dot_not_relative g :
  Str.startswith "." (Str.replace "." "/" g) = false.
Proof.
  destruct g as [|c g]; [done|]. unfold Str.startswith.
  cbn [Str.replace String.prefix].
  destruct (decide (c = "."%char)) as [->|Hc]; [done|].
  destruct (ascii_dec "." c) as [Heq|]; [by destruct Hc|done].
Qed.

Lemma resolve_import_ignores_file os import_path f f' base_dir :
  Str.startswith "." import_path = false →
  resolve_import os import_path f base_dir
  = resolve_import os import_path f' base_dir.
Proof.
  intros Hdot. unfold resolve_import, resolved_candidate. by rewrite Hdot.
Qed.

Lemma resolve_matches_ignores_file os f f' base_dir matches acc :
  resolve_matches os f base_dir matches acc
  = resolve_matches os f' base_dir matches acc.
Proof.
  unfold resolve_matches. apply for_each_ext. intros imports [pos g] _.
  by rewrite (resolve_import_ignores_file os _ f f')
    by apply replace_dot_not_relative.
Qed.

(** X5. Python imports are never resolved relative to the importing
    file: what the extractor yields does not depend on [filepath], and a
    module name with a leading dot, [.g], is probed at the absolute path
    [/g] of the file system. *)
Theorem python_imports_ignore_importing_file os content base_dir :
  (∀ filepath filepath',
     extract_imports_python os content filepath base_dir
     = extract_imports_python os content filepath' base_dir) ∧
  (∀ g filepath,
     resolved_candidate os (Str.replace "." "/" ("." +:+ g)) filepath base_dir
     = Some ("/" +:+ Str.replace "." "/" g)).
Proof.
  split.
  - intros f f'. unfold extract_imports_python.
    rewrite (resolve_matches_ignores_file os f f').
    destruct (resolve_matches os f' base_dir _ []) as [imports| |]; simpl;
      [|done..].
    apply resolve_matches_ignores_file.
  - intros g f.
    assert (Str.replace "." "/" ("." +:+ g) = "/" +:+ Str.replace "." "/" g)
      as -> by reflexivity.
    by destruct (Str.replace "." "/" g).
Qed.

(** ** Further properties of the layer detector *)

Lemma count_char_app c s t :
  count_char c (s +:+ t) = count_char c s + count_char c t.
Proof. induction s as [|x s IH]; simpl; [done|]. rewrite IH. lia. Qed.

Lemma search_needs_slashes pattern p :
  count_char "/" p < count_char "/" pattern → search pattern p = false.
Proof.
  intros Hlt. destruct (search pattern p) eqn:Hs; [|done].
  apply contains_occurs in Hs as (pre & post & ->).
  rewrite !count_char_app in Hlt. lia.
Qed.

(** X6. A path with fewer than two slashes has no layer: every pattern
    is a directory name between two slashes, so a module directly in a
    layer directory at the top of the scanned tree, such as
    [components/Button.tsx], is not classified, and no violation is
    reported from it or to it. *)
Theorem top_level_layer_directory_unclassified p :
  count_char "/" p < 2 →
  get_layer p = None ∧
  ∀ ms source target label,
    (source, target, label) ∈ detect_layer_violations ms →
    source ≠ p ∧ target ≠ p.
Proof.
  intros Hp.
  assert (get_layer p = None) as Hnone.
  { unfold get_layer, layer_patterns. simpl.
    by rewrite !search_needs_slashes by (simpl; lia). }
  split; [done|]. intros ms source target label Hv.
  apply layer_violations_classified_and_distinct in Hv as ([? Hs] & [? Ht] & _).
  split; intros ->; congruence.
Qed.

Lemma top_level_layer_directory_unclassified_witness :
  get_layer "components/Button.tsx" = None ∧
  ∀ ms source target label,
    (source, target, label) ∈ detect_layer_violations ms →
    source ≠ "components/Button.tsx" ∧ target ≠ "components/Button.tsx".
Proof.
  apply (top_level_layer_directory_unclassified "components/Button.tsx").
  simpl. lia.
Defined.

(** ** Further properties of the coupling analyzer *)

(** X7. The hub condition reports nothing that the total does not: a
    module is reported iff its total exceeds 10, since a module with both
    counts above 5 has a total of 12 at least. *)
Theorem hub_condition_is_subsumed ms issue :
  (issue ∈ analyze_coupling ms ↔
   ∃ info, (module issue, info) ∈ ms ∧
     incoming issue = times_imported (module issue) ms ∧
     outgoing issue = import_count info ∧
     total issue = incoming issue + outgoing issue ∧
     total issue > TOTAL_COUPLING_THRESHOLD) ∧
  (is_hub issue = true → incoming issue + outgoing issue ≥ 12).
Proof.
  split.
  - rewrite analyze_coupling_elem. unfold flagged, HIGH_COUPLING_THRESHOLD,
      TOTAL_COUPLING_THRESHOLD.
    split; intros (info & ? & ? & ? & Ht & Hf); exists info;
      (split_and!; [done..|]); [lia|left; lia].
  - intros [??]%is_hub_spec. unfold HIGH_COUPLING_THRESHOLD in *. lia.
Qed.

(** ** Further properties of the deduplication *)

Lemma dedup_from_fixed seen cs :
  NoDup (normalized <$> cs) →
  (∀ c, c ∈ cs → normalized c ∉ seen) →
  dedup_from seen cs = cs.
Proof.
  revert seen. induction cs as [|c cs IH]; intros seen; csimpl; [done|].
  intros [Hnotin Hnd]%NoDup_cons Hseen.
  rewrite decide_False by (apply Hseen; left). f_equal.
  apply IH; [done|]. intros d Hd.
  assert (normalized d ≠ normalized c).
  { intros Heq. apply Hnotin. rewrite <-Heq. apply list_elem_of_fmap. eauto. }
  assert (normalized d ∉ seen) by (apply Hseen; by right). set_solver.
Qed.

(** X8. Deduplicating is idempotent: applied to its own result it
    removes nothing. *)
Theorem deduplicate_idempotent cs :
  deduplicate (deduplicate cs) = deduplicate cs.
Proof.
  rewrite !deduplicate_dedup_from. apply dedup_from_fixed.
  - apply dedup_from_NoDup.
  - intros c _. set_solver.
Qed.

(** ** Further properties of the graph builder *)

(** A loop whose turns only add to what [K] holds of the state. *)
Lemma for_each_collect {A S} (K : S → string → Prop) (E : A → string → Prop)
    (body : S → A → result S) xs : ∀ st st',
  (∀ st x st', x ∈ xs → body st x = Ok st' → ∀ p, K st' p ↔ K st p ∨ E x p) →
  for_each body xs st = Ok st' →
  ∀ p, K st' p ↔ K st p ∨ ∃ x, x ∈ xs ∧ E x p.
Proof.
  induction xs as [|x xs IH]; intros st st' Hbody; simpl.
  - intros [= <-] p. split; [auto|].
    by intros [?|(? & ?%elem_of_nil & _)].
  - destruct (body st x) as [st1| |] eqn:Hx; simpl; [|done..].
    intros Hrest p.
    assert (∀ st x st', x ∈ xs → body st x = Ok st' →
                        ∀ p, K st' p ↔ K st p ∨ E x p) as Hbody'.
    { intros ??? Hin. apply Hbody. by right. }
    rewrite (IH st1 st' Hbody' Hrest p).
    rewrite (Hbody st x st1 ltac:(left) Hx p). split.
    + intros [[?|?]|(y & ? & ?)]; [by left| |].
      * right. exists x. split; [left|done].
      * right. exists y. split; [by right|done].
    + intros [?|(y & [->|?]%elem_of_cons & ?)];
        [by left; left|by left; right|right; by exists y].
Qed.

Section builder_more.

Variable js_ts_import_paths : string → list string.
Variable extract_exports : string → list string.

Lemma analyze_file_some os filepath base_dir r :
  analyze_file js_ts_import_paths extract_exports os filepath base_dir = Ok r →
  ∀ p, (∃ info, r = Some info ∧ path info = p) ↔
       is_Some (read_text os filepath) ∧
       normalize_path os filepath base_dir = Ok p.
Proof.
  unfold analyze_file. destruct (read_text os filepath) as [content|].
  2:{ intros [= <-] p. split; [by intros (? & ? & _)|].
      by intros [[] _]. }
  destruct (normalize_path_returns os filepath base_dir) as [rel_path Hrel].
  rewrite Hrel. simpl.
  destruct (if bool_decide _ then _ else _) as [imports| |]; simpl; [|done..].
  intros [= <-] p. split.
  - intros (info & [= <-] & <-). split; [by eexists|done].
  - intros [_ [= <-]]. eexists. by split.
Qed.

Lemma scan_file_keys os base_dir root ms filename ms' :
  scan_file js_ts_import_paths extract_exports os base_dir root ms filename
  = Ok ms' →
  ∀ p, p ∈ Dict.keys ms' ↔
       p ∈ Dict.keys ms ∨
       (existsb (λ ext, Str.endswith ext filename) extensions = true ∧
        is_Some (read_text os (Path.join root filename)) ∧
        normalize_path os (Path.join root filename) base_dir = Ok p).
Proof.
  unfold scan_file. destruct (existsb _ _).
  2:{ intros [= <-] p. split; [auto|]. by intros [?|[? _]]. }
  destruct (analyze_file _ _ _ _ _) as [[info|]| |] eqn:Ha; simpl; [| |done..].
  - pose proof (analyze_file_some _ _ _ _ Ha) as Hs.
    intros [= <-] p. rewrite dict_set_keys. case_decide as Hin.
    + split; [auto|]. intros [?|(_ & Hp)]; [done|].
      by apply Hs in Hp as (? & [= <-] & <-).
    + rewrite elem_of_app, list_elem_of_singleton. split.
      * intros [?| ->]; [by left|right]. split; [done|]. apply Hs. eauto.
      * intros [?|(_ & Hp)]; [by left|right].
        by apply Hs in Hp as (? & [= <-] & <-).
  - intros [= <-] p. split; [auto|]. intros [?|(_ & Hp)]; [done|].
    by apply (analyze_file_some _ _ _ _ Ha) in Hp as (? & ? & _).
Qed.

Lemma scan_keys os base_dir walk ms :
  scan js_ts_import_paths extract_exports os base_dir walk = Ok ms →
  ∀ p, p ∈ Dict.keys ms ↔ module_file os base_dir walk p.
Proof.
  unfold scan. intros Hscan p.
  set (E := λ (root filename q : string),
         existsb (λ ext, Str.endswith ext filename) extensions = true ∧
         is_Some (read_text os (Path.join root filename)) ∧
         normalize_path os (Path.join root filename) base_dir = Ok q).
  assert (∀ root files st st',
    for_each (scan_file js_ts_import_paths extract_exports os base_dir root)
      files st = Ok st' →
    ∀ q, q ∈ Dict.keys st' ↔
         q ∈ Dict.keys st ∨ ∃ filename, filename ∈ files ∧ E root filename q)
    as Hinner.
  { intros root files st st'.
    apply (for_each_collect (λ ms p, p ∈ Dict.keys ms) (E root)).
    intros ms1 filename ms2 _. apply scan_file_keys. }
  assert (Houter := λ H,
    for_each_collect (λ ms p, p ∈ Dict.keys ms)
      (λ '(root, files) q, ∃ filename, filename ∈ files ∧ E root filename q)
      _ walk [] ms H Hscan p).
  rewrite Houter by (intros st [root files] st' _; apply Hinner).
  unfold module_file. split.
  - intros [?%elem_of_nil|([root files] & ? & filename & ?)]; [done|].
    by exists root, files, filename.
  - intros (root & files & filename & ? & ?). right.
    exists (root, files). split; [done|]. by exists filename.
Qed.

(** With the nested calls that the cycle search needs,
    [analyze_directory] returns a report for every file system and every
    walk.  The keys of the module map are unique and are exactly the
    paths, relative to the root, of the files of the walk that have a
    listed extension and can be read; the three analyses are those of
    this map. *)
Theorem analyze_directory_returns_report os dirpath walk :
  ∃ report,
    analyze_directory js_ts_import_paths extract_exports os dirpath walk
    = Ok report ∧
    NoDup (Dict.keys (modules report)) ∧
    (∀ p, p ∈ Dict.keys (modules report) ↔
          module_file os (Path.abspath (cwd os) dirpath) walk p) ∧
    find_circular_dependencies (modules report)
    = Ok (circular_dependencies report) ∧
    coupling_issues report = analyze_coupling (modules report) ∧
    layer_violations report = detect_layer_violations (modules report).
Proof.
  unfold analyze_directory, build_modules.
  destruct (scan_inv js_ts_import_paths extract_exports os
              (Path.abspath (cwd os) dirpath) walk) as (ms & Hscan & Hnd & _).
  rewrite Hscan. simpl.
  destruct (dfs_all_spec (update_imported_by ms)) as (st & Hst & _).
  unfold find_circular_dependencies. rewrite Hst. simpl.
  eexists. split; [done|]. simpl. rewrite update_imported_by_keys.
  split_and!; [done|by apply scan_keys| |done..].
  by rewrite Hst.
Qed.

End builder_more.

Lemma sum_list_with_zero {A} (l : list A) : sum_list_with (λ _, 0) l = 0.
Proof. by induction l. Qed.

Lemma sum_list_with_add {A} (f g : A → nat) l :
  sum_list_with (λ x, f x + g x) l = sum_list_with f l + sum_list_with g l.
Proof. induction l as [|x l IH]; simpl; [done|]. rewrite IH. lia. Qed.

Lemma sum_list_with_swap {A B} (f : A → B → nat) xs ys :
  sum_list_with (λ x, sum_list_with (f x) ys) xs
  = sum_list_with (λ y, sum_list_with (λ x, f x y) xs) ys.
Proof.
  induction xs as [|x xs IH]; simpl.
  - by rewrite sum_list_with_zero.
  - by rewrite IH, sum_list_with_add.
Qed.

Lemma sum_list_with_le {A} (f g : A → nat) l :
  Forall (λ x, f x ≤ g x) l → sum_list_with f l ≤ sum_list_with g l.
Proof. induction 1; simpl; lia. Qed.

Lemma sum_list_with_ext_in {A} (f g : A → nat) l :
  Forall (λ x, f x = g x) l → sum_list_with f l = sum_list_with g l.
Proof. induction 1; simpl; lia. Qed.

(** The imports that fall on one of [ks], counted key by key. *)
Lemma count_by_key (ks l : list string) :
  NoDup ks →
  sum_list_with (λ p, length (filter (λ imp, imp = p) l)) ks
  = length (filter (λ imp, imp ∈ ks) l).
Proof.
  induction 1 as [|k ks Hk Hnd IH]; simpl.
  - induction l as [|x l IHl]; [done|].
    rewrite filter_cons. by rewrite decide_False by apply not_elem_of_nil.
  - rewrite IH. clear IH. induction l as [|x l IHl]; [done|].
    rewrite !filter_cons.
    destruct (decide (x = k)) as [->|Hne].
    + rewrite decide_False by done. rewrite decide_True by left.
      simpl. lia.
    + destruct (decide (x ∈ ks)) as [Hin|Hout].
      * rewrite decide_True by (by right). simpl. lia.
      * rewrite decide_False by (by intros [?|?]%elem_of_cons). done.
Qed.

Lemma sum_over_entries (T : string → nat) (ms : list (string * ModuleInfo)) :
  (∀ p info, (p, info) ∈ ms → imported_by_count info = T p) →
  sum_list_with imported_by_count (Dict.values ms)
  = sum_list_with T (Dict.keys ms).
Proof.
  unfold Dict.values, Dict.keys.
  induction ms as [|[p info] ms IH]; intros Hall; csimpl; [done|].
  rewrite (Hall p info) by left. f_equal. apply IH.
  intros ???. apply Hall. by right.
Qed.

(** In a built graph every import that is a key is counted once. *)
Lemma built_handshake ms :
  built ms →
  sum_list_with imported_by_count (Dict.values ms)
  = sum_list_with (λ info, length (internal_imports ms info)) (Dict.values ms).
Proof.
  intros [Hnd Hall].
  rewrite (sum_over_entries (λ p, times_imported p ms))
    by (intros p info Hin; by destruct (Hall p info Hin) as (_ & ? & _)).
  unfold times_imported. rewrite sum_list_with_swap.
  apply sum_list_with_ext_in, Forall_forall. intros info _.
  by apply count_by_key.
Qed.

(** X10. In the graph the builder returns, the [imported_by_count]s sum
    to the number of internal imports, the imports that are modules of
    the map; so they sum to no more than the [import_count]s do. *)
Theorem imported_by_counts_sum_to_internal_imports
    js_ts_import_paths extract_exports os dirpath walk :
  ∃ ms,
    build_modules js_ts_import_paths extract_exports os dirpath walk = Ok ms ∧
    sum_list_with imported_by_count (Dict.values ms)
    = sum_list_with (λ info, length (internal_imports ms info))
        (Dict.values ms) ∧
    sum_list_with imported_by_count (Dict.values ms)
    ≤ sum_list_with import_count (Dict.values ms).
Proof.
  destruct (build_modules_built js_ts_import_paths extract_exports
              os dirpath walk) as (ms & Hms & Hbuilt).
  exists ms. split; [done|]. split; [by apply built_handshake|].
  rewrite built_handshake by done.
  apply sum_list_with_le, Forall_forall. intros info Hin.
  apply list_elem_of_fmap in Hin as ([p info'] & -> & Hin). simpl.
  destruct Hbuilt as [_ Hall].
  destruct (Hall p info' Hin) as ((_ & _ & ->) & _).
  unfold internal_imports. apply length_filter.
Qed.

(** ** Further properties of the reports *)

Lemma cycle_lines_some i cs :
  Forall (λ c, cycle c ≠ []) cs → is_Some (cycle_lines i cs).
Proof.
  intros Hcs. revert i. induction Hcs as [|c cs Hc _ IH]; intros i; simpl.
  - by eexists.
  - unfold description. destruct (cycle c) as [|first rest]; [done|]. simpl.
    destruct (IH (S i)) as [rest' ->]. by eexists.
Qed.

Lemma emitted_ok_nonempty ms c : emitted_ok ms c → cycle c ≠ [].
Proof. intros (_ & _ & Hwalk) Hnil. by rewrite Hnil in Hwalk. Qed.

Section report_facts.

Variable js_ts_import_paths : string → list string.
Variable extract_exports : string → list string.

(** X11. The text report of an analysis is always produced: every
    reported cycle has a first module, so that no [description] fails. *)
Theorem text_report_is_produced os dirpath walk :
  ∃ report text,
    analyze_directory js_ts_import_paths extract_exports os dirpath walk
    = Ok report ∧
    Forall (λ c, is_Some (description c)) (circular_dependencies report) ∧
    format_text_report report = Some text.
Proof.
  unfold analyze_directory.
  destruct (build_modules_built js_ts_import_paths extract_exports
              os dirpath walk) as (ms & -> & _). simpl.
  destruct (dfs_all_spec ms) as (st & Hst & Hok & _).
  unfold find_circular_dependencies. rewrite Hst. simpl.
  assert (Forall (λ c, cycle c ≠ []) (deduplicate (cycles st))) as Hne.
  { rewrite deduplicate_dedup_from. apply Forall_forall. intros c Hc.
    apply (sublist_subseteq _ _ (dedup_from_sublist _ _)) in Hc.
    eapply emitted_ok_nonempty, (proj1 (Forall_forall _ _) Hok c Hc). }
  destruct (cycle_lines_some 1 _ Hne) as [numbered Hnum].
  set (report := {| modules := ms;
                    circular_dependencies := deduplicate (cycles st);
                    coupling_issues := analyze_coupling ms;
                    layer_violations := detect_layer_violations ms |}).
  assert (is_Some (format_text_report report)) as [text Htext].
  { unfold format_text_report. simpl. rewrite Hnum.
    destruct (bool_decide (deduplicate (cycles st) = [])); by eexists. }
  exists report, text. split; [done|]. split; [|done].
  eapply Forall_impl; [exact Hne|]. intros c Hc. simpl in Hc.
  unfold description. destruct (cycle c); [done|by eexists].
Qed.

End report_facts.

(** ** Further properties of the diagram *)

Lemma safe_name_cons c p :
  safe_name (String c p)
  = String (if is_separator c then "_"%char else c) (safe_name p).
Proof.
  unfold safe_name, is_separator. simpl. f_equal.
  repeat case_decide; repeat case_bool_decide; simplify_eq/=; done.
Qed.

Lemma safe_char_eq a b :
  (if is_separator a then "_"%char else a)
  = (if is_separator b then "_"%char else b) ↔
  a = b ∨ (is_separator a = true ∧ is_separator b = true).
Proof.
  destruct (is_separator a) eqn:Ha, (is_separator b) eqn:Hb.
  - split; auto.
  - split; [intros <-; by vm_compute in Hb|].
    intros [->|[_ ?]]; congruence.
  - split; [intros ->; by vm_compute in Ha|].
    intros [->|[? _]]; congruence.
  - split; [auto|]. by intros [?|[? _]].
Qed.

(** X12. Two paths get the same node name in the diagram iff they
    differ only in separators: [/], [.], [-] and [_] all become [_], so
    that [a/b.ts] and [a_b.ts] are drawn as one node. *)
Theorem safe_name_collisions p q :
  safe_name p = safe_name q ↔ same_up_to_separators p q.
Proof.
  revert q. induction p as [|a p IH]; intros [|b q]; simpl;
    rewrite ?safe_name_cons; try done.
  rewrite <-IH, <-safe_char_eq. split; [by intros [= ??]|].
  by intros [-> ->].
Qed.

Lemma insert_by_desc_Permutation {A} (key : A → nat) x l :
  insert_by_desc key x l ≡ₚ x :: l.
Proof.
  induction l as [|y l IH]; simpl; [done|].
  case_decide; [done|]. rewrite IH. apply Permutation_swap.
Qed.

Lemma sorted_desc_Permutation {A} (key : A → nat) l : sorted_desc key l ≡ₚ l.
Proof.
  induction l as [|x l IH]; simpl; [done|].
  by rewrite insert_by_desc_Permutation, IH.
Qed.

Lemma insert_by_desc_Sorted {A} (key : A → nat) x l :
  Sorted (key_ge key) l → Sorted (key_ge key) (insert_by_desc key x l).
Proof.
  induction 1 as [|y l Hl IH Hhd]; simpl; [by repeat constructor|].
  case_decide as Hle.
  - by repeat constructor.
  - constructor; [done|].
    destruct Hhd as [|z l Hyz]; simpl.
    + constructor. unfold key_ge. lia.
    + case_decide; constructor; unfold key_ge in *; lia.
Qed.

Lemma sorted_desc_Sorted {A} (key : A → nat) l :
  Sorted (key_ge key) (sorted_desc key l).
Proof.
  induction l as [|x l IH]; simpl; [constructor|by apply insert_by_desc_Sorted].
Qed.

Global Instance key_ge_trans {A} (key : A → nat) : Transitive (key_ge key).
Proof. unfold key_ge. intros x y z ??. lia. Qed.

(** A slice of the sorted list holds the elements with the largest keys. *)
Lemma take_sorted_desc {A} (key : A → nat) k l :
  take k (sorted_desc key l) ++ drop k (sorted_desc key l) ≡ₚ l ∧
  ∀ x y, x ∈ take k (sorted_desc key l) → y ∈ drop k (sorted_desc key l) →
         key y ≤ key x.
Proof.
  split; [by rewrite take_drop, sorted_desc_Permutation|].
  intros x y Hx Hy.
  assert (StronglySorted (key_ge key) (sorted_desc key l)) as Hs.
  { apply Sorted_StronglySorted; [apply _|apply sorted_desc_Sorted]. }
  rewrite <-(take_drop k (sorted_desc key l)) in Hs.
  by apply (StronglySorted_app_1_elem_of _ _ _ x y Hs).
Qed.

Lemma slice_to_take {A} (n : Z) (l : list A) : ∃ k, slice_to n l = take k l.
Proof. unfold slice_to. case_decide; eauto. Qed.

Lemma mermaid_edges_elem sel line :
  line ∈ mermaid_edges sel ↔
  ∃ source target,
    source ∈ sel ∧ target ∈ sel ∧ path target ∈ imports source ∧
    line = "    " +:+ safe_name (path source) +:+ " --> "
           +:+ safe_name (path target).
Proof.
  unfold mermaid_edges. rewrite elem_of_flat_map. split.
  - intros (source & Hsource & Hline). exists source.
    apply elem_of_flat_map in Hline as (imp & Himp & Hline).
    case_bool_decide as Hin; [|by apply elem_of_nil in Hline].
    apply list_elem_of_singleton in Hline as ->.
    apply elem_of_list_to_set, list_elem_of_fmap in Hin as (target & -> & ?).
    by exists target.
  - intros (source & target & ? & ? & ? & ->). exists source. split; [done|].
    apply elem_of_flat_map. exists (path target). split; [done|].
    rewrite bool_decide_true; [left|].
    apply elem_of_list_to_set, list_elem_of_fmap. eauto.
Qed.

(** X13. The diagram shows the most connected modules and the imports
    among them: the drawn modules are a slice of the modules of the
    report, no module left out has more connections than a drawn one,
    with a limit that is not negative they are no more than the limit,
    and the lines after the header are exactly the imports of a drawn
    module that are the path of a drawn module. *)
Theorem mermaid_draws_most_connected report max_nodes :
  (∃ rest,
     most_connected report max_nodes ++ rest
       ≡ₚ Dict.values (modules report) ∧
     ∀ x y, x ∈ most_connected report max_nodes → y ∈ rest →
            connections y ≤ connections x) ∧
  ((0 ≤ max_nodes)%Z →
   (Z.of_nat (length (most_connected report max_nodes)) ≤ max_nodes)%Z) ∧
  ∀ line,
    line ∈ mermaid_edges (most_connected report max_nodes) ↔
    ∃ source target,
      source ∈ most_connected report max_nodes ∧
      target ∈ most_connected report max_nodes ∧
      path target ∈ imports source ∧
      line = "    " +:+ safe_name (path source) +:+ " --> "
             +:+ safe_name (path target).
Proof.
  split_and!.
  - unfold most_connected.
    destruct (slice_to_take max_nodes
                (sorted_desc (λ x, import_count x + imported_by_count x)
                   (Dict.values (modules report)))) as [k ->].
    eexists. apply (take_sorted_desc connections).
  - intros Hn. unfold most_connected, slice_to.
    rewrite decide_True by done. rewrite length_take. lia.
  - apply mermaid_edges_elem.
Qed.

Lemma sum_list_with_Permutation {A} (f : A → nat) l l' :
  l ≡ₚ l' → sum_list_with f l = sum_list_with f l'.
Proof. induction 1; simpl; lia. Qed.

Lemma mermaid_edges_length sel :
  length (mermaid_edges sel)
  = sum_list_with (λ info,
      length (filter (λ imp, imp ∈ path <$> sel) (imports info))) sel.
Proof.
  unfold mermaid_edges. generalize (path <$> sel). intros paths.
  induction sel as [|info sel IH]; simpl; [done|].
  rewrite length_app, IH. f_equal. clear IH.
  induction (imports info) as [|imp imps IHi]; simpl; [done|].
  rewrite filter_cons, length_app, IHi.
  case_bool_decide as Hin; rewrite elem_of_list_to_set in Hin.
  - by rewrite decide_True.
  - by rewrite decide_False.
Qed.

Lemma entries_paths (ms : list (string * ModuleInfo)) :
  (∀ p info, (p, info) ∈ ms → path info = p) →
  path <$> Dict.values ms = Dict.keys ms.
Proof.
  unfold Dict.values, Dict.keys.
  induction ms as [|[p info] ms IH]; intros Hall; csimpl; [done|].
  rewrite (Hall p info) by left. f_equal.
  apply IH. intros ???. apply Hall. by right.
Qed.

Lemma filter_ext_in_list (P Q : string → Prop)
    `{∀ x, Decision (P x)} `{∀ x, Decision (Q x)} (l : list string) :
  (∀ x, P x ↔ Q x) → filter P l = filter Q l.
Proof.
  intros HPQ. induction l as [|x l IH]; [done|].
  rewrite !filter_cons, IH.
  destruct (decide (P x)), (decide (Q x)); naive_solver.
Qed.

Section diagram_facts.

Variable js_ts_import_paths : string → list string.
Variable extract_exports : string → list string.

(** X14. When the modules of an analysis are no more than the limit,
    the diagram has one line for every internal import: the lines after
    the header are as many as the [imported_by_count]s sum to. *)
Theorem mermaid_draws_every_internal_import os dirpath walk :
  ∃ report,
    analyze_directory js_ts_import_paths extract_exports os dirpath walk
    = Ok report ∧
    ∀ max_nodes,
      (Z.of_nat (length (modules report)) ≤ max_nodes)%Z →
      length (mermaid_edges (most_connected report max_nodes))
      = sum_list_with imported_by_count (Dict.values (modules report)).
Proof.
  unfold analyze_directory.
  destruct (build_modules_built js_ts_import_paths extract_exports
              os dirpath walk) as (ms & -> & Hbuilt). simpl.
  destruct (dfs_all_spec ms) as (st & Hst & _).
  unfold find_circular_dependencies. rewrite Hst. simpl.
  eexists. split; [done|]. simpl. intros max_nodes Hfit.
  rewrite built_handshake by done.
  unfold most_connected, slice_to. simpl.
  rewrite decide_True by lia.
  set (sorted := sorted_desc _ (Dict.values ms)).
  assert (sorted ≡ₚ Dict.values ms) as Hperm by apply sorted_desc_Permutation.
  rewrite take_ge
    by (rewrite Hperm; unfold Dict.values; rewrite length_fmap; lia).
  rewrite mermaid_edges_length.
  rewrite (sum_list_with_Permutation _ _ _ Hperm).
  apply sum_list_with_ext_in, Forall_forall. intros info _. f_equal.
  unfold internal_imports. apply filter_ext_in_list. intros imp.
  rewrite <-(entries_paths ms).
  - by rewrite Hperm.
  - intros p info' Hin. destruct Hbuilt as [_ Hall].
    by destruct (Hall p info' Hin) as ((? & _) & _).
Qed.

End diagram_facts.

(** ** Further properties: the paths of the graph are relative *)

Lemma split_no_sep sep s x : x ∈ Str.split sep s → count_char sep x = 0.
Proof.
  revert x. induction s as [|c s IH]; intros x; simpl.
  - by intros ->%list_elem_of_singleton.
  - case_decide as Hc.
    + intros [->|?]%elem_of_cons; [done|by apply IH].
    + destruct (Str.split sep s) as [|h t]; simpl.
      * intros ->%list_elem_of_singleton. simpl. by rewrite decide_False.
      * intros [->|?]%elem_of_cons; [|apply IH; by right].
        simpl. rewrite decide_False by done. apply IH. left.
Qed.

Lemma startswith_slash_cons c s :
  Str.startswith "/" (String c s) = bool_decide (c = "/"%char).
Proof.
  unfold Str.startswith. cbn [String.prefix].
  destruct (ascii_dec "/" c) as [<-|Hne].
  - by destruct s.
  - by rewrite bool_decide_false by congruence.
Qed.

Lemma relative_segment x : x ≠ "" → count_char "/" x = 0 → relative x.
Proof.
  destruct x as [|c x]; [done|]. intros _. unfold relative.
  rewrite startswith_slash_cons. cbn [count_char].
  case_decide; [done|]. by rewrite bool_decide_false.
Qed.

Lemma join_relative (first : string) rest :
  first ≠ "" → relative first → relative (Str.join "/" (first :: rest)).
Proof.
  destruct first as [|c first]; [done|]. intros _. unfold relative, Str.join.
  rewrite startswith_slash_cons. intros Hc.
  destruct rest; cbn [String.concat];
    [|change (String c first +:+ ?t) with (String c (first +:+ t))];
    by rewrite startswith_slash_cons.
Qed.

Lemma relpath_relative cwd p start r :
  Path.relpath cwd p start = Ok r → relative r.
Proof.
  unfold Path.relpath. case_bool_decide; [done|].
  set (start_list := filter _ (Str.split "/" (Path.abspath cwd start))).
  set (path_list := filter _ (Str.split "/" (Path.abspath cwd p))).
  set (i := length (Path.commonprefix start_list path_list)).
  destruct (replicate (length start_list - i) ".." ++ drop i path_list)
    as [|first rest] eqn:Hlist.
  { by intros [= <-]. }
  intros [= <-].
  assert (first ≠ "" ∧ count_char "/" first = 0) as [??].
  { destruct (length start_list - i) as [|k]; simpl in Hlist.
    - assert (first ∈ path_list) as Hin.
      { apply (subseteq_drop i). rewrite Hlist. left. }
      apply list_elem_of_filter in Hin as [? Hin].
      split; [done|]. by eapply split_no_sep.
    - by injection Hlist as <- _. }
  apply join_relative; [done|]. by apply relative_segment.
Qed.

Lemma normalize_path_relative os p base_dir r :
  normalize_path os p base_dir = Ok r → relative r.
Proof.
  unfold normalize_path.
  destruct (Path.relpath (cwd os) p base_dir) as [r'|[]|] eqn:Hrel;
    intros [= <-].
  - by eapply relpath_relative.
  - unfold Path.relpath in Hrel. case_bool_decide as Hp; [by subst|].
    by destruct (_ ++ _).
Qed.

Lemma probe_relative os resolved base_dir exts r :
  probe os resolved base_dir exts = Ok (Some r) → relative r.
Proof.
  intros (before & ext & after & _ & _ & _ & Hnorm)%probe_first_file.
  by eapply normalize_path_relative.
Qed.

Lemma resolve_import_relative os import_path f base_dir r :
  resolve_import os import_path f base_dir = Ok (Some r) → relative r.
Proof.
  unfold resolve_import. destruct (resolved_candidate _ _ _ _); [|done].
  apply probe_relative.
Qed.

Lemma resolve_matches_relative os f base_dir matches acc imports :
  Forall relative acc →
  resolve_matches os f base_dir matches acc = Ok imports →
  Forall relative imports.
Proof.
  unfold resolve_matches. revert acc.
  induction matches as [|[pos g] matches IH]; intros acc Hacc; simpl.
  - by intros [= <-].
  - destruct (resolve_import os (Str.replace "." "/" g) f base_dir)
      as [[r|]| |] eqn:Hr; simpl; [| |done..].
    + apply IH. case_bool_decide; [done|].
      apply Forall_app. split; [done|]. apply Forall_singleton.
      by eapply resolve_import_relative.
    + by apply IH.
Qed.

Lemma extract_imports_python_relative os content f base_dir imports :
  extract_imports_python os content f base_dir = Ok imports →
  Forall relative imports.
Proof.
  unfold extract_imports_python.
  destruct (resolve_matches os f base_dir _ []) as [imports0| |] eqn:H0;
    simpl; [|done..].
  apply resolve_matches_relative. by eapply resolve_matches_relative.
Qed.

Lemma relative_classified_below_top p : relative p → classified_below_top p.
Proof.
  intros Hp layer
    (before & patterns & after & Htable & (pattern & Hin & pre & post & ->) & _)
    %get_layer_classified.
  assert ((layer, patterns) ∈ layer_patterns) as Hentry.
  { unfold classified, classified_in in *. rewrite Htable.
    apply elem_of_app. right. left. }
  exists patterns, pattern, pre, post. split_and!; [done..|].
  intros ->.
  assert (Forall (λ entry, Forall (λ pattern, Str.startswith "/" pattern = true)
                             entry.2) layer_patterns) as Hall.
  { by repeat constructor. }
  pose proof (proj1 (Forall_forall _ _) Hall _ Hentry) as Hpatterns.
  pose proof (proj1 (Forall_forall _ _) Hpatterns _ Hin) as Hslash.
  simpl in Hslash. destruct pattern as [|c pattern]; [done|].
  unfold relative in Hp.
  change (Str.startswith "/" (String c (pattern +:+ post)) = false) in Hp.
  rewrite startswith_slash_cons in Hslash, Hp. congruence.
Qed.

Section relative_paths.

Variable js_ts_import_paths : string → list string.
Variable extract_exports : string → list string.

Lemma resolve_paths_relative os f base_dir paths acc imports :
  Forall relative acc →
  for_each (λ imports import_path,
      resolved ← resolve_import os import_path f base_dir;
      match resolved with
      | Some r => Ok (if bool_decide (r = "") then imports else imports ++ [r])
      | None => Ok imports
      end)
    paths acc = Ok imports →
  Forall relative imports.
Proof.
  revert acc. induction paths as [|import_path paths IH]; intros acc Hacc; simpl.
  - by intros [= <-].
  - destruct (resolve_import os import_path f base_dir)
      as [[r|]| |] eqn:Hr; simpl; [| |done..].
    + apply IH. case_bool_decide; [done|].
      apply Forall_app. split; [done|]. apply Forall_singleton.
      by eapply resolve_import_relative.
    + by apply IH.
Qed.

Lemma extract_imports_js_ts_relative os content f base_dir imports :
  extract_imports_js_ts js_ts_import_paths os content f base_dir = Ok imports →
  Forall relative imports.
Proof. by apply resolve_paths_relative. Qed.

Lemma analyze_file_relative os filepath base_dir info :
  analyze_file js_ts_import_paths extract_exports os filepath base_dir
  = Ok (Some info) →
  Forall relative (path info :: imports info).
Proof.
  unfold analyze_file. destruct (read_text os filepath) as [content|]; [|done].
  destruct (normalize_path os filepath base_dir) as [rel_path| |] eqn:Hrel;
    simpl; [|done..].
  destruct (if bool_decide _ then _ else _) as [imports| |] eqn:Himports;
    simpl; [|done..].
  intros [= <-]. simpl. constructor; [by eapply normalize_path_relative|].
  assert (Forall relative imports) as Hall.
  { repeat case_bool_decide.
    - by eapply extract_imports_js_ts_relative.
    - by eapply extract_imports_python_relative.
    - by injection Himports as <-. }
  apply Forall_forall. intros imp Himp.
  apply (proj1 (Forall_forall _ _) Hall).
  unfold list_set in Himp. by apply elem_of_elements, elem_of_list_to_set in Himp.
Qed.

Lemma scan_relative os base_dir walk :
  ∃ ms, scan js_ts_import_paths extract_exports os base_dir walk = Ok ms ∧
    ∀ p info, (p, info) ∈ ms → Forall relative (p :: imports info).
Proof.
  unfold scan. apply for_each_inv.
  - by intros ?? ?%elem_of_nil.
  - intros ms [root files] _ Hms.
    apply for_each_inv; [done|]. intros ms' filename _ Hms'.
    unfold scan_file. destruct (existsb _ _); [|by eauto].
    destruct (analyze_file_returns js_ts_import_paths extract_exports os
                (Path.join root filename) base_dir)
      as ([info|] & Ha & _); rewrite Ha; simpl; [|by eauto].
    eexists. split; [done|].
    intros p info' [[= -> ->]|?]%dict_set_elem; [|by apply Hms'].
    by eapply analyze_file_relative.
Qed.

(** X15. The paths of the graph are relative: no key of the module map
    and no import begins with [/].  As every layer pattern begins with
    [/], the first segment of a path never decides its layer: a module
    has a layer only by a directory below the first segment. *)
Theorem module_paths_are_relative os dirpath walk :
  ∃ report,
    analyze_directory js_ts_import_paths extract_exports os dirpath walk
    = Ok report ∧
    ∀ p info, (p, info) ∈ modules report →
      Forall (λ q, relative q ∧ classified_below_top q) (p :: imports info).
Proof.
  unfold analyze_directory, build_modules.
  destruct (scan_relative os (Path.abspath (cwd os) dirpath) walk)
    as (ms & -> & Hms). simpl.
  destruct (dfs_all_spec (update_imported_by ms)) as (st & Hst & _).
  unfold find_circular_dependencies. rewrite Hst. simpl.
  eexists. split; [done|]. simpl.
  intros p info' (info & Hin & ->)%update_imported_by_elem. simpl.
  eapply Forall_impl; [by apply (Hms p info)|].
  intros q Hq. split; [done|]. by apply relative_classified_below_top.
Qed.

End relative_paths.

(** ** Further properties: the extension of a scanned file *)

Lemma string_app_cons c (s t : string) : String c s +:+ t = String c (s +:+ t).
Proof. done. Qed.

Lemma string_app_assoc (s t u : string) : (s +:+ t) +:+ u = s +:+ t +:+ u.
Proof.
  induction s as [|c s IH]; [done|]. by rewrite !string_app_cons, IH.
Qed.

Lemma string_length_app (s t : string) :
  String.length (s +:+ t) = String.length s + String.length t.
Proof.
  induction s as [|c s IH]; [done|]. rewrite string_app_cons. simpl.
  by rewrite IH.
Qed.

Lemma drop_length_app (s t : string) : Str.drop (String.length s) (s +:+ t) = t.
Proof.
  induction s as [|c s IH]; [by destruct t|]. by rewrite string_app_cons.
Qed.

(** [s] splits at any position. *)
Lemma drop_split n s :
  ∃ stem, s = stem +:+ Str.drop n s.
Proof.
  revert s. induction n as [|n IH]; intros s.
  - by exists "".
  - destruct s as [|c s]; [by exists ""|].
    destruct (IH s) as [stem Hstem]. exists (String c stem).
    rewrite string_app_cons. cbn [Str.drop]. by rewrite <-Hstem.
Qed.

Lemma endswith_inv ext s :
  Str.endswith ext s = true → ∃ stem, s = stem +:+ ext.
Proof.
  unfold Str.endswith.
  intros [_ Hdrop%bool_decide_eq_true]%andb_true_iff.
  destruct (drop_split (String.length s - String.length ext) s) as [stem Hs].
  exists stem. by rewrite Hdrop in Hs.
Qed.

Lemma split_length sep s :
  length (Str.split sep s) = S (count_char sep s).
Proof.
  induction s as [|c s IH]; simpl; [done|].
  case_decide; simpl; [by rewrite IH|].
  by destruct (Str.split sep s).
Qed.

Lemma split_single sep s : count_char sep s = 0 → Str.split sep s = [s].
Proof.
  induction s as [|c s IH]; simpl; [done|].
  case_decide; [done|]. intros Hs. by rewrite IH.
Qed.

Lemma last_split_after sep pre name :
  count_char sep name = 0 →
  last (Str.split sep (pre +:+ String sep name)) = Some name.
Proof.
  intros Hname. induction pre as [|c pre IH]; simpl.
  - rewrite decide_True by done. by rewrite split_single.
  - pose proof (split_length sep (pre +:+ String sep name)) as Hlen.
    simpl in Hlen.
    assert (count_char sep (pre +:+ String sep name) ≠ 0) as Hcount.
    { rewrite count_char_app. simpl. rewrite decide_True by done. lia. }
    case_decide.
    + destruct (Str.split sep (pre +:+ String sep name)); [done|].
      by rewrite last_cons, IH.
    + destruct (Str.split sep (pre +:+ String sep name)) as [|h [|h' t]];
        simpl in *; [done|lia|done].
Qed.

Lemma endswith_slash_inv a :
  Str.endswith_slash a = true → ∃ pre, a = pre +:+ "/".
Proof.
  induction a as [|c a IH]; [done|]. simpl. destruct a as [|c' a].
  - intros ->%bool_decide_eq_true. by exists "".
  - intros [pre ->]%IH. by exists (String c pre).
Qed.

(** The last component of [os.path.join(root, filename)] is [filename]. *)
Lemma join_name root filename :
  filename ≠ "" → count_char "/" filename = 0 →
  last (Str.split "/" (Path.join root filename)) = Some filename.
Proof.
  intros Hne Hname. unfold Path.join.
  destruct filename as [|c filename]; [done|].
  rewrite startswith_slash_cons.
  assert (c ≠ "/"%char) as Hc.
  { intros ->. by simpl in Hname. }
  rewrite bool_decide_false by done.
  destruct (bool_decide (root = "") || Str.endswith_slash root) eqn:Hroot.
  - apply orb_true_iff in Hroot as [->%bool_decide_eq_true|Hslash].
    + by rewrite split_single.
    + apply endswith_slash_inv in Hslash as [pre ->].
      rewrite string_app_assoc. by apply last_split_after.
  - by apply last_split_after.
Qed.

Lemma rfind_none c s : count_char c s = 0 → Str.rfind c s = None.
Proof.
  induction s as [|x s IH]; simpl; [done|].
  case_decide; [done|]. intros Hs. by rewrite IH.
Qed.

Lemma rfind_last c stem e :
  count_char c e = 0 →
  Str.rfind c (stem +:+ String c e) = Some (String.length stem).
Proof.
  intros He. induction stem as [|x stem IH]; simpl.
  - rewrite rfind_none by done. by rewrite decide_True.
  - by rewrite IH.
Qed.

Lemma suffix_of_name root stem e :
  count_char "/" (stem +:+ String "." e) = 0 →
  count_char "." e = 0 → e ≠ "" →
  suffix (Path.join root (stem +:+ String "." e))
  = if decide (stem = "") then "" else String "." e.
Proof.
  intros Hname He Hne. unfold suffix.
  rewrite join_name by (done || by destruct stem).
  simpl. rewrite rfind_last by done.
  rewrite string_length_app, drop_length_app. simpl.
  destruct stem as [|x stem]; simpl; [done|].
  rewrite bool_decide_true; [done|]. destruct e; [done|simpl; lia].
Qed.

(** X16. The extension that lets a file into the scan is the suffix by
    which [analyze_file] chooses the extractor, and lower-casing changes
    nothing in it; only a file whose whole name is the extension, such as
    [.py], has no suffix, and is entered as a module without imports.
    Names that begin with two dots are left aside: the versions of
    [pathlib] do not agree on their suffix. *)
Theorem scanned_extension_is_the_suffix root filename ext :
  ext ∈ extensions →
  Str.endswith ext filename = true →
  count_char "/" filename = 0 →
  Str.startswith ".." filename = false →
  suffix (Path.join root filename) = (if decide (filename = ext) then "" else ext)
  ∧ Str.lower (suffix (Path.join root filename))
    = suffix (Path.join root filename).
Proof.
  intros Hext [stem ->]%endswith_inv Hname _.
  assert (∃ e, ext = String "." e ∧ count_char "." e = 0 ∧ e ≠ ""
               ∧ Str.lower ext = ext) as (e & -> & He & Hne & Hlower).
  { unfold extensions in Hext.
    repeat (apply elem_of_cons in Hext as [->|Hext]);
      [by eexists..|by apply elem_of_nil in Hext]. }
  rewrite suffix_of_name by done.
  destruct stem as [|x stem].
  - change ("" +:+ String "." e) with (String "." e).
    by rewrite !decide_True.
  - rewrite !(decide_False (P := String x stem = "")) by done.
    rewrite decide_False; [done|].
    intros Heq. apply (f_equal String.length) in Heq.
    rewrite string_length_app in Heq. simpl in Heq. lia.
Qed.

Lemma scanned_extension_is_the_suffix_witness :
  suffix (Path.join "/proj/src" "app.test.ts") = ".ts"
  ∧ Str.lower (suffix (Path.join "/proj/src" "app.test.ts"))
    = suffix (Path.join "/proj/src" "app.test.ts").
Proof.
  apply (scanned_extension_is_the_suffix "/proj/src" "app.test.ts" ".ts");
    [set_solver|reflexivity..].
Defined.

(** ** Further properties: nothing is reported twice *)

Lemma violations_of_NoDup p info :
  NoDup (imports info) → NoDup (violations_of (p, info)).
Proof.
  unfold violations_of. destruct (get_layer p) as [source_layer|];
    [|constructor].
  induction 1 as [|imported imps Hnotin Hnd IH]; simpl; [constructor|].
  apply NoDup_app. split_and!; [|intros v Hv Hin|done].
  - destruct (get_layer imported); [|constructor].
    destruct (_ && _); [apply NoDup_singleton|constructor].
  - apply elem_of_flat_map in Hin as (imported' & Himp & Hin).
    destruct (get_layer imported); [|by apply elem_of_nil in Hv].
    destruct (_ && _); [|by apply elem_of_nil in Hv].
    apply list_elem_of_singleton in Hv as ->.
    destruct (get_layer imported'); [|by apply elem_of_nil in Hin].
    destruct (_ && _); [|by apply elem_of_nil in Hin].
    apply list_elem_of_singleton in Hin as [= <- _]. done.
Qed.

Lemma violations_of_source p info v :
  v ∈ violations_of (p, info) → v.1.1 = p.
Proof.
  unfold violations_of. destruct (get_layer p); [|by intros ?%elem_of_nil].
  intros (imported & _ & Hv)%elem_of_flat_map.
  destruct (get_layer imported); [|by apply elem_of_nil in Hv].
  destruct (_ && _); [|by apply elem_of_nil in Hv].
  by apply list_elem_of_singleton in Hv as ->.
Qed.

Lemma detect_layer_violations_NoDup ms :
  NoDup (Dict.keys ms) →
  (∀ p info, (p, info) ∈ ms → NoDup (imports info)) →
  NoDup (detect_layer_violations ms).
Proof.
  unfold detect_layer_violations, Dict.keys.
  induction ms as [|[p info] ms IH]; csimpl; [constructor|].
  intros [Hnotin Hnd]%NoDup_cons Himports.
  apply NoDup_app. split_and!.
  - apply violations_of_NoDup, (Himports p). left.
  - intros v Hv ([p' info'] & Hin & Hv')%elem_of_flat_map.
    apply violations_of_source in Hv, Hv'. apply Hnotin.
    apply list_elem_of_fmap. exists (p', info'). split; [|done].
    simpl. congruence.
  - apply IH; [done|]. intros p' info' ?. apply (Himports p'). by right.
Qed.

Lemma coupling_modules_sublist counts (ms : list (string * ModuleInfo)) :
  module <$> flat_map (coupling_of counts) ms `sublist_of` Dict.keys ms.
Proof.
  unfold Dict.keys. induction ms as [|[p info] ms IH]; csimpl; [done|].
  rewrite fmap_app. unfold coupling_of at 1.
  destruct (_ || _); csimpl; [by apply sublist_skip|by apply sublist_cons].
Qed.

Section no_duplicates.

Variable js_ts_import_paths : string → list string.
Variable extract_exports : string → list string.

(** X17. A report lists nothing twice: its layer violations are
    pairwise different, and no module has two coupling issues. *)
Theorem report_lists_nothing_twice os dirpath walk :
  ∃ report,
    analyze_directory js_ts_import_paths extract_exports os dirpath walk
    = Ok report ∧
    NoDup (layer_violations report) ∧
    NoDup (module <$> coupling_issues report).
Proof.
  unfold analyze_directory.
  destruct (build_modules_built js_ts_import_paths extract_exports
              os dirpath walk) as (ms & -> & Hnd & Hall). simpl.
  destruct (dfs_all_spec ms) as (st & Hst & _).
  unfold find_circular_dependencies. rewrite Hst. simpl.
  eexists. split; [done|]. simpl. split.
  - apply detect_layer_violations_NoDup; [done|].
    intros p info Hin. by destruct (Hall p info Hin) as ((_ & ? & _) & _).
  - unfold analyze_coupling.
    rewrite sorted_by_total_desc_Permutation.
    eapply sublist_NoDup; [done|apply coupling_modules_sublist].
Qed.

End no_duplicates.

(** ** Further properties of the JavaScript and TypeScript extractor *)

Lemma many_denotes cls greedy k (D : string → string → Prop) :
  (∀ s g n, k s = Some (g, n) → D s g) →
  ∀ s min g n, many cls greedy k min s = Some (g, n) →
    ∃ run t, s = run +:+ t ∧ all_of cls run = true ∧
             min ≤ String.length run ∧ D t g.
Proof.
  intros Hk.
  assert (∀ s min g n,
    match min with 0 => k s | S _ => None end = Some (g, n) →
    ∃ run t, s = run +:+ t ∧ all_of cls run = true ∧
             min ≤ String.length run ∧ D t g) as Hstop.
  { intros s [|min] g n Hs; [|done]. exists "", s. eauto using Hk. }
  induction s as [|c s IH]; intros min g n.
  - simpl. destruct greedy; [apply Hstop|].
    destruct (match min with 0 => k "" | S _ => None end) as [r|] eqn:Hr;
      [|done].
    intros [= ->]. by apply Hstop in Hr.
  - assert ((if cls c
             then '(g, n) ← many cls greedy k (pred min) s; Some (g, S n)
             else None) = Some (g, n) →
            ∃ run t, String c s = run +:+ t ∧ all_of cls run = true ∧
                     min ≤ String.length run ∧ D t g) as Hmore.
    { destruct (cls c) eqn:Hc; [|done].
      destruct (many cls greedy k (pred min) s) as [[g' n']|] eqn:Hm; [|done].
      intros [= <- <-].
      destruct (IH _ _ _ Hm) as (run & t & -> & Hrun & Hmin & HD).
      exists (String c run), t. simpl. rewrite Hc. split_and!; [done..|lia|done]. }
    simpl. destruct greedy.
    + destruct (if cls c then _ else _) as [r|] eqn:Hr.
      * intros [= ->]. by apply Hmore.
      * apply Hstop.
    + destruct (match min with 0 => k (String c s) | S _ => None end)
        as [r|] eqn:Hr.
      * intros [= ->]. by apply Hstop in Hr.
      * apply Hmore.
Qed.

Lemma capture_denotes cls k (D : string → string → Prop) :
  (∀ s g n, k s = Some (g, n) → D s g) →
  ∀ s min g n, capture cls k min s = Some (g, n) →
    ∃ t g', s = g +:+ t ∧ all_of cls g = true ∧
            min ≤ String.length g ∧ D t g'.
Proof.
  intros Hk.
  assert (∀ s min g n,
    match min with
    | 0 => '(_, n) ← k s; Some ("", n)
    | S _ => None
    end = Some (g, n) →
    ∃ t g', s = g +:+ t ∧ all_of cls g = true ∧
            min ≤ String.length g ∧ D t g') as Hstop.
  { intros s [|min] g n Hs; [|done].
    destruct (k s) as [[g' n']|] eqn:Hks; [|done]. injection Hs as <- <-.
    exists s, g'. eauto using Hk. }
  induction s as [|c s IH]; intros min g n.
  - simpl. apply Hstop.
  - simpl.
    destruct (if cls c then _ else _) as [r|] eqn:Hr; [|apply Hstop].
    intros [= ->]. destruct (cls c) eqn:Hc; [|done].
    destruct (capture cls k (pred min) s) as [[g' n']|] eqn:Hm; [|done].
    injection Hr as <- <-.
    destruct (IH _ _ _ Hm) as (t & g'' & -> & Hrun & Hmin & HD).
    exists t, g''. simpl. rewrite Hc. split_and!; [done..|lia|done].
Qed.

(** The matcher is sound: what it matches is a text of the pattern. *)
Lemma match_items_denotes items : ∀ s g n,
  match_items items s = Some (g, n) → denotes items s g.
Proof.
  induction items as [|[l|cls|cls min greedy|cls] rest IH]; intros s g n;
    simpl.
  - by intros [= <- _].
  - destruct (Str.startswith l s) eqn:Hl; [|done].
    destruct (match_items rest _) as [[g' n']|] eqn:Hm; [|done].
    intros [= <- _]. apply startswith_inv in Hl. eauto.
  - destruct s as [|c s]; [done|]. destruct (cls c) eqn:Hc; [|done].
    destruct (match_items rest s) as [[g' n']|] eqn:Hm; [|done].
    intros [= <- _]. eauto 10.
  - intros Hm. by apply (many_denotes cls greedy _ (denotes rest) IH) in Hm.
  - intros Hm.
    apply (capture_denotes cls _ (denotes rest) IH) in Hm
      as (t & g' & -> & Hrun & Hmin & HD).
    exists t, g'. split_and!; [done| |done]. split; [|done].
    intros ->. simpl in Hmin. lia.
Qed.

Lemma run_of_min cls run : all_of cls run = true → 1 ≤ String.length run →
  run_of cls run.
Proof. intros ? Hlen. split; [|done]. intros ->. simpl in Hlen. lia. Qed.

Lemma import_from_pattern_shape s g n :
  match_items import_from_pattern s = Some (g, n) → import_from_shape s g.
Proof.
  intros (t1 & -> & ws1 & t2 & -> & Hws1 & Hmin1 & mid & t3 & -> & Hmid & _
          & ws2 & t4 & -> & Hws2 & Hmin2 & t5 & -> & ws3 & t6 & -> & Hws3
          & Hmin3 & q & t7 & -> & Hq & t8 & g' & -> & Hg & q' & tail & ->
          & Hq' & _)%match_items_denotes.
  exists ws1, mid, ws2, ws3, q, q', tail.
  split_and!; auto using run_of_min.
Qed.

Lemma call_pattern_shape keyword s g n :
  match_items (call_pattern keyword) s = Some (g, n) → call_shape keyword s g.
Proof.
  intros (t1 & -> & ws & t2 & -> & Hws & _ & t3 & -> & q & t4 & -> & Hq
          & t5 & g' & -> & Hg & q' & t6 & -> & Hq' & tail & -> & _)
    %match_items_denotes.
  by exists ws, q, q', tail.
Qed.

Lemma resolve_paths_elem os f base_dir paths acc imports r :
  for_each (λ imports import_path,
      resolved ← resolve_import os import_path f base_dir;
      match resolved with
      | Some r => Ok (if bool_decide (r = "") then imports else imports ++ [r])
      | None => Ok imports
      end)
    paths acc = Ok imports →
  r ∈ imports →
  r ∈ acc ∨ ∃ g, g ∈ paths ∧ resolve_import os g f base_dir = Ok (Some r).
Proof.
  revert acc. induction paths as [|g paths IH]; intros acc; simpl.
  - intros [= ->]. auto.
  - destruct (resolve_import os g f base_dir) as [[r'|]| |] eqn:Hres;
      simpl; try done.
    + intros Hrest Hr. destruct (IH _ Hrest Hr) as [Hacc|(g' & ? & ?)].
      * case_bool_decide; [by left|].
        apply elem_of_app in Hacc as [?| ->%list_elem_of_singleton];
          [by left|right].
        exists g. split; [left|done].
      * right. exists g'. split; [by right|done].
    + intros Hrest Hr. destruct (IH _ Hrest Hr) as [?|(g' & ? & ?)]; [by left|].
      right. exists g'. split; [by right|done].
Qed.

(** X18. Every import the extractor yields for a JavaScript or
    TypeScript file is the resolution of the quoted path of an
    occurrence of [import ... from], of [import(...)] or of
    [require(...)] in the text.  In the first shape all that stands
    between [import] and [from], white space at both ends apart, is on
    one line: an import whose clause is spread over lines is not found. *)
Theorem js_ts_imports_come_from_matches os content filepath base_dir imports r :
  extract_imports_js_ts js_ts_matches os content filepath base_dir
  = Ok imports →
  r ∈ imports →
  ∃ pos g,
    (import_from_shape (Str.drop pos content) g ∨
     call_shape "import" (Str.drop pos content) g ∨
     call_shape "require" (Str.drop pos content) g) ∧
    resolve_import os g filepath base_dir = Ok (Some r).
Proof.
  unfold extract_imports_js_ts. intros Himports Hr.
  destruct (resolve_paths_elem _ _ _ _ _ _ _ Himports Hr)
    as [?%elem_of_nil|(g & Hg & Hres)]; [done|].
  unfold js_ts_matches, js_ts_patterns in Hg. simpl in Hg.
  rewrite app_nil_r, !elem_of_app in Hg.
  destruct Hg as [Hg|[Hg|Hg]];
    apply list_elem_of_fmap in Hg as ([pos g'] & -> & Hin);
    apply finditer_elem in Hin as [n Hm]; exists pos, g'; (split; [|done]).
  - left. by eapply import_from_pattern_shape.
  - right. left. by eapply call_pattern_shape.
  - right. right. by eapply call_pattern_shape.
Qed.

Lemma js_ts_imports_come_from_matches_witness :
  ∃ pos g,
    (import_from_shape (Str.drop pos one_line_import) g ∨
     call_shape "import" (Str.drop pos one_line_import) g ∨
     call_shape "require" (Str.drop pos one_line_import) g) ∧
    resolve_import proj g "/proj/a/b/c.ts" "/proj" = Ok (Some "a/b/e.tsx").
Proof.
  apply (js_ts_imports_come_from_matches proj one_line_import
           "/proj/a/b/c.ts" "/proj" ["a/b/e.tsx"]).
  - reflexivity.
  - left.
Defined.

(** The same import is found when it stands on one line and is missed
    when its names stand on lines of their own. *)
Lemma multi_line_import_is_missed :
  extract_imports_js_ts js_ts_matches proj one_line_import
    "/proj/a/b/c.ts" "/proj" = Ok ["a/b/e.tsx"] ∧
  extract_imports_js_ts js_ts_matches proj multi_line_import
    "/proj/a/b/c.ts" "/proj" = Ok [].
Proof. by vm_compute. Qed.

(** *** A default import on one line is found *)

Lemma many_greedy_run cls k run t g n : ∀ min,
  all_of cls run = true → min ≤ String.length run → stops cls t →
  k t = Some (g, n) →
  many cls true k min (run +:+ t) = Some (g, String.length run + n).
Proof.
  induction run as [|c run IH]; intros min Hrun Hmin Ht Hk.
  - change ("" +:+ t) with t. simpl in Hmin.
    assert (min = 0) as -> by lia.
    destruct t as [|c t]; simpl; [done|]. simpl in Ht. by rewrite Ht.
  - rewrite string_app_cons. simpl in *.
    apply andb_true_iff in Hrun as [Hc Hrun]. rewrite Hc.
    rewrite (IH (pred min)) by (done || lia). done.
Qed.

Lemma many_lazy_run cls k run t g n :
  all_of cls run = true →
  (∀ i, i < String.length run → k (Str.drop i (run +:+ t)) = None) →
  k t = Some (g, n) →
  many cls false k 0 (run +:+ t) = Some (g, String.length run + n).
Proof.
  induction run as [|c run IH]; intros Hrun Hfail Hk.
  - change ("" +:+ t) with t. destruct t; simpl; by rewrite Hk.
  - assert (k (String c (run +:+ t)) = None) as H0.
    { apply (Hfail 0). simpl. lia. }
    assert (∀ i, i < String.length run → k (Str.drop i (run +:+ t)) = None)
      as Hfail'.
    { intros i Hi. apply (Hfail (S i)). simpl. lia. }
    rewrite string_app_cons. simpl. simpl in Hrun.
    apply andb_true_iff in Hrun as [Hc Hrun]. rewrite Hc, H0.
    by rewrite IH.
Qed.

Lemma many_fails cls greedy k min c s :
  cls c = false → many cls greedy k (S min) (String c s) = None.
Proof. intros Hc. simpl. rewrite Hc. by destruct greedy. Qed.

Lemma capture_run cls k g t g' n : ∀ min,
  all_of cls g = true → min ≤ String.length g → stops cls t →
  k t = Some (g', n) →
  capture cls k min (g +:+ t) = Some (g, String.length g + n).
Proof.
  induction g as [|c g IH]; intros min Hrun Hmin Ht Hk.
  - change ("" +:+ t) with t. simpl in Hmin.
    assert (min = 0) as -> by lia.
    destruct t as [|c t]; simpl; rewrite Hk; [done|].
    simpl in Ht. by rewrite Ht.
  - rewrite string_app_cons. simpl in *.
    apply andb_true_iff in Hrun as [Hc Hrun]. rewrite Hc.
    rewrite (IH (pred min)) by (done || lia). done.
Qed.

Lemma drop_name_stops name t i :
  all_of is_name_char name = true → i < String.length name →
  ∃ c s, Str.drop i (name +:+ t) = String c s ∧ Re.is_space c = false.
Proof.
  revert i. induction name as [|c name IH]; intros i Hname Hi; simpl in *;
    [lia|].
  apply andb_true_iff in Hname as [Hc Hname]. rewrite string_app_cons.
  destruct i as [|i]; simpl.
  - exists c, (name +:+ t). split; [done|].
    unfold is_name_char in Hc. apply andb_true_iff in Hc as [Hs _].
    by apply negb_true_iff in Hs.
  - apply IH; [done|lia].
Qed.

Lemma match_items_lit l rest s :
  match_items (Lit l :: rest) s
  = if Str.startswith l s then
      '(g, n) ← match_items rest (Str.drop (String.length l) s);
      Some (g, String.length l + n)
    else None.
Proof. done. Qed.

Lemma match_items_one cls rest c s :
  match_items (One cls :: rest) (String c s)
  = if cls c then '(g, n) ← match_items rest s; Some (g, S n) else None.
Proof. done. Qed.

Lemma match_items_many cls min greedy rest :
  match_items (Many cls min greedy :: rest)
  = many cls greedy (match_items rest) min.
Proof. done. Qed.

Lemma match_items_capture cls rest :
  match_items (Capture cls :: rest) = capture cls (match_items rest) 1.
Proof. done. Qed.

Lemma default_import_matches name path tail :
  run_of is_name_char name → run_of not_quote path →
  ∃ n, match_items import_from_pattern (default_import name path tail)
       = Some (path, n).
Proof.
  intros [Hne Hname] [Hpne Hpath].
  set (k5 := match_items [One is_quote]).
  set (k4 := match_items [Capture not_quote; One is_quote]).
  set (k3 := match_items [One is_quote; Capture not_quote; One is_quote]).
  set (k2 := match_items [Lit "from"; Many Re.is_space 1 true; One is_quote;
                          Capture not_quote; One is_quote]).
  set (k1 := match_items [Many Re.is_space 1 true; Lit "from";
                          Many Re.is_space 1 true; One is_quote;
                          Capture not_quote; One is_quote]).
  set (k0 := match_items [Many any_but_newline 0 false;
                          Many Re.is_space 1 true; Lit "from";
                          Many Re.is_space 1 true; One is_quote;
                          Capture not_quote; One is_quote]).
  assert (k5 ("'" +:+ tail) = Some ("", 1)) as H5 by done.
  assert (k4 (path +:+ "'" +:+ tail)
          = Some (path, String.length path + 1)) as H4.
  { unfold k4. rewrite match_items_capture. fold k5.
    apply (capture_run not_quote k5 path ("'" +:+ tail) "" 1 1);
      [done| |done..].
    destruct path; [done|simpl; lia]. }
  assert (k3 ("'" +:+ path +:+ "'" +:+ tail)
          = Some (path, S (String.length path + 1))) as H3.
  { unfold k3. change ("'" +:+ path +:+ "'" +:+ tail)
      with (String "'" (path +:+ "'" +:+ tail)).
    rewrite match_items_one. fold k4. by rewrite H4. }
  assert (k2 ("from '" +:+ path +:+ "'" +:+ tail)
          = Some (path, 4 + (1 + S (String.length path + 1)))) as H2.
  { unfold k2. rewrite match_items_lit.
    change (Str.startswith "from" ("from '" +:+ path +:+ "'" +:+ tail))
      with true. cbv iota.
    change (Str.drop (String.length "from")
              ("from '" +:+ path +:+ "'" +:+ tail))
      with (" " +:+ "'" +:+ path +:+ "'" +:+ tail).
    rewrite match_items_many. fold k3.
    by rewrite (many_greedy_run Re.is_space k3 " " _ path
                  (S (String.length path + 1))). }
  assert (k1 (" from '" +:+ path +:+ "'" +:+ tail)
          = Some (path, 1 + (4 + (1 + S (String.length path + 1))))) as H1.
  { unfold k1. rewrite match_items_many. fold k2.
    by apply (many_greedy_run Re.is_space k2 " "). }
  assert (k0 (name +:+ " from '" +:+ path +:+ "'" +:+ tail)
          = Some (path, String.length name
                        + (1 + (4 + (1 + S (String.length path + 1))))))
    as H0.
  { unfold k0. rewrite match_items_many. fold k1.
    apply many_lazy_run; [|intros i Hi|done].
    - clear -Hname. induction name as [|c name IH]; simpl in *; [done|].
      apply andb_true_iff in Hname as [Hc Hname]. rewrite IH by done.
      unfold is_name_char in Hc. apply andb_true_iff in Hc as [_ ->]. done.
    - destruct (drop_name_stops name (" from '" +:+ path +:+ "'" +:+ tail)
                  i Hname Hi) as (c & s & -> & Hc).
      unfold k1. rewrite match_items_many. by apply many_fails. }
  eexists. unfold default_import, import_from_pattern.
  rewrite match_items_lit.
  change (Str.startswith "import"
            ("import " +:+ name +:+ " from '" +:+ path +:+ "'" +:+ tail))
    with true. cbv iota.
  change (Str.drop (String.length "import")
            ("import " +:+ name +:+ " from '" +:+ path +:+ "'" +:+ tail))
    with (" " +:+ name +:+ " from '" +:+ path +:+ "'" +:+ tail).
  rewrite match_items_many. fold k0.
  rewrite (many_greedy_run Re.is_space k0 " " _ path
             (String.length name
              + (1 + (4 + (1 + S (String.length path + 1))))));
    [done|done|simpl; lia| |done].
  destruct name as [|c name]; [done|]. rewrite string_app_cons. simpl.
  simpl in Hname. apply andb_true_iff in Hname as [Hc _].
  unfold is_name_char in Hc. apply andb_true_iff in Hc as [Hs _].
  by apply negb_true_iff in Hs.
Qed.

Lemma finditer_first m c s g n :
  m true (String c s) = Some (g, n) → (0, g) ∈ Re.finditer m (String c s).
Proof. intros Hm. unfold Re.finditer. simpl. rewrite Hm. left. Qed.

Lemma resolve_paths_complete os f base_dir paths g r : ∀ acc imports,
  for_each (λ imports import_path,
      resolved ← resolve_import os import_path f base_dir;
      match resolved with
      | Some r => Ok (if bool_decide (r = "") then imports else imports ++ [r])
      | None => Ok imports
      end)
    paths acc = Ok imports →
  r ∈ acc ∨ (g ∈ paths ∧ resolve_import os g f base_dir = Ok (Some r) ∧ r ≠ "") →
  r ∈ imports.
Proof.
  induction paths as [|x paths IH]; intros acc imports; simpl.
  - intros [= <-] [?|[?%elem_of_nil _]]; done.
  - destruct (resolve_import os x f base_dir) as [[r'|]| |] eqn:Hres;
      simpl; try done.
    + intros Hrest Hr. apply (IH _ _ Hrest).
      destruct Hr as [Hr|([->|Hg]%elem_of_cons & Hg' & Hne)].
      * left. case_bool_decide; [done|]. apply elem_of_app. by left.
      * left. assert (r' = r) as -> by congruence.
        rewrite bool_decide_false by done. apply elem_of_app. right. left.
      * by right.
    + intros Hrest Hr. apply (IH _ _ Hrest).
      destruct Hr as [Hr|([->|Hg]%elem_of_cons & Hg' & Hne)];
        [by left|congruence|by right].
Qed.

(** X19. A default import that stands at the start of the text on one
    line, [import <name> from '<path>'] with a name free of white space
    and a path free of quotes, is found: when the path resolves to a
    file, the file is among the imports the extractor yields. *)
Theorem default_import_is_found os name path tail filepath base_dir r :
  run_of is_name_char name → run_of not_quote path →
  resolve_import os path filepath base_dir = Ok (Some r) → r ≠ "" →
  ∃ imports,
    extract_imports_js_ts js_ts_matches os (default_import name path tail)
      filepath base_dir = Ok imports ∧
    r ∈ imports.
Proof.
  intros Hname Hpath Hres Hne.
  destruct (extract_imports_js_ts_returns js_ts_matches os
              (default_import name path tail) filepath base_dir)
    as [imports Himports].
  exists imports. split; [done|].
  unfold extract_imports_js_ts in Himports.
  apply (resolve_paths_complete _ _ _ _ path r _ _ Himports). right.
  split; [|done].
  destruct (default_import_matches name path tail Hname Hpath) as [n Hm].
  unfold js_ts_matches, js_ts_patterns. simpl. apply elem_of_app. left.
  apply list_elem_of_fmap. exists (0, path). split; [done|].
  by apply (finditer_first _ "i" _ path n).
Qed.

Lemma default_import_is_found_witness :
  ∃ imports,
    extract_imports_js_ts js_ts_matches proj
      (default_import "React" "./e" ";") "/proj/a/b/c.ts" "/proj"
    = Ok imports ∧
    "a/b/e.tsx" ∈ imports.
Proof.
  apply (default_import_is_found proj "React" "./e" ";"
           "/proj/a/b/c.ts" "/proj" "a/b/e.tsx");
    (done || by split).
Defined.

(** ** Further properties: the key of a file below the root *)

Lemma split_app_sep sep s t :
  Str.split sep (s +:+ String sep t) = Str.split sep s ++ Str.split sep t.
Proof.
  induction s as [|c s IH].
  - change ("" +:+ String sep t) with (String sep t). simpl.
    by rewrite decide_True.
  - rewrite string_app_cons. simpl. rewrite IH.
    case_decide; [done|].
    pose proof (split_nonempty sep s). by destruct (Str.split sep s).
Qed.

Lemma commonprefix_app (l l' : list string) : Path.commonprefix l (l ++ l') = l.
Proof.
  induction l as [|x l IH]; simpl; [by destruct l'|].
  by rewrite decide_True, IH.
Qed.

Lemma filter_nonempty_id (l : list string) :
  Forall (λ x, x ≠ "") l → filter (λ x, x ≠ "") l = l.
Proof.
  induction 1 as [|x l Hx _ IH]; [done|].
  by rewrite filter_cons, decide_True, IH.
Qed.

(** X20. A file below the root has as key its path below the root: when
    the absolute path of the file is that of the root followed by [/]
    and by [rel], a path without empty segment, [normalize_path] returns
    [rel]. *)
Theorem normalize_path_below_root os filepath base_dir rel :
  filepath ≠ "" →
  Path.abspath (cwd os) filepath
  = Path.abspath (cwd os) base_dir +:+ "/" +:+ rel →
  Forall (λ segment, segment ≠ "") (Str.split "/" rel) →
  normalize_path os filepath base_dir = Ok rel.
Proof.
  intros Hne Habs Hrel. unfold normalize_path, Path.relpath.
  rewrite bool_decide_false by done. rewrite Habs.
  change (Path.abspath (cwd os) base_dir +:+ "/" +:+ rel)
    with (Path.abspath (cwd os) base_dir +:+ String "/" rel).
  rewrite split_app_sep, filter_app, commonprefix_app, Nat.sub_diag.
  simpl. rewrite drop_app_length, filter_nonempty_id by done.
  pose proof (split_nonempty "/" rel) as Hsplit.
  rewrite <-(join_split rel) at 2.
  by destruct (Str.split "/" rel).
Qed.

Lemma normalize_path_below_root_witness :
  normalize_path proj "/proj/a/b/c.ts" "/proj" = Ok "a/b/c.ts".
Proof.
  apply (normalize_path_below_root proj "/proj/a/b/c.ts" "/proj" "a/b/c.ts");
    [done|reflexivity|by repeat constructor].
Defined.

(** ** Further properties: the search under the recursion limit *)

(** An outcome other than the [RecursionError] does not depend on how a
    loop body comes to it. *)
Lemma for_each_stable {A S} (body body' : S → A → result S) xs : ∀ st r,
  (∀ st x r, x ∈ xs → body st x = r → r ≠ OutOfFuel → body' st x = r) →
  for_each body xs st = r → r ≠ OutOfFuel → for_each body' xs st = r.
Proof.
  induction xs as [|x xs IH]; intros st r Hbody; simpl; [done|].
  destruct (body st x) as [st1|e|] eqn:Hx; simpl.
  - intros Hr Hne. rewrite (Hbody st x (Ok st1)) by (done || left). simpl.
    apply IH; [|done..]. intros ????. apply Hbody. by right.
  - intros <- _. by rewrite (Hbody st x (Raise e)) by (done || left).
  - by intros <-.
Qed.

Lemma bind_stable {A B} (r1 r1' : result A) (k : A → result B) r :
  (r1 ≠ OutOfFuel → r1' = r1) →
  r1 ≫= k = r → r ≠ OutOfFuel → r1' ≫= k = r.
Proof.
  intros H1 Hr Hne. rewrite H1; [done|]. intros ->. by subst r.
Qed.

(** More frames do not change a result. *)
Lemma dfs_within_mono builtin ms frames : ∀ frames' node path st r,
  dfs_within builtin frames ms node path st = r → r ≠ OutOfFuel →
  frames ≤ frames' →
  dfs_within builtin frames' ms node path st = r.
Proof.
  induction frames as [|frames IH]; intros frames' node path st r; simpl;
    [by intros <-|].
  destruct frames' as [|frames']; [lia|]. intros Hr Hne Hle. simpl.
  destruct (decide (node ∈ rec_stack st)).
  { destruct (decide (frames < builtin)); [by subst r|].
    rewrite decide_False by lia. destruct (index_of node path); [|done].
    destruct (decide (frames < builtin + 1)); [by subst r|].
    by rewrite decide_False by lia. }
  destruct (decide (node ∈ visited st)); [done|].
  destruct (decide (frames < builtin)); [by subst r|].
  rewrite decide_False by lia.
  eapply bind_stable; [|exact Hr|done].
  destruct (Dict.get ms node) as [info|]; [|done].
  intros Hloop. eapply for_each_stable; [|done|done].
  intros sti imported r' _. cbv beta.
  destruct (Dict.mem imported ms); [|done].
  intros Hbody Hne'. apply IH; [done..|lia].
Qed.

(** With the frames that the built-ins and the constructor take on top
    of its depth, the search does what [dfs] does. *)
Lemma dfs_dfs_within builtin ms fuel : ∀ node path st r,
  dfs fuel ms node path st = r → r ≠ OutOfFuel →
  dfs_within builtin (S fuel + builtin) ms node path st = r.
Proof.
  induction fuel as [|fuel IH]; intros node path st r; simpl;
    [by intros <-|].
  intros Hr Hne.
  destruct (decide (node ∈ rec_stack st)).
  { rewrite decide_False by lia. destruct (index_of node path); [|done].
    by rewrite decide_False by lia. }
  destruct (decide (node ∈ visited st)); [done|].
  rewrite decide_False by lia.
  eapply bind_stable; [|exact Hr|done].
  destruct (Dict.get ms node) as [info|]; [|done].
  intros Hloop. eapply for_each_stable; [|done|done].
  intros sti imported r' _. cbv beta.
  destruct (Dict.mem imported ms); [|done].
  intros Hbody Hne'. by apply IH.
Qed.

Lemma find_within_mono builtin frames frames' ms r :
  find_circular_dependencies_within builtin frames ms = r → r ≠ OutOfFuel →
  frames ≤ frames' →
  find_circular_dependencies_within builtin frames' ms = r.
Proof.
  unfold find_circular_dependencies_within. intros Hr Hne Hle.
  eapply bind_stable; [|exact Hr|done].
  intros Hloop. eapply for_each_stable; [|done|done].
  intros st module r' _. cbv beta. case_decide; [done|].
  intros Hbody Hne'. by eapply dfs_within_mono.
Qed.

Lemma find_circular_dependencies_returns ms :
  ∃ reported, find_circular_dependencies ms = Ok reported.
Proof.
  unfold find_circular_dependencies.
  destruct (dfs_all_spec ms) as (st & -> & _). by eexists.
Qed.

(** With two frames more than there are modules, and those of a
    built-in, the search is [find_circular_dependencies]. *)
Lemma find_within_enough builtin frames ms :
  length ms + 2 + builtin ≤ frames →
  find_circular_dependencies_within builtin frames ms
  = find_circular_dependencies ms.
Proof.
  intros Hle. destruct (find_circular_dependencies_returns ms) as [reported Hr].
  rewrite Hr.
  apply (find_within_mono builtin (S (S (length ms)) + builtin)); [|done|lia].
  revert Hr. unfold find_circular_dependencies, dfs_all,
    find_circular_dependencies_within.
  intros Hr. eapply bind_stable; [|exact Hr|done].
  intros Hloop. eapply for_each_stable; [|done|done].
  intros st module r' _. cbv beta. case_decide; [done|].
  intros Hbody Hne'. by apply dfs_dfs_within.
Qed.

(** Under any limit the search fails with the [RecursionError] or gives
    what [find_circular_dependencies] gives. *)
Lemma find_within_outcome builtin frames ms :
  find_circular_dependencies_within builtin frames ms = OutOfFuel ∨
  find_circular_dependencies_within builtin frames ms
  = find_circular_dependencies ms.
Proof.
  destruct (find_circular_dependencies_within builtin frames ms)
    as [reported|e|] eqn:Hr; [right|right|by left].
  - rewrite <-(find_within_enough builtin
                 (frames `max` (length ms + 2 + builtin)) ms) by lia.
    symmetry. eapply find_within_mono; [done..|lia].
  - rewrite <-(find_within_enough builtin
                 (frames `max` (length ms + 2 + builtin)) ms) by lia.
    symmetry. eapply find_within_mono; [done..|lia].
Qed.

Lemma find_within_fails_or_returns builtin frames ms
    (P : list CircularDependency → Prop) :
  (∀ reported, find_circular_dependencies ms = Ok reported → P reported) →
  fails_or_returns (find_circular_dependencies_within builtin frames ms) P.
Proof.
  intros HP. destruct (find_within_outcome builtin frames ms) as [?| ->];
    [by left|right].
  destruct (find_circular_dependencies_returns ms) as [reported Hr].
  exists reported. split; [done|by apply HP].
Qed.

Lemma find_within_enough_returns builtin frames ms :
  length ms + 2 + builtin ≤ frames →
  find_circular_dependencies_within builtin frames ms ≠ OutOfFuel.
Proof.
  intros Hle. rewrite find_within_enough by done.
  by destruct (find_circular_dependencies_returns ms) as [reported ->].
Qed.

(** *** What the search reports, under the limit *)

(** X1. The search fails with the [RecursionError] or returns a list in
    which every cycle is a closed walk over internal edges that passes
    through no module twice; it raises nothing else, and it returns when
    it has two nested calls more than there are modules, and those of a
    built-in. *)
Theorem search_fails_or_reports_cycles builtin frames ms :
  fails_or_returns (find_circular_dependencies_within builtin frames ms)
    (λ reported, ∀ c, c ∈ reported →
       NoDup (cycle c) ∧ closed_walk ms (cycle c) = true) ∧
  (length ms + 2 + builtin ≤ frames →
   find_circular_dependencies_within builtin frames ms ≠ OutOfFuel).
Proof.
  split; [|apply find_within_enough_returns].
  apply find_within_fails_or_returns. intros reported Hr.
  destruct (reported_cycles_sound ms) as (reported' & Hr' & Hsound).
  by assert (reported' = reported) as <- by congruence.
Qed.

(** X2. When a module imports itself, the search fails with the
    [RecursionError] or reports the cycle of length 1 that holds this
    module alone; with two nested calls more than there are modules, and
    those of a built-in, it does not fail. *)
Theorem self_import_reported_within builtin frames ms m :
  internal_edge ms m m = true →
  fails_or_returns (find_circular_dependencies_within builtin frames ms)
    (λ reported, {| cycle := [m] |} ∈ reported) ∧
  (length ms + 2 + builtin ≤ frames →
   find_circular_dependencies_within builtin frames ms ≠ OutOfFuel).
Proof.
  intros Hedge. split; [|apply find_within_enough_returns].
  apply find_within_fails_or_returns. intros reported Hr.
  destruct (self_import_reported ms m Hedge) as (reported' & Hr' & Hin).
  by assert (reported' = reported) as <- by congruence.
Qed.

Lemma self_import_reported_within_witness :
  fails_or_returns (find_circular_dependencies_within 1 4 self_importer)
    (λ reported, {| cycle := ["pkg/a.py"] |} ∈ reported) ∧
  (length self_importer + 2 + 1 ≤ 4 →
   find_circular_dependencies_within 1 4 self_importer ≠ OutOfFuel).
Proof.
  apply (self_import_reported_within 1 4 self_importer "pkg/a.py").
  reflexivity.
Defined.

(** X3. When the search returns, it returns the empty list exactly when
    the graph has no cycle, that is when no list of modules is a closed
    walk over internal edges; otherwise it fails with the
    [RecursionError], which it does not with two nested calls more than
    there are modules, and those of a built-in. *)
Theorem no_cycle_reported_iff_acyclic_within builtin frames ms :
  fails_or_returns (find_circular_dependencies_within builtin frames ms)
    (λ reported, reported = [] ↔ ∀ w, closed_walk ms w = false) ∧
  (length ms + 2 + builtin ≤ frames →
   find_circular_dependencies_within builtin frames ms ≠ OutOfFuel).
Proof.
  split; [|apply find_within_enough_returns].
  apply find_within_fails_or_returns. intros reported Hr.
  rewrite <-no_cycle_reported_iff_acyclic, Hr. split; [by intros ->|].
  by intros [= ->].
Qed.

(** *** A chain of imports *)

Lemma chain_name_inj i j : chain_name i = chain_name j → i = j.
Proof.
  unfold chain_name. intros H.
  change (String "m" (pretty i) = String "m" (pretty j)) in H.
  injection H as H. by apply (inj pretty) in H.
Qed.

Lemma chain_keys n : Dict.keys (chain_of n) = chain_name <$> seq 0 n.
Proof.
  unfold Dict.keys, chain_of. rewrite <-list_fmap_compose.
  by apply list_fmap_ext.
Qed.

Lemma chain_mem n i : i < n → Dict.mem (chain_name i) (chain_of n) = true.
Proof.
  intros Hi. unfold Dict.mem. apply bool_decide_eq_true.
  change ((chain_of n).*1) with (Dict.keys (chain_of n)).
  rewrite chain_keys. apply list_elem_of_fmap. exists i. split; [done|].
  apply elem_of_seq. lia.
Qed.

Lemma chain_get_from start len i :
  start ≤ i < start + len →
  Dict.get ((λ i, module_with (chain_name i) [chain_name (S i)])
              <$> seq start len) (chain_name i)
  = Some (module_with (chain_name i) [chain_name (S i)]).2.
Proof.
  revert start. induction len as [|len IH]; intros start Hi; [lia|].
  csimpl. destruct (decide (chain_name start = chain_name i)) as [Heq|Hne].
  - by apply chain_name_inj in Heq as ->.
  - apply IH. destruct (decide (start = i)) as [->|]; [done|lia].
Qed.

(** With fewer frames than modules ahead, the search runs out of them. *)
Lemma dfs_within_chain builtin n frames : ∀ i path st,
  frames < n - i →
  (∀ j, i ≤ j → (chain_name j ∉ visited st) ∧ chain_name j ∉ rec_stack st) →
  dfs_within builtin frames (chain_of n) (chain_name i) path st = OutOfFuel.
Proof.
  induction frames as [|frames IH]; intros i path st Hlt Hfresh; [done|].
  simpl. destruct (Hfresh i) as [Hv Hr]; [done|].
  rewrite decide_False, decide_False by done.
  case_decide; [done|].
  unfold chain_of at 1. rewrite chain_get_from by lia. simpl.
  fold (chain_of n). rewrite chain_mem by lia.
  rewrite IH; [done|lia|].
  intros j Hj. destruct (Hfresh j) as [??]; [lia|].
  assert (chain_name j ≠ chain_name i).
  { intros ?%chain_name_inj. lia. }
  simpl. set_solver.
Qed.

Lemma ranked_walk ms (rank : string → nat) rest first target :
  (∀ u v, internal_edge ms u v = true → rank u < rank v) →
  forallb (λ e, internal_edge ms e.1 e.2)
    (zip (first :: rest) (rest ++ [target])) = true →
  rank first < rank target.
Proof.
  intros Hedge. revert first.
  induction rest as [|y rest IH]; intros first;
    cbn [zip zip_with app forallb fst snd].
  - rewrite andb_true_r. apply Hedge.
  - intros [Hxy Hrest]%andb_true_iff.
    pose proof (Hedge _ _ Hxy). pose proof (IH _ Hrest). lia.
Qed.

(** A graph whose internal edges all lead to a higher rank has no cycle. *)
Lemma ranked_acyclic ms (rank : string → nat) :
  (∀ u v, internal_edge ms u v = true → rank u < rank v) →
  ∀ w, closed_walk ms w = false.
Proof.
  intros Hedge [|first rest]; [done|].
  destruct (closed_walk ms (first :: rest)) eqn:Hw; [|done].
  apply (ranked_walk ms rank rest first first Hedge) in Hw. lia.
Qed.

Lemma chain_index start len i :
  start ≤ i < start + len →
  index_of (chain_name i) (chain_name <$> seq start len) = Some (i - start).
Proof.
  revert start. induction len as [|len IH]; intros start Hi; [lia|].
  csimpl. destruct (decide (chain_name start = chain_name i)) as [Heq|Hne].
  - apply chain_name_inj in Heq as ->. by rewrite Nat.sub_diag.
  - assert (start ≠ i) by (by intros ->).
    rewrite IH by lia. simpl. f_equal. lia.
Qed.

Lemma chain_acyclic n w : closed_walk (chain_of n) w = false.
Proof.
  apply (ranked_acyclic _
    (λ u, default 0 (index_of u (chain_name <$> seq 0 n)))).
  intros u v (info & Hget & Hin & Hkey)%internal_edge_spec.
  rewrite chain_keys in Hkey.
  assert (u ∈ chain_name <$> seq 0 n) as Hu.
  { rewrite <-chain_keys. clear -Hget. unfold Dict.keys.
    induction (chain_of n) as [|[k i] ms' IH]; simpl in *; [done|].
    case_decide; [subst; left|right; by apply IH]. }
  apply list_elem_of_fmap in Hu as (i & -> & [_ Hi]%elem_of_seq).
  unfold chain_of in Hget. rewrite chain_get_from in Hget by lia.
  injection Hget as <-. simpl in Hin.
  apply list_elem_of_singleton in Hin as ->.
  apply list_elem_of_fmap in Hkey as (j & Hj & [_ Hj']%elem_of_seq).
  apply chain_name_inj in Hj as <-.
  rewrite !chain_index by lia. simpl. lia.
Qed.

(** X21. A long chain of imports uses up the nested calls: on a chain
    of [n] modules, each of which imports the next, the graph has no
    cycle, and the search fails with the [RecursionError] when it has
    fewer than [n] nested calls left. *)
Theorem chain_needs_its_length builtin frames n :
  frames < n →
  (∀ w, closed_walk (chain_of n) w = false) ∧
  find_circular_dependencies_within builtin frames (chain_of n) = OutOfFuel.
Proof.
  intros Hlt. split; [apply chain_acyclic|].
  unfold find_circular_dependencies_within.
  rewrite chain_keys. destruct n as [|n]; [lia|].
  cbn [seq fmap list_fmap for_each].
  rewrite decide_False by set_solver.
  rewrite (dfs_within_chain builtin (S n) frames 0); [done|lia|].
  intros j _. simpl. set_solver.
Qed.

Lemma chain_needs_its_length_witness :
  (∀ w, closed_walk (chain_of 1100) w = false) ∧
  find_circular_dependencies_within 1 997 (chain_of 1100) = OutOfFuel.
Proof. apply (chain_needs_its_length 1 997 1100). lia. Defined.

(** *** The analysis under the limit *)

Section report_under_limit.

Variable js_ts_import_paths : string → list string.
Variable extract_exports : string → list string.

(** X9. With a working directory, the two passes of [analyze_directory]
    that build the module map return it for every file system and every
    walk: nothing in them raises.  The keys of the map are unique and
    are exactly the paths, relative to the root, of the files of the
    walk that have a listed extension and can be read.
    [analyze_directory] then fails with the [RecursionError] of the
    cycle search or returns the report of this map with its three
    analyses; it does not fail when the search has two nested calls more
    than there are modules, and those of a built-in. *)
Theorem analyze_directory_fails_or_returns builtin frames os dirpath walk :
  ∃ ms,
    build_modules js_ts_import_paths extract_exports os dirpath walk = Ok ms ∧
    NoDup (Dict.keys ms) ∧
    (∀ p, p ∈ Dict.keys ms ↔
          module_file os (Path.abspath (cwd os) dirpath) walk p) ∧
    fails_or_returns
      (analyze_directory_within js_ts_import_paths extract_exports
         builtin frames os dirpath walk)
      (λ report,
         modules report = ms ∧
         find_circular_dependencies ms = Ok (circular_dependencies report) ∧
         coupling_issues report = analyze_coupling ms ∧
         layer_violations report = detect_layer_violations ms) ∧
    (length ms + 2 + builtin ≤ frames →
     analyze_directory_within js_ts_import_paths extract_exports
       builtin frames os dirpath walk ≠ OutOfFuel).
Proof.
  unfold analyze_directory_within, build_modules.
  destruct (scan_inv js_ts_import_paths extract_exports os
              (Path.abspath (cwd os) dirpath) walk) as (ms & Hscan & Hnd & _).
  rewrite Hscan. simpl. exists (update_imported_by ms).
  split; [done|]. rewrite update_imported_by_keys.
  split; [done|]. split; [by eapply scan_keys|].
  destruct (find_circular_dependencies_returns (update_imported_by ms))
    as [reported Hr].
  split.
  - destruct (find_within_outcome builtin frames (update_imported_by ms))
      as [->| ->]; [by left|right].
    rewrite Hr. simpl. eexists. by split.
  - intros Hle. rewrite find_within_enough by done. by rewrite Hr.
Qed.

End report_under_limit.
